(** * Jacobi-preconditioned GMRES on the 2D Poisson operator

    A verification development for [docs/examples/preconditioner.ipynb]:
    the Laplacian builder [poisson], the diagonal extraction
    [get_diagonal], the sparse operator and its registered tag, the Jacobi
    preconditioner, and the GMRES solver core the notebook drives.

    Arrays of floating-point numbers are idealised as lists of real
    numbers (exact arithmetic); array indices are natural numbers. *)

From Stdlib Require Import Reals Lra Lia ZArith.
From stdpp Require Import list.

Set Default Proof Using "Type".

(* ================================================================== *)
(** * Part I. Definitions                                              *)
(* ================================================================== *)

(** ** Arrays *)

Abbreviation Vector := (list R).

Global Instance R_eq_dec : EqDecision R := Req_dec_T.

Definition Rsum (l : list R) : R := foldr Rplus 0%R l.

(** [jnp.zeros(n)] *)
Definition jnp_zeros (n : nat) : Vector := replicate n 0%R.

(** [jnp.where(cond, x, y)] with a scalar [y] broadcast against [x]. *)
Definition jnp_where (cond : list bool) (x : Vector) (y : R) : Vector :=
  zip_with (λ (c : bool) v, if c then v else y) cond x.

(** [a.at[idx].add(vals)]: scatter-add, duplicates accumulate, and an
    update whose index is out of bounds is dropped. *)
Definition at_add (a : Vector) (idx : list nat) (vals : Vector) : Vector :=
  foldl (λ acc iv, alter (λ x, x + iv.2)%R iv.1 acc) a (zip idx vals).

(** What a scatter-add accumulates at position [i]. *)
Definition scattered (idx : list nat) (vals : Vector) (i : nat) : R :=
  Rsum (map (λ iv : nat * R, if decide (iv.1 = i) then iv.2 else 0%R) (zip idx vals)).

(** ** Sparse matrices

    A scipy sparse matrix is modelled by its shape and its stored
    coordinate entries [(row, col, value)]; entries at the same position
    add up.  The storage format (DIA, CSR, BSR), the order of the stored
    entries and whether duplicates have been merged are not part of the
    model: every function below that consumes a matrix depends on the
    entries only through sums. *)

Definition entry : Type := nat * nat * R.

Record spmatrix := SpMatrix {
  sp_shape : nat * nat;
  sp_entries : list entry
}.

(** The matrix element denoted by a list of entries. *)
Definition entries_get (es : list entry) (i j : nat) : R :=
  Rsum (map (λ e : entry, if decide (e.1 = (i, j)) then e.2 else 0%R) es).

Definition sp_get (A : spmatrix) (i j : nat) : R := entries_get (sp_entries A) i j.

(** The [k]-th diagonal of a [rows] x [cols] matrix filled with the
    broadcast scalar [v]: positions [(i, i + k)] inside the shape. *)
Definition diag_entries (rows cols : nat) (v : R) (k : Z) : list entry :=
  omap (λ i, let j := (Z.of_nat i + k)%Z in
             if bool_decide (0 ≤ j < Z.of_nat cols)%Z
             then Some (i, Z.to_nat j, v) else None)
       (seq 0 rows).

(** [scipy.sparse.diags(diagonals, offsets, shape=shape)] for scalar
    diagonals.  It raises when the two sequences differ in length or when
    an offset lies outside the shape (negative diagonal length). *)
Definition diags (diagonals : list R) (offsets : list Z) (shape : nat * nat)
  : option spmatrix :=
  let '(m, n) := shape in
  if bool_decide (length diagonals = length offsets) then
    if forallb (λ k, bool_decide
                  (0 ≤ Z.min (Z.of_nat m + k) (Z.of_nat n - k))%Z) offsets
    then Some (SpMatrix shape
                 (flat_map (λ vk : R * Z, diag_entries m n vk.1 vk.2)
                           (zip diagonals offsets)))
    else None
  else None.

(** [scipy.sparse.eye(m)] *)
Definition eye (m : nat) : spmatrix :=
  SpMatrix (m, m) (map (λ i, (i, i, 1%R)) (seq 0 m)).

(** [scipy.sparse.kron(A, B)]: block [(i, j)] of the result is
    [A[i, j] * B]. *)
Definition kron (A B : spmatrix) : spmatrix :=
  let '(rA, cA) := sp_shape A in
  let '(rB, cB) := sp_shape B in
  SpMatrix (rA * rB, cA * cB)
    (flat_map (λ a : entry,
       map (λ b : entry,
              (a.1.1 * rB + b.1.1, a.1.2 * cB + b.1.2, (a.2 * b.2)%R))
           (sp_entries B))
       (sp_entries A)).

(** [A + B] on sparse matrices; raises on inconsistent shapes. *)
Definition sp_add (A B : spmatrix) : option spmatrix :=
  if decide (sp_shape A = sp_shape B)
  then Some (SpMatrix (sp_shape A) (sp_entries A ++ sp_entries B))
  else None.

(** A JAX [BCOO] matrix: [indices] has one [(row, col)] pair per stored
    element of [data]. *)
Record BCOO := MkBCOO {
  data : Vector;
  indices : list (nat * nat);
  shape : nat * nat
}.

(** [js.BCOO.from_scipy_sparse] *)
Definition from_scipy_sparse (A : spmatrix) : BCOO :=
  MkBCOO (map snd (sp_entries A)) (map fst (sp_entries A)) (sp_shape A).

(** The stored elements of a [BCOO] as coordinate entries. *)
Definition bcoo_entries (M : BCOO) : list entry := zip (indices M) (data M).

Definition bcoo_get (M : BCOO) (i j : nat) : R := entries_get (bcoo_entries M) i j.

(** [indices] and [data] describe the same number of stored elements. *)
Definition bcoo_wf (M : BCOO) : Prop := length (indices M) = length (data M).

(** ** The notebook's functions *)

(** [poisson(n, m)] *)
Definition poisson (n m : nat) : option BCOO :=
  lap_1d_n ← diags [-1; 2; -1]%R [-1; 0; 1]%Z (n, n);
  lap_1d_m ← diags [-1; 2; -1]%R [-1; 0; 1]%Z (m, m);
  lap_2d ← sp_add (kron (eye m) lap_1d_n) (kron lap_1d_m (eye n));
  Some (from_scipy_sparse lap_2d).

(** [get_diagonal(matrix)] *)
Definition get_diagonal (matrix : BCOO) : Vector :=
  let is_diag := map (λ rc : nat * nat, bool_decide (rc.1 = rc.2)) (indices matrix) in
  let diag_values := jnp_where is_diag (data matrix) 0 in
  let diag := jnp_zeros (shape matrix).1 in
  at_add diag (map fst (indices matrix)) diag_values.

(** Elementwise [x / y] on arrays.  A quotient by zero is not a real
    number (IEEE arithmetic yields an infinity or a NaN there); it is
    [None]. *)
Definition divide (x y : Vector) : list (option R) :=
  zip_with (λ a d, if decide (d = 0%R) then None else Some (a / d)%R) x y.

(** The function wrapped by the notebook's preconditioner,
    [lambda x: x / jacobi]. *)
Definition preconditioner_fn (jacobi x : Vector) : list (option R) :=
  divide x jacobi.

(** [self.matrix @ vector] for a [BCOO] matrix: every stored element
    [(i, j, v)] contributes [v * vector[j]] to component [i]. *)
Definition bcoo_matvec (M : BCOO) (vector : Vector) : Vector :=
  at_add (jnp_zeros (shape M).1) (map fst (indices M))
         (zip_with (λ (rc : nat * nat) v, (v * default 0 (vector !! rc.2))%R)
                   (indices M) (data M)).

(** ** Linear operators and their tags *)

Inductive tag := symmetric_tag | positive_semidefinite_tag.

Global Instance tag_eq_dec : EqDecision tag.
Proof. solve_decision. Defined.

(** The two operator classes the notebook instantiates.
    [SparseMatrixLinearOperator] subclasses [lx.MatrixLinearOperator]
    (a matrix and declared tags) and overrides [mv];
    [FunctionLinearOperator] wraps a function on arrays, whose result may
    hold components that are not real numbers. *)
Inductive operator_t :=
  | SparseMatrixLinearOperator (matrix : BCOO) (tags : list tag)
  | FunctionLinearOperator (fn : Vector → list (option R)) (in_structure : nat)
                           (tags : list tag).

(** [SparseMatrixLinearOperator.mv] and the call of a wrapped function. *)
Definition mv (op : operator_t) (vector : Vector) : list (option R) :=
  match op with
  | SparseMatrixLinearOperator matrix _ => Some <$> bcoo_matvec matrix vector
  | FunctionLinearOperator fn _ _ => fn vector
  end.

(** [op.tags], the tags declared at construction. *)
Definition operator_tags (op : operator_t) : list tag :=
  match op with
  | SparseMatrixLinearOperator _ tags => tags
  | FunctionLinearOperator _ _ tags => tags
  end.

(** [lx.is_positive_semidefinite] after the notebook's registration: the
    rule registered for [SparseMatrixLinearOperator] is [return True];
    a [FunctionLinearOperator] answers from its declared tags. *)
Definition is_positive_semidefinite (op : operator_t) : bool :=
  match op with
  | SparseMatrixLinearOperator _ _ => true
  | FunctionLinearOperator _ _ tags => bool_decide (positive_semidefinite_tag ∈ tags)
  end.

(** [operator = SparseMatrixLinearOperator(A)] *)
Definition operator (A : BCOO) : operator_t := SparseMatrixLinearOperator A [].

(** [jacobi = get_diagonal(A)] *)
Definition jacobi (A : BCOO) : Vector := get_diagonal A.

(** [preconditioner = lx.FunctionLinearOperator(lambda x: x / jacobi,
    in_structure, tags=[lx.positive_semidefinite_tag])] *)
Definition preconditioner (A : BCOO) (in_structure : nat) : operator_t :=
  FunctionLinearOperator (preconditioner_fn (jacobi A)) in_structure
                         [positive_semidefinite_tag].

(** ** Vector arithmetic *)

Definition vadd (u v : Vector) : Vector := zip_with Rplus u v.
Definition vsub (u v : Vector) : Vector := zip_with Rminus u v.
Definition vscale (c : R) (v : Vector) : Vector := map (Rmult c) v.
Definition dot (u v : Vector) : R := Rsum (zip_with Rmult u v).
Definition norm (v : Vector) : R := sqrt (dot v v).

(** [cs_1 * vs_1 + cs_2 * vs_2 + ...] in dimension [N]. *)
Definition lincomb (N : nat) (cs : Vector) (vs : list Vector) : Vector :=
  foldr vadd (jnp_zeros N) (zip_with vscale cs vs).

(** [error = jnp.linalg.norm(b - (A @ x))], the residual norm the
    notebook checks after each solve. *)
Definition error_norm (A : BCOO) (b x : Vector) : R :=
  norm (vsub b (bcoo_matvec A x)).

(** ** The solver core

    [lx.linear_solve] and [lx.GMRES] are imported by the notebook and are
    not among the sources; the definitions of this section follow the
    specification of the solver core (its sections 3, 4, 6 and 7), in
    exact arithmetic. *)

(** Modelled from the spec: the error taxonomy of section 7; the library
    code raising them is missing.  [Breakdown] and [MaxStepsReached] are
    statuses, not errors. *)
Inductive error := DimensionMismatch | InvalidConfiguration.

Global Instance error_bind : MBind (sum error) := λ _ _ f x,
  match x with inl e => inl e | inr a => f a end.

(** Modelled from the spec: the terminal states of the solver's state
    machine (section 4.2), missing with the library's solver. *)
Inductive status := CONVERGED | MAX_STEPS_REACHED | BREAKDOWN.

Global Instance status_eq_dec : EqDecision status.
Proof. solve_decision. Defined.

(** Modelled from the spec: the [LinearOperator] abstraction of sections
    3 and 4.1 (lineax's operator classes are missing): a shape, a pure
    function on vectors and a set of declared, unverified tags. *)
Record LinearOperator := MkOperator {
  op_shape : nat * nat;
  op_fn : Vector → Vector;
  op_tags : list tag
}.

(** Modelled from the spec: [apply] of section 4.1, missing with the
    library; a vector that does not conform to the declared input
    dimension fails with [DimensionMismatch]. *)
Definition apply (A : LinearOperator) (v : Vector) : error + Vector :=
  if decide (length v = (op_shape A).2) then inr (op_fn A v)
  else inl DimensionMismatch.

(** Modelled from the spec: [SolveResult] of section 3, missing with the
    library's solution type. *)
Record SolveResult := MkResult {
  solution : Vector;
  converged : bool;
  iterations : nat;
  residual_norm : R;
  result_status : status
}.

(** Modelled from the spec: the solver's configuration (section 6); the
    library's [GMRES] class is missing. *)
Record GMRESSolver := MkGMRES {
  atol : R;
  rtol : R;
  max_steps : nat
}.

(** Modelled from the spec: construction of the solver (missing with the
    library), which rejects a non-positive [max_steps] and negative
    tolerances with [InvalidConfiguration] (section 7). *)
Definition GMRES (atol rtol : R) (max_steps : nat) : error + GMRESSolver :=
  if decide (max_steps = 0) then inl InvalidConfiguration
  else if Rlt_dec atol 0 then inl InvalidConfiguration
  else if Rlt_dec rtol 0 then inl InvalidConfiguration
  else inr (MkGMRES atol rtol max_steps).

(** Modelled from the spec: the declared side of a preconditioner
    (sections 4.2 and 6); the library code is missing. *)
Inductive side := Left | Right.

(** Modelled from the spec: the inputs of a solve (section 6), missing
    with the library's [linear_solve]: operator, right-hand side,
    optional warm start, solver, optional preconditioner with its side. *)
Record problem := MkProblem {
  sys_operator : LinearOperator;
  sys_rhs : Vector;
  warm_start : option Vector;
  sys_solver : GMRESSolver;
  sys_preconditioner : option (LinearOperator * side)
}.

(** Modelled from the spec: the dimension [N] shared by all vectors of a
    solve (section 3), read off the operator's shape; the library code is
    missing. *)
Definition dimension (p : problem) : nat := (op_shape (sys_operator p)).1.

(** Modelled from the spec: "x0 defaults to the zero vector unless a
    caller supplies a warm start" (section 4.2, step 1); the library code
    is missing. *)
Definition start (p : problem) : Vector :=
  default (jnp_zeros (dimension p)) (warm_start p).

(** Modelled from the spec: the convergence threshold
    [atol + rtol * ||b||] of section 4.2; the library code is missing. *)
Definition tolerance (p : problem) : R :=
  (atol (sys_solver p) + rtol (sys_solver p) * norm (sys_rhs p))%R.

(** Modelled from the spec: the preconditioning semantics of section 4.2
    (missing with the library's solver): a left preconditioner acts on
    residuals, [M A x = M b]; a right one on the unknown, [A M y = b],
    [x = M y]. *)
Definition precondition_left (p : problem) (v : Vector) : error + Vector :=
  match sys_preconditioner p with
  | Some (M, Left) => apply M v
  | _ => inr v
  end.

(** Modelled from the spec: right preconditioning (section 4.2),
    missing with the library's solver; see [precondition_left]. *)
Definition precondition_right (p : problem) (v : Vector) : error + Vector :=
  match sys_preconditioner p with
  | Some (M, Right) => apply M v
  | _ => inr v
  end.

(** Modelled from the spec: the "(optionally preconditioned) operator"
    applied in each Arnoldi step (section 4.2, step 2); the library code
    is missing. *)
Definition effective_apply (p : problem) (v : Vector) : error + Vector :=
  u ← precondition_right p v;
  w ← apply (sys_operator p) u;
  precondition_left p w.

(** Modelled from the spec: the per-solve working set of section 3
    (Krylov basis), the recorded Hessenberg coefficients and the state of
    the incremental least-squares solve (section 4.2, steps 2 and 3); the
    library's solver state is missing.  Matrices are lists of columns. *)
Record krylov := MkKrylov {
  basis : list Vector;
  hessenberg : list Vector;
  rotations : list (R * R);
  triangular : list Vector;
  rhs : Vector
}.

(** Modelled from the spec: the initial residual [r0 = b - A(x0)] of
    section 4.2, step 1 (library code missing); with a left
    preconditioner [M] the effective residual is [M(r0)]. *)
Definition initial_residual (p : problem) : error + Vector :=
  Ax0 ← apply (sys_operator p) (start p);
  precondition_left p (vsub (sys_rhs p) Ax0).

(** Modelled from the spec: INIT (section 4.2, step 1), missing with the
    library's solver: the operator must be square and the right-hand
    side must have its dimension; then the norm [beta] of the initial
    residual and the first basis vector are computed. *)
Definition init (p : problem) : error + (R * krylov) :=
  let N := dimension p in
  if decide (op_shape (sys_operator p) = (N, N) ∧ length (sys_rhs p) = N) then
    r0 ← initial_residual p;
    let beta := norm r0 in
    inr (beta, MkKrylov [vscale (/ beta) r0] [] [] [] [beta])
  else inl DimensionMismatch.

(** Modelled from the spec: modified Gram-Schmidt (section 4.2, step 2),
    missing with the library's solver: [w] is orthogonalized against the
    basis vectors one after the other; returns the coefficients and the
    remainder. *)
Fixpoint mgs (qs : list Vector) (w : Vector) : Vector * Vector :=
  match qs with
  | [] => ([], w)
  | q :: qs' =>
      let h := dot w q in
      let '(hs, w') := mgs qs' (vsub w (vscale h q)) in
      (h :: hs, w')
  end.

(** Modelled from the spec: one step of the Arnoldi process (section 4.2,
    step 2), missing with the library's solver: the new Hessenberg
    column, whose last coefficient is the norm of the remainder, and the
    remainder before normalization. *)
Definition arnoldi (p : problem) (qs : list Vector) : error + (Vector * Vector) :=
  w0 ← effective_apply p (default [] (last qs));
  let '(hs, w) := mgs qs w0 in
  inr (hs ++ [norm w], w).

(** Modelled from the spec: the Givens rotation that annihilates [b]
    against [a] (section 4.2, step 3: "incrementally, via Givens
    rotations"); the library code is missing.  For [a = b = 0] every
    rotation does; the one taken then moves the pending right-hand side
    entry to the residual position, so that the last entry of the
    right-hand side stays the residual norm of the least-squares
    problem. *)
Definition givens (a b : R) : R * R :=
  let rho := sqrt (a * a + b * b) in
  if decide (rho = 0%R) then (0, 1)%R else (a / rho, b / rho)%R.

(** Modelled from the spec: the incremental triangularization of section
    4.2, step 3 (library code missing): the earlier rotations are applied
    to the new Hessenberg column, then a new rotation annihilates its
    last coefficient.  Returns the column of the triangular factor and
    the new rotation. *)
Fixpoint rotate_column (rots : list (R * R)) (col : Vector) : Vector * (R * R) :=
  match rots, col with
  | (c, s) :: rots', a :: b :: col' =>
      let '(r, cs) := rotate_column rots' ((- s * a + c * b)%R :: col') in
      ((c * a + s * b)%R :: r, cs)
  | [], [a; b] =>
      let cs := givens a b in
      ([(cs.1 * a + cs.2 * b)%R], cs)
  | _, _ => (col, (1, 0)%R)
  end.

(** Modelled from the spec: the same rotation applied to the right-hand
    side of the least-squares problem (section 4.2, step 3; library code
    missing); its new last entry is the signed residual norm. *)
Fixpoint rotate_rhs (cs : R * R) (g : Vector) : Vector :=
  match g with
  | [] => []
  | [a] => [cs.1 * a; - cs.2 * a]%R
  | x :: g' => x :: rotate_rhs cs g'
  end.

(** Modelled from the spec: "derive the current residual norm without
    explicitly forming the candidate solution" (section 4.2, step 3);
    the library code is missing. *)
Definition residual (w : krylov) : R := Rabs (default 0%R (last (rhs w))).

(** Modelled from the spec: one iteration (section 4.2, steps 2, 3 and
    6), missing with the library's solver: Arnoldi step, update of the
    least-squares problem, and detection of a breakdown, which is a
    remainder of zero norm in exact arithmetic; the new basis vector
    is the normalized remainder. *)
Definition arnoldi_step (p : problem) (w : krylov) : error + (krylov * bool) :=
  '(col, v) ← arnoldi p (basis w);
  let h := norm v in
  let '(rcol, cs) := rotate_column (rotations w) col in
  let breakdown := bool_decide (h = 0%R) in
  inr (MkKrylov (if breakdown then basis w else basis w ++ [vscale (/ h) v])
                (hessenberg w ++ [col])
                (rotations w ++ [cs])
                (triangular w ++ [rcol])
                (rotate_rhs cs (rhs w)),
       breakdown).

(** Modelled from the spec: back-substitution (section 4.2, step 7;
    library code missing) for the upper triangular system whose columns
    are given last column first. *)
Fixpoint back_substitute (cols_rev : list Vector) (g : Vector) : Vector :=
  match cols_rev with
  | [] => []
  | col :: cols' =>
      let k := length cols' in
      let y := (default 0 (g !! k) / default 0 (col !! k))%R in
      back_substitute cols' (vsub (take k g) (vscale y (take k col))) ++ [y]
  end.

(** Modelled from the spec: reconstruction of the solution (section 4.2,
    step 7), missing with the library's solver: the coefficients against
    the basis, mapped back by a right preconditioner. *)
Definition candidate (p : problem) (w : krylov) : error + Vector :=
  let k := length (triangular w) in
  let y := back_substitute (rev (triangular w)) (take k (rhs w)) in
  z ← precondition_right p (lincomb (dimension p) y (basis w));
  inr (vadd (start p) z).

(** Modelled from the spec: the result returned on a terminal state
    (sections 3 and 4.2, step 7); the library code is missing. *)
Definition result (p : problem) (st : status) (w : krylov) (k : nat)
  : error + SolveResult :=
  x ← candidate p w;
  inr (MkResult x (bool_decide (st = CONVERGED)) k (residual w) st).

(** Modelled from the spec: ITERATING and its transitions (section 4.2,
    steps 4 to 6), missing with the library's solver.  [k] iterations are
    done and [remaining] are left of the budget [max_steps]. *)
Fixpoint iterate (p : problem) (remaining k : nat) (w : krylov)
  : error + SolveResult :=
  match remaining with
  | 0 => result p MAX_STEPS_REACHED w k
  | S remaining' =>
      '(w', breakdown) ← arnoldi_step p w;
      if Rle_dec (residual w') (tolerance p) then result p CONVERGED w' (S k)
      else if breakdown : bool then result p BREAKDOWN w' (S k)
      else iterate p remaining' (S k) w'
  end.

(** Modelled from the spec: the solve (section 4.2), missing with the
    library's [linear_solve]: INIT, the zero-iteration exit when the
    initial residual meets the tolerance, then ITERATING.  Errors are
    raised ([inl]); every terminal state is returned as a result. *)
Definition solve (p : problem) : error + SolveResult :=
  '(beta, w) ← init p;
  if Rle_dec beta (tolerance p)
  then inr (MkResult (start p) true 0 beta CONVERGED)
  else iterate p (max_steps (sys_solver p)) 0 w.

(** Modelled from the spec: the iterations of section 4.2 without the
    stopping tests of steps 4 and 5 (library code missing): the working
    set after [k] iterations, fewer on a breakdown. *)
Fixpoint arnoldi_run (p : problem) (k : nat) (w : krylov) : error + krylov :=
  match k with
  | 0 => inr w
  | S k' =>
      '(w', breakdown) ← arnoldi_step p w;
      if breakdown : bool then inr w' else arnoldi_run p k' w'
  end.

(** Modelled from the spec: the [k]-th GMRES iterate, that is the
    candidate solution (section 4.2, step 7) of the working set after [k]
    iterations; the library code is missing. *)
Definition gmres_iterate (p : problem) (k : nat) : error + Vector :=
  '(_, w) ← init p;
  w' ← arnoldi_run p k w;
  candidate p w'.

(** The generators [r, A r, A (A r), ...] of the Krylov subspace. *)
Fixpoint krylov_vector (A : Vector → Vector) (r : Vector) (k : nat) : Vector :=
  match k with
  | 0 => r
  | S k' => A (krylov_vector A r k')
  end.

(** ** The notebook's operators as solver operators *)

(** [L] is the linear operator on real vectors computed by [op]. *)
Definition realises (op : operator_t) (L : LinearOperator) : Prop :=
  ∀ x, length x = (op_shape L).2 → mv op x = Some <$> op_fn L x.

(** The operator of a sparse matrix. *)
Definition sparse_operator (M : BCOO) (tags : list tag) : LinearOperator :=
  MkOperator (shape M) (bcoo_matvec M) tags.

(** The scalar operator [c * identity] in dimension [N]. *)
Definition scalar_operator (N : nat) (c : R) (tags : list tag) : LinearOperator :=
  MkOperator (N, N) (vscale c) tags.

(** ** Contracts of the solver's inputs *)

(** Modelled from the spec: the contract of a square [LinearOperator]
    (sections 3 and 4.1; library code missing): it maps vectors of
    dimension [N] to vectors of dimension [N]. *)
Definition conforming (N : nat) (L : LinearOperator) : Prop :=
  op_shape L = (N, N) ∧ ∀ v, length v = N → length (op_fn L v) = N.

(** Modelled from the spec: a [LinearOperator] is a linear map on
    vectors of dimension [N] (section 3; library code missing). *)
Definition linear (N : nat) (L : LinearOperator) : Prop :=
  conforming N L
  ∧ (∀ u v, length u = N → length v = N →
       op_fn L (vadd u v) = vadd (op_fn L u) (op_fn L v))
  ∧ (∀ c v, length v = N → op_fn L (vscale c v) = vscale c (op_fn L v)).

(** Modelled from the spec: "all vectors in a solve share one
    dimensionality N" (section 3; library code missing): operator,
    right-hand side, warm start and preconditioner agree on it. *)
Definition well_formed (p : problem) : Prop :=
  let N := dimension p in
  conforming N (sys_operator p)
  ∧ length (sys_rhs p) = N
  ∧ (∀ x, warm_start p = Some x → length x = N)
  ∧ (∀ M s, sys_preconditioner p = Some (M, s) → conforming N M).

(** The working set holds at least one basis vector, all of dimension
    [N]. *)
Definition basis_ok (N : nat) (w : krylov) : Prop :=
  Forall (λ q, length q = N) (basis w) ∧ basis w ≠ [].

(** What a returned result tells, for a solve continued with [k]
    iterations done and [remaining] left. *)
Definition outcome_ok (p : problem) (k remaining : nat) (r : SolveResult) : Prop :=
  length (solution r) = dimension p
  ∧ (k ≤ iterations r ≤ k + remaining)%nat
  ∧ (converged r = true ↔ result_status r = CONVERGED)
  ∧ (result_status r = CONVERGED ↔ (residual_norm r <= tolerance p)%R)
  ∧ (result_status r = MAX_STEPS_REACHED → iterations r = (k + remaining)%nat).

(** The same problem solved with the preconditioner [M] on side [s]. *)
Definition with_preconditioner (p : problem) (M : LinearOperator) (s : side) : problem :=
  MkProblem (sys_operator p) (sys_rhs p) (warm_start p) (sys_solver p) (Some (M, s)).

(** Two working sets that differ by scale factors only: the Hessenberg
    and triangular columns by [c], the right-hand side by [d]. *)
Definition scaled (c d : R) (w w' : krylov) : Prop :=
  basis w' = basis w
  ∧ hessenberg w' = map (vscale c) (hessenberg w)
  ∧ rotations w' = rotations w
  ∧ triangular w' = map (vscale c) (triangular w)
  ∧ rhs w' = vscale d (rhs w).

(** ** Notions used to analyse the Arnoldi process *)

(** The vectors are pairwise orthogonal and of norm one. *)
Fixpoint orthonormal (vs : list Vector) : Prop :=
  match vs with
  | [] => True
  | v :: vs' => dot v v = 1%R ∧ Forall (λ u, dot v u = 0%R) vs' ∧ orthonormal vs'
  end.

(** The linear span of [vs] in dimension [N]. *)
Inductive span (N : nat) (vs : list Vector) : Vector → Prop :=
  | span_zero : span N vs (jnp_zeros N)
  | span_elem v : v ∈ vs → span N vs v
  | span_add u v : span N vs u → span N vs v → span N vs (vadd u v)
  | span_scale c v : span N vs v → span N vs (vscale c v).

(** The [j]-th vector of the standard basis in dimension [N]. *)
Definition unit_vector (N j : nat) : Vector := <[j := 1%R]> (jnp_zeros N).

(** The operator is self-adjoint, and its quadratic form is positive on
    non-zero vectors. *)
Definition symmetric (N : nat) (L : LinearOperator) : Prop :=
  ∀ u v, length u = N → length v = N → dot (op_fn L u) v = dot u (op_fn L v).

Definition positive_definite (N : nat) (L : LinearOperator) : Prop :=
  ∀ v, length v = N → v ≠ jnp_zeros N → (0 < dot v (op_fn L v))%R.

(** The operator of a dense matrix given by its rows
    ([lx.MatrixLinearOperator]): the matrix-vector product. *)
Definition dense_operator (matrix : list Vector) (tags : list tag) : LinearOperator :=
  MkOperator (length matrix, length (default [] (head matrix)))
             (λ v, map (λ row, dot row v) matrix) tags.

(** The rotations of the least-squares solve, read as a change of
    basis: starting from [t] and the basis vectors [qs], rotation [i]
    mixes the pending vector with the next basis vector.  Returns the
    rotated vectors and the pending one. *)
Fixpoint rotate_basis (rots : list (R * R)) (t : Vector) (qs : list Vector)
  : list Vector * Vector :=
  match rots, qs with
  | (c, s) :: rots', q :: qs' =>
      let '(P, t') := rotate_basis rots' (vadd (vscale (- s) t) (vscale c q)) qs' in
      (vadd (vscale c t) (vscale s q) :: P, t')
  | _, _ => ([], t)
  end.


(** A rotation: [c^2 + s^2 = 1]. *)
Definition normalized (cs : R * R) : Prop := (cs.1 * cs.1 + cs.2 * cs.2 = 1)%R.

(** The rotated basis of a working set, and its pending vector.  After a
    breakdown no new basis vector exists; the zero vector stands for it. *)
Definition ghost_basis (N : nat) (w : krylov) : list Vector * Vector :=
  match basis w with
  | [] => ([], [])
  | q1 :: qs => rotate_basis (rotations w) q1 (qs ++ [jnp_zeros N])
  end.

(** The least-squares part of the working set describes the operator
    [A] and the initial residual [r0] in the rotated basis: column [j] of
    the triangular factor holds the coordinates of [A q_j], the
    right-hand side those of [r0]. *)
Definition lsq_inv (N : nat) (A : Vector → Vector) (r0 : Vector) (w : krylov) : Prop :=
  let m := length (triangular w) in
  Forall (λ q, length q = N) (basis w)
  ∧ basis w ≠ []
  ∧ length (rotations w) = m
  ∧ Forall normalized (rotations w)
  ∧ length (rhs w) = S m
  ∧ m ≤ length (basis w)
  ∧ Forall2 (λ q col, A q = lincomb N col (ghost_basis N w).1)
            (take m (basis w)) (triangular w)
  ∧ (∀ j col, triangular w !! j = Some col →
       length col = S j ∧ default 0%R (col !! j) ≠ 0%R)
  ∧ r0 = lincomb N (rhs w) ((ghost_basis N w).1 ++ [(ghost_basis N w).2]).

(** The Arnoldi part of a working set that has not broken down: one more
    basis vector than columns, an orthonormal basis, and every rotated
    vector is the image of a combination of the basis vectors that have
    been multiplied by the operator. *)
Definition arnoldi_inv (N : nat) (A : Vector → Vector) (w : krylov) : Prop :=
  let m := length (triangular w) in
  length (basis w) = S m
  ∧ orthonormal (basis w)
  ∧ Forall (λ pi, ∃ z, span N (take m (basis w)) z ∧ pi = A z) (ghost_basis N w).1.

(** ** Dense reference matrices

    The matrix the specification names for [poisson]: the Kronecker sum
    [kron(I_m, T_n) + kron(T_m, I_n)], written on dense matrices given by
    their elements (zero outside the shape). *)

Definition dense := nat → nat → R.

(** [T_k]: 2 on the main diagonal, -1 on the first sub- and
    super-diagonal. *)
Definition tridiag (k : nat) : dense := λ i j,
  if decide (i < k ∧ j < k) then
    if decide (i = j) then 2%R
    else if decide (i = S j ∨ j = S i) then (-1)%R else 0%R
  else 0%R.

(** [I_k] *)
Definition identity (k : nat) : dense := λ i j,
  if decide (i < k ∧ j < k ∧ i = j) then 1%R else 0%R.

(** [kron(A, B)] for [B] of shape [rB] x [cB]. *)
Definition kron_dense (rB cB : nat) (A B : dense) : dense := λ i j,
  (A (i / rB)%nat (j / cB)%nat * B (i mod rB)%nat (j mod cB)%nat)%R.

Definition laplacian_2d (n m : nat) : dense := λ i j,
  (kron_dense n n (identity m) (tridiag n) i j
   + kron_dense n n (tridiag m) (identity n) i j)%R.

(** Grid points [(a, b)] and [(a', b')] are neighbours: they differ by
    one step in exactly one direction. *)
Definition adjacent (a b a' b' : nat) : Prop :=
  (b = b' ∧ (a = S a' ∨ a' = S a)) ∨ (a = a' ∧ (b = S b' ∨ b' = S b)).

Global Instance adjacent_dec a b a' b' : Decision (adjacent a b a' b').
Proof. unfold adjacent. apply _. Defined.

(** The five-point stencil on an [n]-by-[m] grid, point [(a, b)] having
    index [b * n + a]: 4 on the diagonal, -1 between neighbours. *)
Definition five_point (a b a' b' : nat) : R :=
  if decide (a = a' ∧ b = b') then 4%R
  else if decide (adjacent a b a' b') then (-1)%R else 0%R.

(** Every stored index lies inside the shape. *)
Definition entries_in_range (rows cols : nat) (es : list entry) : Prop :=
  Forall (λ e : entry, e.1.1 < rows ∧ e.1.2 < cols) es.

(* ================================================================== *)
(** * Part II. Properties                                              *)
(* ================================================================== *)

Local Open Scope R_scope.

Ltac eval_arrays :=
  cbv -[Rplus Rminus Rmult Rdiv Ropp Rinv IZR sqrt Req_dec_T Rle_dec Rlt_dec Rabs].

(** ** Sums and scatter-add *)

Lemma Rsum_cons (x : R) (l : list R) : Rsum (x :: l) = x + Rsum l.
Proof. reflexivity. Qed.

Lemma Rsum_app (l1 l2 : list R) : Rsum (l1 ++ l2) = Rsum l1 + Rsum l2.
Proof. induction l1 as [|x l1 IH]; simpl; [lra | rewrite IH; lra]. Qed.

Lemma Rsum_zero (l : list R) : Forall (λ x, x = 0) l → Rsum l = 0.
Proof. induction 1 as [|x l Hx _ IH]; simpl; [done | lra]. Qed.

Lemma length_jnp_zeros n : length (jnp_zeros n) = n.
Proof. apply length_replicate. Qed.

Lemma lookup_jnp_zeros n i : (i < n)%nat → jnp_zeros n !! i = Some 0.
Proof. intros. by apply lookup_replicate_2. Qed.

Lemma length_at_add a idx vals : length (at_add a idx vals) = length a.
Proof.
  unfold at_add. revert a. induction (zip idx vals) as [|iv l IH]; intros a; simpl.
  - done.
  - rewrite IH. apply length_alter.
Qed.

Lemma at_add_lookup a idx vals i :
  at_add a idx vals !! i = (λ x, x + scattered idx vals i) <$> a !! i.
Proof.
  unfold at_add, scattered. revert a.
  induction (zip idx vals) as [|[k v] l IH]; intros a; cbn [foldl map fst snd]; rewrite ?Rsum_cons.
  - destruct (a !! i); simpl; [f_equal; lra | done].
  - rewrite IH, list_lookup_alter.
    destruct (decide (k = i)) as [->|]; destruct (a !! i); simpl; try done; f_equal; lra.
Qed.

(** ** [get_diagonal] *)

Lemma entries_get_nil i j : entries_get [] i j = 0.
Proof. reflexivity. Qed.

Lemma entries_get_cons e es i j :
  entries_get (e :: es) i j =
  (if decide (e.1 = (i, j)) then e.2 else 0) + entries_get es i j.
Proof. reflexivity. Qed.

Lemma entries_get_app es1 es2 i j :
  entries_get (es1 ++ es2) i j = entries_get es1 i j + entries_get es2 i j.
Proof. unfold entries_get. by rewrite map_app, Rsum_app. Qed.

(** The sum defining a matrix element ranges over exactly the stored
    values at that position. *)
Lemma entries_get_filter es i j :
  entries_get es i j = Rsum (map snd (filter (λ e : entry, e.1 = (i, j)) es)).
Proof.
  induction es as [|e es IH]; [done|].
  rewrite entries_get_cons, filter_cons.
  destruct (decide (e.1 = (i, j))); cbn [map]; rewrite ?Rsum_cons, IH; lra.
Qed.

Lemma length_get_diagonal matrix : length (get_diagonal matrix) = (shape matrix).1.
Proof. unfold get_diagonal. by rewrite length_at_add, length_jnp_zeros. Qed.

Lemma scattered_diag_values idx dat i :
  scattered (map fst idx)
            (jnp_where (map (λ rc : nat * nat, bool_decide (rc.1 = rc.2)) idx) dat 0) i
  = entries_get (zip idx dat) i i.
Proof.
  unfold scattered, jnp_where. revert dat.
  induction idx as [|[r c] idx IH]; intros [|v dat]; try done.
  cbn [map zip zip_with fst snd]. rewrite Rsum_cons, entries_get_cons.
  fold (zip (map fst idx)
            (zip_with (λ (c0 : bool) v0, if c0 then v0 else 0)
               (map (λ rc : nat * nat, bool_decide (rc.1 = rc.2)) idx) dat)).
  rewrite IH. f_equal. cbn [fst snd].
  repeat (case_decide || case_bool_decide); simplify_eq/=; done.
Qed.

Lemma get_diagonal_lookup matrix i :
  (i < (shape matrix).1)%nat →
  get_diagonal matrix !! i = Some (bcoo_get matrix i i).
Proof.
  intros Hi. unfold get_diagonal.
  rewrite at_add_lookup, lookup_jnp_zeros by done. cbn [fmap option_fmap option_map].
  rewrite scattered_diag_values. unfold bcoo_get, bcoo_entries. f_equal. lra.
Qed.

(** C3. For a square [N] x [N] matrix in coordinate format,
    [get_diagonal] returns a vector of length [N] whose [i]-th component
    is the sum of exactly the stored values whose index pair is [(i, i)];
    stored off-diagonal values do not occur in any component. *)
Theorem get_diagonal_spec (matrix : BCOO) (N : nat) :
  bcoo_wf matrix →
  shape matrix = (N, N) →
  length (get_diagonal matrix) = N ∧
  ∀ i, (i < N)%nat →
    get_diagonal matrix !! i =
    Some (Rsum (map snd (filter (λ e : entry, e.1 = (i, i)) (bcoo_entries matrix)))).
Proof.
  intros _ Hshape. split.
  - by rewrite length_get_diagonal, Hshape.
  - intros i Hi. rewrite get_diagonal_lookup by (by rewrite Hshape).
    unfold bcoo_get. by rewrite entries_get_filter.
Qed.

(** ** The scipy constructors denote the intended matrices *)

Lemma diag_entries_get_from s n cols v k i j :
  entries_get
    (omap (λ i, let j := (Z.of_nat i + k)%Z in
                if bool_decide (0 ≤ j < Z.of_nat cols)%Z
                then Some (i, Z.to_nat j, v) else None) (seq s n)) i j
  = if decide ((s ≤ i < s + n)%nat ∧ (j < cols)%nat ∧ Z.of_nat j = (Z.of_nat i + k)%Z)
    then v else 0.
Proof.
  revert s. induction n as [|n IH]; intros s.
  - cbn. case_decide; [lia | done].
  - cbn [seq omap list_omap].
    fold (omap (λ i0 : nat,
          if bool_decide (0 ≤ Z.of_nat i0 + k < Z.of_nat cols)%Z
          then Some (i0, Z.to_nat (Z.of_nat i0 + k), v)
          else None) (seq (S s) n)).
    pose proof (IH (S s)) as IH'. cbn zeta in IH'.
    case_bool_decide as Hb.
    + rewrite entries_get_cons, IH'. cbn [fst snd].
      repeat case_decide; simplify_eq; try lra; try lia.
      all: exfalso; match goal with H : ¬ _ |- _ => apply H end; try split; try lia; try (f_equal; lia).
    + rewrite IH'. repeat case_decide; try done; lia.
Qed.

Lemma diag_entries_get rows cols v k i j :
  entries_get (diag_entries rows cols v k) i j
  = if decide ((i < rows)%nat ∧ (j < cols)%nat ∧ Z.of_nat j = (Z.of_nat i + k)%Z)
    then v else 0.
Proof.
  unfold diag_entries. rewrite diag_entries_get_from.
  repeat case_decide; try done; lia.
Qed.

Lemma diag_entries_in_range rows cols v k :
  entries_in_range rows cols (diag_entries rows cols v k).
Proof.
  apply Forall_forall. intros e [i [Hi He]]%list_elem_of_omap.
  apply elem_of_seq in Hi. cbn zeta in He.
  case_bool_decide; simplify_eq. cbn. lia.
Qed.

Lemma eye_get_from s m i j :
  entries_get (map (λ i, (i, i, 1)) (seq s m)) i j
  = if decide ((s ≤ i < s + m)%nat ∧ i = j) then 1 else 0.
Proof.
  revert s. induction m as [|m IH]; intros s.
  - cbn. case_decide; [lia | done].
  - cbn [seq map]. rewrite entries_get_cons, IH. cbn [fst snd].
    repeat case_decide; simplify_eq; try lra; try lia.
    exfalso; match goal with H : ¬ _ |- _ => apply H end. f_equal; lia.
Qed.

Lemma eye_get m i j : sp_get (eye m) i j = identity m i j.
Proof.
  unfold sp_get, eye, identity. cbn [sp_entries]. rewrite eye_get_from.
  repeat case_decide; try done; lia.
Qed.

Lemma eye_in_range m : entries_in_range m m (sp_entries (eye m)).
Proof.
  apply Forall_forall. intros e [i [-> Hi]]%list_elem_of_fmap.
  apply elem_of_seq in Hi. cbn. lia.
Qed.

Lemma diags_tridiag n :
  (0 < n)%nat →
  ∃ A, diags [-1; 2; -1] [-1; 0; 1]%Z (n, n) = Some A
       ∧ sp_shape A = (n, n)
       ∧ entries_in_range n n (sp_entries A)
       ∧ ∀ i j, sp_get A i j = tridiag n i j.
Proof.
  intros Hn. eexists. split; [|split; [|split]].
  - unfold diags. rewrite bool_decide_true by done.
    cbn [forallb]. rewrite !bool_decide_true by lia. reflexivity.
  - reflexivity.
  - cbn [sp_entries flat_map zip zip_with fst snd]. rewrite app_nil_r.
    unfold entries_in_range. rewrite !Forall_app.
    repeat split; apply diag_entries_in_range.
  - intros i j. unfold sp_get, tridiag.
    cbn [sp_entries flat_map zip zip_with fst snd]. rewrite app_nil_r.
    rewrite !entries_get_app, !diag_entries_get.
    repeat case_decide; try lra; lia.
Qed.

(** An entry of a Kronecker product sits in block [(i / rB, j / cB)] at
    offset [(i mod rB, j mod cB)]. *)
Lemma kron_index (rB cB ar ac br bc i j : nat) :
  (br < rB)%nat → (bc < cB)%nat →
  (ar * rB + br, ac * cB + bc)%nat = (i, j)
  ↔ (ar, ac) = ((i / rB)%nat, (j / cB)%nat)
    ∧ (br, bc) = ((i mod rB)%nat, (j mod cB)%nat).
Proof.
  intros Hr Hc. split.
  - intros [= <- <-]. split; f_equal.
    + apply Nat.div_unique with br; lia.
    + apply Nat.div_unique with bc; lia.
    + apply Nat.mod_unique with ar; lia.
    + apply Nat.mod_unique with ac; lia.
  - intros [[= -> ->] [= -> ->]]. f_equal.
    + pose proof (Nat.div_mod_eq i rB). lia.
    + pose proof (Nat.div_mod_eq j cB). lia.
Qed.

Lemma kron_block_get rB cB (a : entry) (Bs : list entry) i j :
  entries_in_range rB cB Bs →
  entries_get
    (map (λ b : entry, ((a.1.1 * rB + b.1.1)%nat, (a.1.2 * cB + b.1.2)%nat, a.2 * b.2)) Bs) i j
  = (if decide (a.1 = ((i / rB)%nat, (j / cB)%nat)) then a.2 else 0)
    * entries_get Bs (i mod rB)%nat (j mod cB)%nat.
Proof.
  destruct a as [[ar ac] av]. cbn [fst snd].
  induction 1 as [|[[br bc] bv] Bs [Hr Hc] _ IH]; cbn [map fst snd] in *.
  - rewrite !entries_get_nil. lra.
  - rewrite !entries_get_cons, IH. cbn [fst snd].
    pose proof (kron_index rB cB ar ac br bc i j Hr Hc) as Hidx.
    repeat case_decide; try lra; tauto.
Qed.

Lemma kron_get A B i j :
  entries_in_range (sp_shape B).1 (sp_shape B).2 (sp_entries B) →
  sp_get (kron A B) i j
  = sp_get A (i / (sp_shape B).1)%nat (j / (sp_shape B).2)%nat
    * sp_get B (i mod (sp_shape B).1)%nat (j mod (sp_shape B).2)%nat.
Proof.
  destruct A as [[rA cA] As], B as [[rB cB] Bs]. cbn [sp_shape sp_entries fst snd].
  intros HB. unfold sp_get, kron. cbn [sp_shape sp_entries].
  induction As as [|a As IH]; cbn [flat_map].
  - rewrite !entries_get_nil. lra.
  - rewrite entries_get_app, entries_get_cons, IH.
    rewrite (kron_block_get rB cB a Bs i j HB). lra.
Qed.

Lemma kron_shape A B :
  sp_shape (kron A B)
  = ((sp_shape A).1 * (sp_shape B).1, (sp_shape A).2 * (sp_shape B).2)%nat.
Proof. by destruct A as [[??]?], B as [[??]?]. Qed.

Lemma kron_in_range A B :
  entries_in_range (sp_shape A).1 (sp_shape A).2 (sp_entries A) →
  entries_in_range (sp_shape B).1 (sp_shape B).2 (sp_entries B) →
  entries_in_range (sp_shape (kron A B)).1 (sp_shape (kron A B)).2
                   (sp_entries (kron A B)).
Proof.
  destruct A as [[rA cA] As], B as [[rB cB] Bs]. cbn [sp_shape sp_entries fst snd kron].
  intros HA HB. apply Forall_forall. intros e He.
  apply list_elem_of_In, in_flat_map in He as [a [Ha He]].
  apply (list_elem_of_In _ e), list_elem_of_fmap in He as [b [-> Hb]].
  apply (list_elem_of_In _ a) in Ha.
  pose proof (proj1 (Forall_forall _ _) HA a Ha) as [? ?].
  pose proof (proj1 (Forall_forall _ _) HB b Hb) as [? ?].
  cbn [fst snd]. split; nia.
Qed.

Lemma from_scipy_sparse_get A i j : bcoo_get (from_scipy_sparse A) i j = sp_get A i j.
Proof.
  unfold bcoo_get, bcoo_entries, from_scipy_sparse, sp_get. cbn [indices data].
  by rewrite zip_fst_snd.
Qed.

Lemma from_scipy_sparse_entries A : bcoo_entries (from_scipy_sparse A) = sp_entries A.
Proof. unfold bcoo_entries, from_scipy_sparse. cbn [indices data]. apply zip_fst_snd. Qed.

Lemma from_scipy_sparse_wf A : bcoo_wf (from_scipy_sparse A).
Proof. unfold bcoo_wf, from_scipy_sparse. cbn [indices data]. by rewrite !length_map. Qed.

(** ** [poisson] *)

Lemma poisson_denotation (n m : nat) :
  (0 < n)%nat → (0 < m)%nat →
  ∃ A, poisson n m = Some A
       ∧ shape A = ((n * m)%nat, (n * m)%nat)
       ∧ bcoo_wf A
       ∧ entries_in_range (n * m) (n * m) (bcoo_entries A)
       ∧ ∀ i j, bcoo_get A i j = laplacian_2d n m i j.
Proof.
  intros Hn Hm.
  destruct (diags_tridiag n Hn) as (Ln & HLn & HsLn & HrLn & HgLn).
  destruct (diags_tridiag m Hm) as (Lm & HLm & HsLm & HrLm & HgLm).
  pose proof (eye_in_range m) as Hem. pose proof (eye_in_range n) as Hen.
  assert (Hs1 : sp_shape (kron (eye m) Ln) = ((n * m)%nat, (n * m)%nat)).
  { rewrite kron_shape, HsLn. cbn. f_equal; lia. }
  assert (Hs2 : sp_shape (kron Lm (eye n)) = ((n * m)%nat, (n * m)%nat)).
  { rewrite kron_shape, HsLm. cbn. f_equal; lia. }
  assert (Hr1 : entries_in_range (n * m) (n * m) (sp_entries (kron (eye m) Ln))).
  { pose proof (kron_in_range (eye m) Ln) as H. rewrite Hs1, HsLn in H. by apply H. }
  assert (Hr2 : entries_in_range (n * m) (n * m) (sp_entries (kron Lm (eye n)))).
  { pose proof (kron_in_range Lm (eye n)) as H. rewrite Hs2, HsLm in H. by apply H. }
  exists (from_scipy_sparse
            (SpMatrix ((n * m)%nat, (n * m)%nat)
               (sp_entries (kron (eye m) Ln) ++ sp_entries (kron Lm (eye n))))).
  split; [|split; [|split; [|split]]].
  - unfold poisson. rewrite HLn, HLm. cbn [mbind option_bind].
    unfold sp_add. rewrite Hs1, Hs2, decide_True by done. reflexivity.
  - reflexivity.
  - apply from_scipy_sparse_wf.
  - rewrite from_scipy_sparse_entries. cbn [sp_entries].
    unfold entries_in_range. rewrite Forall_app. by split.
  - intros i j. rewrite from_scipy_sparse_get. unfold sp_get. cbn [sp_entries].
    rewrite entries_get_app.
    fold (sp_get (kron (eye m) Ln) i j). fold (sp_get (kron Lm (eye n)) i j).
    rewrite !kron_get by (rewrite ?HsLn; done).
    rewrite HsLn. cbn [sp_shape eye fst snd].
    rewrite !eye_get, HgLn, HgLm. reflexivity.
Qed.

(** On the diagonal the Kronecker sum is [1 * 2 + 2 * 1]. *)
Lemma laplacian_2d_diag n m i :
  (0 < n)%nat → (i < n * m)%nat → laplacian_2d n m i i = 4.
Proof.
  intros Hn Hi. unfold laplacian_2d, kron_dense, identity, tridiag.
  assert ((i / n < m)%nat) by (apply Nat.Div0.div_lt_upper_bound; lia).
  assert ((i mod n < n)%nat) by (apply Nat.mod_upper_bound; lia).
  repeat case_decide; try lra; lia.
Qed.

Lemma poisson_diagonal n m A :
  (0 < n)%nat → (0 < m)%nat → poisson n m = Some A →
  get_diagonal A = replicate (n * m) 4.
Proof.
  intros Hn Hm HA.
  destruct (poisson_denotation n m Hn Hm) as (A' & HA' & Hs & _ & _ & Hg).
  rewrite HA in HA'. injection HA' as <-.
  apply list_eq_same_length with (n * m)%nat.
  - by rewrite length_replicate.
  - by rewrite length_get_diagonal, Hs.
  - intros i x y Hi Hx Hy.
    rewrite get_diagonal_lookup in Hx by (by rewrite Hs).
    rewrite lookup_replicate_2 in Hy by done.
    rewrite Hg, laplacian_2d_diag in Hx by done. congruence.
Qed.

(** C4. For positive [n] and [m], [poisson n m] returns a square sparse
    matrix of shape [(n*m, n*m)] whose stored indices lie inside the
    shape and which denotes [kron(I_m, T_n) + kron(T_m, I_n)], where [T_k]
    is the tridiagonal matrix with 2 on the diagonal and -1 next to it. *)
Theorem poisson_is_kronecker_sum (n m : nat) :
  (0 < n)%nat → (0 < m)%nat →
  ∃ A, poisson n m = Some A
       ∧ shape A = ((n * m)%nat, (n * m)%nat)
       ∧ bcoo_wf A
       ∧ entries_in_range (n * m) (n * m) (bcoo_entries A)
       ∧ ∀ i j, bcoo_get A i j = laplacian_2d n m i j.
Proof. apply poisson_denotation. Qed.

Lemma poisson_is_kronecker_sum_witness :
  ∃ A, poisson 2 3 = Some A
       ∧ shape A = (6%nat, 6%nat)
       ∧ bcoo_wf A
       ∧ entries_in_range 6 6 (bcoo_entries A)
       ∧ ∀ i j, bcoo_get A i j = laplacian_2d 2 3 i j.
Proof. apply (poisson_is_kronecker_sum 2 3); lia. Defined.

(** ** The registered tag *)

(** C7. The positive-semidefinite rule registered for
    [SparseMatrixLinearOperator] answers [true] for every instance,
    whatever the wrapped matrix and the declared tags; in particular it
    does so for a matrix whose quadratic form is negative somewhere. *)
Theorem positive_semidefinite_tag_unconditional :
  (∀ matrix tags,
     is_positive_semidefinite (SparseMatrixLinearOperator matrix tags) = true)
  ∧ ∃ matrix x,
      dot x (bcoo_matvec matrix x) < 0
      ∧ is_positive_semidefinite (operator matrix) = true.
Proof.
  split; [done|].
  exists (MkBCOO [-1] [(0, 0)%nat] (1, 1)%nat), [1].
  split; [|done]. eval_arrays. lra.
Qed.

(** ** Division by the extracted diagonal *)

Lemma divide_lookup x y i a d :
  x !! i = Some a → y !! i = Some d →
  divide x y !! i = Some (if decide (d = 0) then None else Some (a / d)).
Proof.
  intros Hx Hy. unfold divide. rewrite lookup_zip_with, Hx, Hy. done.
Qed.

Lemma length_divide x y : length x = length y → length (divide x y) = length x.
Proof. intros H. unfold divide. rewrite length_zip_with. lia. Qed.

Lemma divide_total x y :
  length x = length y →
  Forall is_Some (divide x y) ↔ Forall (λ d, d ≠ 0) y.
Proof.
  revert y. induction x as [|a x IH]; intros [|d y] Hlen; simplify_eq/=.
  - split; constructor.
  - rewrite !Forall_cons, IH by done. case_decide; split.
    + intros [[? [=]] _].
    + intros [? _]. done.
    + intros [_ ?]. done.
    + intros [_ ?]. split; [by eexists | done].
Qed.

Lemma divide_scalar (x : Vector) (n : nat) (d : R) :
  d ≠ 0 → length x = n → divide x (replicate n d) = Some <$> vscale (/ d) x.
Proof.
  intros Hd <-. unfold divide, vscale. induction x as [|a x IH]; [done|].
  cbn [length replicate zip_with map fmap list_fmap]. rewrite decide_False by done.
  f_equal; [f_equal; unfold Rdiv; lra | exact IH].
Qed.

(** C6. The preconditioner divides elementwise by the extracted diagonal
    without any guard.  For a square matrix and a conforming vector, its
    output has a real value at every coordinate exactly when no diagonal
    element of the matrix is zero; at a coordinate whose diagonal element
    is zero - in particular one with no stored diagonal element - the
    output is not a real number, elsewhere it is the quotient. *)
Theorem preconditioner_division_unguarded (A : BCOO) (N : nat) (x : Vector) :
  shape A = (N, N) → length x = N →
  (Forall is_Some (mv (preconditioner A N) x)
   ↔ ∀ i, (i < N)%nat → bcoo_get A i i ≠ 0)
  ∧ (∀ i a, x !! i = Some a →
       mv (preconditioner A N) x !! i
       = Some (if decide (bcoo_get A i i = 0) then None
               else Some (a / bcoo_get A i i)))
  ∧ (∀ i, (i < N)%nat →
       filter (λ e : entry, e.1 = (i, i)) (bcoo_entries A) = [] →
       mv (preconditioner A N) x !! i = Some None).
Proof.
  intros Hshape Hx.
  assert (Hlen : length x = length (jacobi A)).
  { unfold jacobi. by rewrite length_get_diagonal, Hshape. }
  assert (Hjac : ∀ i, (i < N)%nat → jacobi A !! i = Some (bcoo_get A i i)).
  { intros i Hi. apply get_diagonal_lookup. by rewrite Hshape. }
  assert (Hcoord : ∀ i a, x !! i = Some a →
       mv (preconditioner A N) x !! i
       = Some (if decide (bcoo_get A i i = 0) then None
               else Some (a / bcoo_get A i i))).
  { intros i a Ha. cbn [mv preconditioner]. unfold preconditioner_fn.
    apply divide_lookup; [done|]. apply Hjac.
    rewrite <- Hx. by eapply lookup_lt_Some. }
  split; [|split].
  - cbn [mv preconditioner]. unfold preconditioner_fn.
    rewrite divide_total by done. rewrite Forall_lookup. split.
    + intros H i Hi. by apply (H i), Hjac.
    + intros H i d Hd. assert (Hi : (i < N)%nat).
      { apply lookup_lt_Some in Hd. rewrite <- Hx, Hlen. done. }
      rewrite Hjac in Hd by done. injection Hd as <-. by apply H.
  - exact Hcoord.
  - intros i Hi Hnone.
    destruct (lookup_lt_is_Some_2 x i) as [a Ha]; [lia|].
    rewrite (Hcoord i a Ha).
    unfold bcoo_get. rewrite entries_get_filter, Hnone. cbn.
    by rewrite decide_True.
Qed.

Lemma preconditioner_division_unguarded_witness :
  let A := MkBCOO [2; 5] [(0, 0); (0, 1)]%nat (2, 2)%nat in
  (Forall is_Some (mv (preconditioner A 2) [1; 1])
   ↔ ∀ i, (i < 2)%nat → bcoo_get A i i ≠ 0)
  ∧ (∀ i a, [1; 1] !! i = Some a →
       mv (preconditioner A 2) [1; 1] !! i
       = Some (if decide (bcoo_get A i i = 0) then None
               else Some (a / bcoo_get A i i)))
  ∧ (∀ i, (i < 2)%nat →
       filter (λ e : entry, e.1 = (i, i)) (bcoo_entries A) = [] →
       mv (preconditioner A 2) [1; 1] !! i = Some None).
Proof.
  intros A. apply (preconditioner_division_unguarded A 2 [1; 1]); reflexivity.
Defined.

(** ** Vectors: lengths *)

Lemma length_vadd u v : length (vadd u v) = (length u `min` length v)%nat.
Proof. apply length_zip_with. Qed.

Lemma length_vsub u v : length (vsub u v) = (length u `min` length v)%nat.
Proof. apply length_zip_with. Qed.

Lemma length_vscale c v : length (vscale c v) = length v.
Proof. apply length_map. Qed.

Lemma length_lincomb N cs vs :
  Forall (λ v, length v = N) vs → length (lincomb N cs vs) = N.
Proof.
  unfold lincomb. intros Hvs. revert cs.
  induction Hvs as [|v vs Hv _ IH]; intros [|c cs]; cbn [zip_with foldr];
    try apply length_jnp_zeros.
  rewrite length_vadd, length_vscale, IH. lia.
Qed.

(** ** The solver: dimension checks *)

Section solver_control.

Context (p : problem).
Local Abbreviation N := (dimension p).

Lemma apply_conforming L v :
  conforming N L → length v = N →
  apply L v = inr (op_fn L v) ∧ length (op_fn L v) = N.
Proof.
  intros [Hs Hf] Hv. unfold apply. rewrite Hs. cbn [snd].
  rewrite decide_True by done. auto.
Qed.

Lemma init_mismatch :
  length (sys_rhs p) ≠ N → init p = inl DimensionMismatch.
Proof. intros H. unfold init. rewrite decide_False; [done | tauto]. Qed.

Lemma solve_mismatch :
  length (sys_rhs p) ≠ N → solve p = inl DimensionMismatch.
Proof. intros H. unfold solve. by rewrite init_mismatch. Qed.

Lemma solve_converged_at_init r0 :
  op_shape (sys_operator p) = (N, N) → length (sys_rhs p) = N →
  initial_residual p = inr r0 →
  norm r0 <= tolerance p →
  solve p = inr (MkResult (start p) true 0 (norm r0) CONVERGED).
Proof.
  intros Hs Hb Hr Htol. unfold solve, init.
  rewrite decide_True, Hr by done. cbn.
  destruct (Rle_dec _ _); [done | contradiction].
Qed.

End solver_control.

(** C9. A right-hand side whose length differs from the operator's
    dimension makes INIT fail with [DimensionMismatch]: the solve raises
    that error instead of returning a result, and no GMRES iterate is
    ever computed. *)
Theorem dimension_mismatch_is_fatal (p : problem) :
  length (sys_rhs p) ≠ dimension p →
  init p = inl DimensionMismatch
  ∧ solve p = inl DimensionMismatch
  ∧ (∀ r, solve p ≠ inr r)
  ∧ (∀ k, gmres_iterate p k = inl DimensionMismatch).
Proof.
  intros H. pose proof (init_mismatch p H) as Hi.
  pose proof (solve_mismatch p H) as Hsolve.
  repeat split; try done.
  - intros r. by rewrite Hsolve.
  - intros k. unfold gmres_iterate. by rewrite Hi.
Qed.

Lemma dimension_mismatch_is_fatal_witness :
  let p := MkProblem (scalar_operator 1 2 []) [1; 1] None (MkGMRES 0 0 1) None in
  init p = inl DimensionMismatch
  ∧ solve p = inl DimensionMismatch
  ∧ (∀ r, solve p ≠ inr r)
  ∧ (∀ k, gmres_iterate p k = inl DimensionMismatch).
Proof. intros p. apply (dimension_mismatch_is_fatal p). cbn. lia. Defined.

(** ** Vectors: zero *)

Lemma vscale_zeros c n : vscale c (jnp_zeros n) = jnp_zeros n.
Proof.
  unfold vscale, jnp_zeros. induction n as [|n IH]; [done|].
  cbn [replicate map]. rewrite IH. f_equal. lra.
Qed.

Lemma vscale_0 v : vscale 0 v = jnp_zeros (length v).
Proof.
  unfold vscale, jnp_zeros. induction v as [|x v IH]; [done|].
  cbn [length replicate map]. rewrite IH. f_equal. lra.
Qed.

Lemma vsub_zeros n : vsub (jnp_zeros n) (jnp_zeros n) = jnp_zeros n.
Proof.
  unfold vsub, jnp_zeros. induction n as [|n IH]; [done|].
  cbn [replicate zip_with]. rewrite IH. f_equal. lra.
Qed.

Lemma dot_zeros_l n v : dot (jnp_zeros n) v = 0.
Proof.
  unfold dot, jnp_zeros. revert v. induction n as [|n IH]; intros [|x v]; try done.
  cbn [replicate zip_with]. rewrite Rsum_cons, IH. lra.
Qed.

Lemma norm_zeros n : norm (jnp_zeros n) = 0.
Proof. unfold norm. rewrite dot_zeros_l. apply sqrt_0. Qed.

Lemma norm_nonneg v : 0 <= norm v.
Proof. apply sqrt_pos. Qed.

Lemma linear_zeros N L : linear N L → op_fn L (jnp_zeros N) = jnp_zeros N.
Proof.
  intros ([_ Hlen] & _ & Hscale).
  pose proof (Hscale 0 (jnp_zeros N) (length_jnp_zeros N)) as H.
  rewrite vscale_zeros, vscale_0, Hlen in H by apply length_jnp_zeros. done.
Qed.

Lemma scalar_operator_linear N c tags : linear N (scalar_operator N c tags).
Proof.
  split; [split|split]; cbn [scalar_operator op_shape op_fn].
  - done.
  - intros v Hv. by rewrite length_vscale.
  - intros u v _ _. unfold vscale, vadd. revert v.
    induction u as [|a u IH]; intros [|b v]; try done.
    cbn [zip_with map]. rewrite IH. f_equal. lra.
  - intros d v _. unfold vscale. rewrite <- !list_fmap_compose.
    apply list_fmap_ext. intros _ x _. cbn. lra.
Qed.

Lemma solve_zero_rhs (p : problem) :
  linear (dimension p) (sys_operator p) →
  (∀ M s, sys_preconditioner p = Some (M, s) → linear (dimension p) M) →
  0 <= atol (sys_solver p) → 0 <= rtol (sys_solver p) →
  sys_rhs p = jnp_zeros (dimension p) → warm_start p = None →
  solve p = inr (MkResult (jnp_zeros (dimension p)) true 0 0 CONVERGED).
Proof.
  intros HA HM Hatol Hrtol Hb Hx0.
  assert (Hstart : start p = jnp_zeros (dimension p)) by (unfold start; by rewrite Hx0).
  assert (Hr0 : initial_residual p = inr (jnp_zeros (dimension p))).
  { unfold initial_residual, apply. destruct HA as [[Hs ?] ?].
    rewrite Hstart, Hs, length_jnp_zeros. cbn [snd]. rewrite decide_True by done.
    cbn [mbind error_bind]. rewrite linear_zeros, Hb, vsub_zeros by done.
    unfold precondition_left.
    destruct (sys_preconditioner p) as [[M [|]]|] eqn:HMp; try done.
    destruct (HM M Left eq_refl) as [[HsM ?] ?].
    unfold apply. rewrite HsM, length_jnp_zeros. cbn [snd].
    rewrite decide_True by done. f_equal. by apply linear_zeros. }
  pose proof (solve_converged_at_init p (jnp_zeros (dimension p))) as H.
  rewrite norm_zeros, Hstart in H. apply H; try done.
  - apply HA.
  - by rewrite Hb, length_jnp_zeros.
  - unfold tolerance. pose proof (norm_nonneg (sys_rhs p)). nra.
Qed.

(** ** The solver: every terminal state is returned *)

Lemma mgs_length N qs w :
  Forall (λ q, length q = N) qs → length w = N → length (mgs qs w).2 = N.
Proof.
  intros Hqs. revert w. induction Hqs as [|q qs Hq _ IH]; intros w Hw; [done|].
  cbn [mgs]. destruct (mgs qs (vsub w (vscale (dot w q) q))) as [hs w'] eqn:E.
  cbn [snd]. change w' with ((hs, w').2). rewrite <- E. apply IH.
  rewrite length_vsub, length_vscale. lia.
Qed.

Lemma length_start p : well_formed p → length (start p) = dimension p.
Proof.
  intros (_ & _ & Hx & _). unfold start.
  destruct (warm_start p) as [x|]; [by apply Hx | apply length_jnp_zeros].
Qed.

Section solver_total.

Context (p : problem) (Hwf : well_formed p).
Local Abbreviation N := (dimension p).

Lemma precondition_left_ok v :
  length v = N → ∃ u, precondition_left p v = inr u ∧ length u = N.
Proof using Hwf.
  intros Hv. unfold precondition_left. destruct Hwf as (_ & _ & _ & HM).
  destruct (sys_preconditioner p) as [[M [|]]|]; eauto.
  destruct (apply_conforming p M v) as [-> ?]; eauto.
Qed.

Lemma precondition_right_ok v :
  length v = N → ∃ u, precondition_right p v = inr u ∧ length u = N.
Proof using Hwf.
  intros Hv. unfold precondition_right. destruct Hwf as (_ & _ & _ & HM).
  destruct (sys_preconditioner p) as [[M [|]]|]; eauto.
  destruct (apply_conforming p M v) as [-> ?]; eauto.
Qed.

Lemma effective_apply_ok v :
  length v = N → ∃ u, effective_apply p v = inr u ∧ length u = N.
Proof using Hwf.
  intros Hv. unfold effective_apply.
  destruct (precondition_right_ok v Hv) as (u & -> & Hu). cbn [mbind error_bind].
  destruct (apply_conforming p (sys_operator p) u) as [-> Hw]; [apply Hwf | done |].
  cbn [mbind error_bind]. by apply precondition_left_ok.
Qed.

Lemma initial_residual_ok :
  ∃ r0, initial_residual p = inr r0 ∧ length r0 = N.
Proof using Hwf.
  unfold initial_residual.
  destruct (apply_conforming p (sys_operator p) (start p)) as [-> Hw];
    [apply Hwf | by apply length_start |].
  cbn [mbind error_bind]. apply precondition_left_ok.
  rewrite length_vsub, Hw. destruct Hwf as (_ & -> & _). lia.
Qed.

Lemma init_ok :
  ∃ r0, initial_residual p = inr r0 ∧ length r0 = N
        ∧ init p = inr (norm r0, MkKrylov [vscale (/ norm r0) r0] [] [] [] [norm r0]).
Proof using Hwf.
  destruct initial_residual_ok as (r0 & Hr0 & Hlen). exists r0.
  split; [done|]. split; [done|]. unfold init.
  destruct Hwf as ([Hs _] & Hb & _). rewrite decide_True, Hr0 by done. done.
Qed.

Lemma last_basis_ok N w :
  basis_ok N w → length (default [] (last (basis w))) = N.
Proof.
  intros [Hall Hne]. destruct (last (basis w)) as [q|] eqn:E.
  - cbn. apply last_Some_elem_of in E. by apply (proj1 (Forall_forall _ _) Hall).
  - by apply last_None in E.
Qed.

Lemma arnoldi_step_ok w :
  basis_ok N w →
  ∃ w' bd, arnoldi_step p w = inr (w', bd) ∧ basis_ok N w'.
Proof using Hwf.
  intros Hok. unfold arnoldi_step, arnoldi.
  destruct (effective_apply_ok _ (last_basis_ok N w Hok)) as (w0 & -> & Hw0).
  cbn [mbind error_bind].
  pose proof (mgs_length N (basis w) w0 (proj1 Hok) Hw0) as Hlen.
  destruct (mgs (basis w) w0) as [hs v]. cbn [snd] in Hlen. cbn [mbind error_bind].
  destruct (rotate_column (rotations w) (hs ++ [norm v])) as [rcol cs].
  eexists _, _. split; [reflexivity|]. unfold basis_ok. cbn [basis].
  destruct Hok as [Hall Hne]. case_bool_decide; [done|]. split.
  - apply Forall_app. split; [done|]. constructor; [|done]. by rewrite length_vscale.
  - by intros [? _]%app_eq_nil.
Qed.

Lemma candidate_ok w :
  basis_ok N w → ∃ x, candidate p w = inr x ∧ length x = N.
Proof using Hwf.
  intros [Hall _]. unfold candidate.
  destruct (precondition_right_ok
              (lincomb N (back_substitute (rev (triangular w))
                            (take (length (triangular w)) (rhs w))) (basis w)))
    as (z & -> & Hz); [by apply length_lincomb|].
  cbn [mbind error_bind]. eexists. split; [done|].
  rewrite length_vadd, length_start, Hz by done. lia.
Qed.

Lemma result_ok st w k :
  basis_ok N w →
  ∃ x, candidate p w = inr x ∧ length x = N
       ∧ result p st w k = inr (MkResult x (bool_decide (st = CONVERGED)) k (residual w) st).
Proof using Hwf.
  intros Hok. destruct (candidate_ok w Hok) as (x & Hx & Hlen).
  exists x. unfold result. by rewrite Hx.
Qed.

Lemma iterate_ok remaining k w :
  basis_ok N w → tolerance p < residual w →
  ∃ r, iterate p remaining k w = inr r ∧ outcome_ok p k remaining r.
Proof using Hwf.
  revert k w. induction remaining as [|rem IH]; intros k w Hok Hres; cbn [iterate].
  - destruct (result_ok MAX_STEPS_REACHED w k Hok) as (x & _ & Hlen & ->).
    eexists. split; [reflexivity|]. unfold outcome_ok. cbn.
    repeat split; try done; try lia. intros ?; lra.
  - destruct (arnoldi_step_ok w Hok) as (w' & bd & -> & Hok'). cbn [mbind error_bind].
    destruct (Rle_dec (residual w') (tolerance p)) as [Hle|Hgt].
    + destruct (result_ok CONVERGED w' (S k) Hok') as (x & _ & Hlen & ->).
      eexists. split; [reflexivity|]. unfold outcome_ok. cbn.
      repeat split; try done; lia.
    + destruct bd.
      * destruct (result_ok BREAKDOWN w' (S k) Hok') as (x & _ & Hlen & ->).
        eexists. split; [reflexivity|]. unfold outcome_ok. cbn.
        repeat split; try done; try lia.
      * destruct (IH (S k) w' Hok') as (r & -> & Hr); [lra|].
        exists r. split; [done|]. unfold outcome_ok in *.
        destruct Hr as (? & ? & ? & ? & Hmax). repeat split; try tauto; try lia.
        intros Hst. rewrite (Hmax Hst). lia.
Qed.

Lemma solve_ok :
  ∃ r, solve p = inr r ∧ outcome_ok p 0 (max_steps (sys_solver p)) r.
Proof using Hwf.
  destruct init_ok as (r0 & Hr0 & Hlen & Hinit). unfold solve. rewrite Hinit.
  cbn [mbind error_bind].
  destruct (Rle_dec (norm r0) (tolerance p)) as [Hle|Hgt].
  - eexists. split; [reflexivity|]. unfold outcome_ok. cbn.
    rewrite length_start by done. repeat split; try done; lia.
  - apply iterate_ok.
    + split; [|done]. cbn. constructor; [|done]. by rewrite length_vscale.
    + unfold residual. cbn. rewrite Rabs_pos_eq by apply norm_nonneg. lra.
Qed.

End solver_total.

Lemma get_diagonal_spec_witness :
  let matrix := MkBCOO [2; 5; 3] [(0, 0); (0, 1); (0, 0)]%nat (2, 2)%nat in
  length (get_diagonal matrix) = 2%nat ∧
  ∀ i, (i < 2)%nat →
    get_diagonal matrix !! i =
    Some (Rsum (map snd (filter (λ e : entry, e.1 = (i, i)) (bcoo_entries matrix)))).
Proof. intros matrix. apply (get_diagonal_spec matrix 2); reflexivity. Defined.

(** ** Small concrete runs *)

Example get_diagonal_duplicates :
  get_diagonal (MkBCOO [2; 5; 3; 7] [(0, 0); (0, 1); (0, 0); (1, 1)]%nat (2, 2)%nat)
  = [0 + 2 + 0 + 3; 0 + 7].
Proof. reflexivity. Qed.

Example get_diagonal_out_of_bounds :
  get_diagonal (MkBCOO [2; 9] [(0, 0); (3, 3)]%nat (2, 2)%nat) = [0 + 2; 0].
Proof. reflexivity. Qed.

Example poisson_2_1_diagonal :
  ∃ A, poisson 2 1 = Some A ∧ shape A = (2, 2)%nat
       ∧ bcoo_get A 0 1 = -1 ∧ Forall (λ d, d = 4) (jacobi A).
Proof.
  eexists. split; [reflexivity|]. split; [reflexivity|]. split.
  - eval_arrays. repeat (destruct (decide _); try congruence; try lia). lra.
  - eval_arrays. repeat constructor; lra.
Qed.

Example divide_by_zero_diagonal :
  preconditioner_fn [0; 2] [1; 1] = [None; Some (1 / 2)].
Proof.
  eval_arrays. repeat (destruct (Req_dec_T _ _); try lra); reflexivity.
Qed.

(** ** Vectors: algebra *)

Lemma dot_nil_l v : dot [] v = 0.
Proof. reflexivity. Qed.

Lemma dot_cons a u b v : dot (a :: u) (b :: v) = a * b + dot u v.
Proof. reflexivity. Qed.

Lemma dot_comm u v : dot u v = dot v u.
Proof.
  revert v. induction u as [|a u IH]; intros [|b v]; try done.
  rewrite !dot_cons, IH. lra.
Qed.

Lemma dot_vscale_l c u v : dot (vscale c u) v = c * dot u v.
Proof.
  revert v. induction u as [|a u IH]; intros [|b v]; cbn [vscale map];
    rewrite ?dot_nil_l, ?dot_cons; try (unfold dot; cbn; lra).
  fold (vscale c u). rewrite IH. lra.
Qed.

Lemma dot_vscale_r c u v : dot u (vscale c v) = c * dot u v.
Proof. by rewrite dot_comm, dot_vscale_l, dot_comm. Qed.

Lemma dot_vadd_l u u' v :
  length u = length u' → dot (vadd u u') v = dot u v + dot u' v.
Proof.
  revert u' v. induction u as [|a u IH]; intros [|a' u'] [|b v] Hlen;
    simplify_eq/=; try (unfold dot; cbn; lra).
  fold (vadd u u'). rewrite !dot_cons, IH by done. lra.
Qed.

Lemma dot_vsub_l u u' v :
  length u = length u' → dot (vsub u u') v = dot u v - dot u' v.
Proof.
  revert u' v. induction u as [|a u IH]; intros [|a' u'] [|b v] Hlen;
    simplify_eq/=; try (unfold dot; cbn; lra).
  fold (vsub u u'). rewrite !dot_cons, IH by done. lra.
Qed.

Lemma dot_self_nonneg v : 0 <= dot v v.
Proof.
  induction v as [|a v IH]; [unfold dot; cbn; lra|].
  rewrite dot_cons. nra.
Qed.

Lemma vscale_vscale a c v : vscale a (vscale c v) = vscale (a * c) v.
Proof.
  unfold vscale. rewrite <- list_fmap_compose. apply list_fmap_ext.
  intros _ x _. cbn. lra.
Qed.

Lemma vscale_1 v : vscale 1 v = v.
Proof.
  unfold vscale. rewrite <- (list_fmap_id v) at 2. apply list_fmap_ext.
  intros _ x _. cbn. lra.
Qed.

Lemma vscale_ext a c v : a = c → vscale a v = vscale c v.
Proof. by intros ->. Qed.

Lemma vsub_vscale c u v : vsub (vscale c u) (vscale c v) = vscale c (vsub u v).
Proof.
  revert v. induction u as [|a u IH]; intros [|b v]; try done.
  cbn [vscale vsub map zip_with]. f_equal; [lra | apply IH].
Qed.

Lemma vadd_vscale c u v : vadd (vscale c u) (vscale c v) = vscale c (vadd u v).
Proof.
  revert v. induction u as [|a u IH]; intros [|b v]; try done.
  cbn [vscale vadd map zip_with]. f_equal; [lra | apply IH].
Qed.

Lemma norm_vscale c v : 0 <= c → norm (vscale c v) = c * norm v.
Proof.
  intros Hc. unfold norm. rewrite dot_vscale_l, dot_vscale_r.
  replace (c * (c * dot v v)) with (c * c * dot v v) by lra.
  rewrite sqrt_mult_alt by nra. by rewrite sqrt_square.
Qed.

Lemma take_vscale k c v : take k (vscale c v) = vscale c (take k v).
Proof. unfold vscale. by rewrite fmap_take. Qed.

Lemma lookup_vscale c v i : vscale c v !! i = Rmult c <$> v !! i.
Proof. apply list_lookup_fmap. Qed.

(** ** A scalar preconditioner does not change the GMRES iterates *)

Lemma mgs_vscale c qs w :
  mgs qs (vscale c w) = (vscale c (mgs qs w).1, vscale c (mgs qs w).2).
Proof.
  revert w. induction qs as [|q qs IH]; intros w; [done|].
  cbn [mgs]. rewrite dot_vscale_l.
  replace (vsub (vscale c w) (vscale (c * dot w q) q))
    with (vscale c (vsub w (vscale (dot w q) q)))
    by (by rewrite <- vsub_vscale, vscale_vscale).
  rewrite IH. destruct (mgs qs (vsub w (vscale (dot w q) q))) as [hs w']. done.
Qed.

Lemma givens_scale c a b : 0 < c → givens (c * a) (c * b) = givens a b.
Proof.
  intros Hc. unfold givens.
  replace (c * a * (c * a) + c * b * (c * b)) with (c * c * (a * a + b * b)) by lra.
  rewrite sqrt_mult_alt, sqrt_square by nra.
  set (rho := sqrt (a * a + b * b)).
  destruct (decide (rho = 0)) as [->|Hrho].
  - rewrite decide_True by lra. done.
  - rewrite decide_False by (intros [?|?]%Rmult_integral; lra). f_equal; field; lra.
Qed.

Lemma rotate_column_vscale c rots col :
  0 < c →
  rotate_column rots (vscale c col)
  = (vscale c (rotate_column rots col).1, (rotate_column rots col).2).
Proof.
  intros Hc. revert col. induction rots as [|[c0 s0] rots IH]; intros col.
  - destruct col as [|a [|b [|? ?]]]; try done.
    cbn [vscale map rotate_column]. rewrite givens_scale by done.
    cbn [fst snd map vscale]. do 3 f_equal. ring.
  - destruct col as [|a [|b col]]; try done.
    cbn [vscale map rotate_column]. fold (vscale c col).
    replace ((- s0 * (c * a) + c0 * (c * b)) :: vscale c col)
      with (vscale c ((- s0 * a + c0 * b) :: col))
      by (cbn [vscale map]; f_equal; ring).
    rewrite IH. destruct (rotate_column rots _) as [r cs].
    cbn [fst snd vscale map]. do 3 f_equal. ring.
Qed.

Lemma rotate_rhs_vscale cs d g :
  rotate_rhs cs (vscale d g) = vscale d (rotate_rhs cs g).
Proof.
  induction g as [|x [|y g] IH]; [done| |].
  - cbn. f_equal; [ring | f_equal; ring].
  - change (vscale d (x :: y :: g)) with (d * x :: vscale d (y :: g)).
    change (rotate_rhs cs (d * x :: vscale d (y :: g)))
      with (d * x :: rotate_rhs cs (vscale d (y :: g))).
    rewrite IH. done.
Qed.

Lemma back_substitute_scale c d cols g :
  c ≠ 0 →
  back_substitute (map (vscale c) cols) (vscale d g)
  = vscale (d / c) (back_substitute cols g).
Proof.
  intros Hc. revert g. induction cols as [|col cols IH]; intros g; [done|].
  cbn [map back_substitute]. rewrite length_map, !lookup_vscale, !take_vscale.
  set (k := length cols).
  assert (Hy : default 0 (Rmult d <$> g !! k) / default 0 (Rmult c <$> col !! k)
               = d / c * (default 0 (g !! k) / default 0 (col !! k))).
  { destruct (g !! k), (col !! k); cbn; unfold Rdiv;
      rewrite ?Rinv_mult, ?Rinv_0; lra. }
  rewrite Hy. set (y := default 0 (g !! k) / default 0 (col !! k)).
  rewrite vscale_vscale.
  replace (d / c * y * c) with (d * y) by (field; done).
  rewrite <- (vscale_vscale d y), vsub_vscale, IH.
  unfold vscale. by rewrite map_app.
Qed.

Lemma lincomb_nil_l N vs : lincomb N [] vs = jnp_zeros N.
Proof. reflexivity. Qed.

Lemma lincomb_nil_r N cs : lincomb N cs [] = jnp_zeros N.
Proof. by destruct cs. Qed.

Lemma lincomb_cons N x cs v vs :
  lincomb N (x :: cs) (v :: vs) = vadd (vscale x v) (lincomb N cs vs).
Proof. reflexivity. Qed.

Lemma lincomb_vscale_l N a cs vs :
  lincomb N (vscale a cs) vs = vscale a (lincomb N cs vs).
Proof.
  revert vs. induction cs as [|x cs IH]; intros [|v vs].
  - by rewrite !lincomb_nil_l, vscale_zeros.
  - by rewrite !lincomb_nil_l, vscale_zeros.
  - by rewrite !lincomb_nil_r, vscale_zeros.
  - change (vscale a (x :: cs)) with (a * x :: vscale a cs).
    rewrite !lincomb_cons, IH, <- vadd_vscale, vscale_vscale. done.
Qed.

Section scalar_preconditioner.

Context (p : problem) (M : LinearOperator) (s : side) (c : R).
Local Abbreviation N := (dimension p).
Local Abbreviation p' := (with_preconditioner p M s).
Local Abbreviation d := (match s with Left => c | Right => 1 end).
Context (Hc : 0 < c) (Hwf : well_formed p)
        (Hnone : sys_preconditioner p = None)
        (HA : linear N (sys_operator p)) (HM : conforming N M)
        (HMc : ∀ v, length v = N → op_fn M v = vscale c v).

Lemma with_preconditioner_well_formed : well_formed p'.
Proof using Hwf HM.
  destruct Hwf as (H1 & H2 & H3 & H4).
  split; [exact H1|]. split; [exact H2|]. split; [exact H3|].
  intros M' s' [= <- <-]. exact HM.
Qed.

Lemma effective_apply_plain v :
  length v = N → effective_apply p v = inr (op_fn (sys_operator p) v).
Proof using Hwf Hnone.
  intros Hv. unfold effective_apply, precondition_right, precondition_left.
  rewrite Hnone. cbn [mbind error_bind].
  destruct (apply_conforming p (sys_operator p) v) as [-> _]; [apply Hwf | done | done].
Qed.

Lemma effective_apply_scaled v :
  length v = N →
  effective_apply p' v = inr (vscale c (op_fn (sys_operator p) v)).
Proof using Hwf HA HM HMc.
  intros Hv. unfold effective_apply, precondition_right, precondition_left.
  cbn [with_preconditioner sys_preconditioner sys_operator].
  destruct HA as (HAc & _ & HAs). destruct s.
  - cbn [mbind error_bind].
    destruct (apply_conforming p (sys_operator p) v) as [-> Hlen]; [done..|].
    cbn [mbind error_bind].
    destruct (apply_conforming p M (op_fn (sys_operator p) v)) as [-> _]; [done..|].
    by rewrite HMc.
  - destruct (apply_conforming p M v) as [-> Hlen]; [done..|].
    cbn [mbind error_bind]. rewrite HMc in * by done.
    destruct (apply_conforming p (sys_operator p) (vscale c v)) as [-> _]; [done..|].
    cbn [mbind error_bind]. by rewrite HAs.
Qed.

Lemma arnoldi_step_scaled w w' w1 bd :
  scaled c d w w' → basis_ok N w →
  arnoldi_step p w = inr (w1, bd) →
  ∃ w1', arnoldi_step p' w' = inr (w1', bd) ∧ scaled c d w1 w1'.
Proof using All.
  intros (Hb & Hh & Hr & Ht & Hg) Hok.
  pose proof (last_basis_ok _ w Hok) as Hq.
  unfold arnoldi_step, arnoldi. rewrite Hb, Hr, Ht, Hh, Hg.
  rewrite effective_apply_plain, effective_apply_scaled by done.
  cbn [mbind error_bind]. rewrite mgs_vscale.
  destruct (mgs (basis w) _) as [hs v]. cbn [fst snd mbind error_bind].
  rewrite norm_vscale by lra.
  replace (vscale c hs ++ [c * norm v]) with (vscale c (hs ++ [norm v]))
    by (unfold vscale; by rewrite map_app).
  rewrite rotate_column_vscale by done.
  destruct (rotate_column (rotations w) (hs ++ [norm v])) as [rcol cs].
  cbn [fst snd]. intros [= <- <-]. eexists. split.
  - f_equal. f_equal. apply bool_decide_ext. split; [nra|intros ->; lra].
  - unfold scaled. cbn [basis hessenberg rotations triangular rhs].
    rewrite !map_app, rotate_rhs_vscale. repeat split; try done.
    destruct (decide (norm v = 0)) as [Hz|Hz].
    + rewrite !bool_decide_true; [done..|]. rewrite Hz. lra.
    + rewrite !bool_decide_false; [|done|intros [?|?]%Rmult_integral; lra].
      f_equal. f_equal.
      rewrite vscale_vscale. apply vscale_ext. field. split; lra.
Qed.


Lemma initial_residual_scaled r0 :
  initial_residual p = inr r0 → initial_residual p' = inr (vscale d r0).
Proof using Hwf Hnone HM HMc.
  destruct (apply_conforming p (sys_operator p) (start p)) as [E Hl];
    [apply Hwf | by apply length_start |].
  assert (Hlen : length (vsub (sys_rhs p) (op_fn (sys_operator p) (start p))) = N).
  { rewrite length_vsub, Hl. destruct Hwf as (_ & -> & _). lia. }
  unfold initial_residual, precondition_left.
  change (start p') with (start p).
  cbn [with_preconditioner sys_preconditioner sys_operator sys_rhs].
  rewrite Hnone, E. cbn [mbind error_bind]. intros [= <-].
  destruct s.
  - destruct (apply_conforming p M _ HM Hlen) as [-> _]. by rewrite HMc.
  - by rewrite vscale_1.
Qed.

Lemma init_scaled :
  ∃ beta beta' w w',
    init p = inr (beta, w) ∧ init p' = inr (beta', w')
    ∧ scaled c d w w' ∧ basis_ok N w.
Proof using All.
  destruct (init_ok p Hwf) as (r0 & Hr0 & Hlen & Hinit).
  pose proof (initial_residual_scaled r0 Hr0) as Hr0'.
  assert (Hd : 0 < d) by (destruct s; lra).
  eexists _, _, _, _. split; [exact Hinit|]. split; [|split].
  - unfold init. rewrite Hr0'.
    cbn [with_preconditioner sys_operator sys_rhs dimension].
    destruct Hwf as ([Hs _] & Hb & _). rewrite decide_True by done. reflexivity.
  - unfold scaled. cbn [basis hessenberg rotations triangular rhs].
    repeat split; try done.
    + rewrite norm_vscale, vscale_vscale by lra. f_equal. apply vscale_ext.
      rewrite Rinv_mult.
      transitivity (/ d * d * / norm r0); [ring|]. rewrite Rinv_l by lra. ring.
    + rewrite norm_vscale by lra. done.
  - split; [|done]. cbn. constructor; [|done]. by rewrite length_vscale.
Qed.

Lemma arnoldi_run_scaled k w w' wk :
  scaled c d w w' → basis_ok N w →
  arnoldi_run p k w = inr wk →
  ∃ wk', arnoldi_run p' k w' = inr wk' ∧ scaled c d wk wk' ∧ basis_ok N wk.
Proof using All.
  revert w w'. induction k as [|k IH]; intros w w' Hsc Hok; cbn [arnoldi_run].
  - intros [= <-]. eauto.
  - destruct (arnoldi_step_ok p Hwf w Hok) as (w1 & bd & Hstep & Hok1).
    rewrite Hstep. cbn [mbind error_bind].
    destruct (arnoldi_step_scaled w w' w1 bd Hsc Hok Hstep) as (w1' & -> & Hsc1).
    cbn [mbind error_bind]. destruct bd.
    + intros [= <-]. eauto.
    + by apply IH.
Qed.

Lemma arnoldi_run_ok k w :
  basis_ok N w → ∃ wk, arnoldi_run p k w = inr wk ∧ basis_ok N wk.
Proof using Hwf.
  revert w. induction k as [|k IH]; intros w Hok; cbn [arnoldi_run]; [eauto|].
  destruct (arnoldi_step_ok p Hwf w Hok) as (w1 & bd & -> & Hok1).
  cbn [mbind error_bind]. destruct bd; eauto.
Qed.


Lemma candidate_scaled w w' :
  scaled c d w w' → basis_ok N w → candidate p' w' = candidate p w.
Proof using All.
  intros (Hb & _ & _ & Ht & Hg) [Hall _]. unfold candidate.
  change (dimension p') with N. change (start p') with (start p).
  rewrite Hb, Ht, Hg, length_map, <- map_rev, take_vscale.
  rewrite back_substitute_scale by lra.
  set (y := back_substitute _ _).
  unfold precondition_right. cbn [with_preconditioner sys_preconditioner].
  rewrite Hnone. destruct s.
  - replace (c / c) with 1 by (field; lra). by rewrite vscale_1.
  - rewrite lincomb_vscale_l.
    destruct (apply_conforming p M (vscale (1 / c) (lincomb N y (basis w)))) as [-> _];
      [done | by rewrite length_vscale, length_lincomb |].
    rewrite HMc by (by rewrite length_vscale, length_lincomb).
    rewrite vscale_vscale. replace (c * (1 / c)) with 1 by (field; lra).
    by rewrite vscale_1.
Qed.

Lemma gmres_iterate_scalar_preconditioner k :
  gmres_iterate p' k = gmres_iterate p k.
Proof using All.
  destruct init_scaled as (beta & beta' & w & w' & Hi & Hi' & Hsc & Hok).
  unfold gmres_iterate. rewrite Hi, Hi'. cbn [mbind error_bind].
  destruct (arnoldi_run_ok k w Hok) as (wk & Hrun & Hokk).
  destruct (arnoldi_run_scaled k w w' wk Hsc Hok Hrun) as (wk' & Hrun' & Hsck & _).
  rewrite Hrun, Hrun'. cbn [mbind error_bind]. by apply candidate_scaled.
Qed.

End scalar_preconditioner.

(** ** The sparse operator is linear *)

Lemma length_bcoo_matvec M x : length (bcoo_matvec M x) = (shape M).1.
Proof. unfold bcoo_matvec. by rewrite length_at_add, length_jnp_zeros. Qed.

Lemma scattered_nil_l vals i : scattered [] vals i = 0.
Proof. reflexivity. Qed.

Lemma scattered_cons k idx v vals i :
  scattered (k :: idx) (v :: vals) i
  = (if decide (k = i) then v else 0) + scattered idx vals i.
Proof. reflexivity. Qed.

Lemma scattered_matvec_scale idx dat c x i :
  scattered (map fst idx)
    (zip_with (λ (rc : nat * nat) v, v * default 0 (vscale c x !! rc.2)) idx dat) i
  = c * scattered (map fst idx)
          (zip_with (λ (rc : nat * nat) v, v * default 0 (x !! rc.2)) idx dat) i.
Proof.
  revert dat. induction idx as [|[r k] idx IH]; intros [|v dat];
    cbn [map zip_with fst snd]; rewrite ?scattered_nil_l; try lra.
  - unfold scattered. destruct (map fst idx); cbn; lra.
  - rewrite !scattered_cons, IH, lookup_vscale.
    destruct (x !! k); case_decide; cbn; lra.
Qed.

Lemma scattered_matvec_add idx dat x y i :
  length x = length y →
  scattered (map fst idx)
    (zip_with (λ (rc : nat * nat) v, v * default 0 (vadd x y !! rc.2)) idx dat) i
  = scattered (map fst idx)
      (zip_with (λ (rc : nat * nat) v, v * default 0 (x !! rc.2)) idx dat) i
    + scattered (map fst idx)
        (zip_with (λ (rc : nat * nat) v, v * default 0 (y !! rc.2)) idx dat) i.
Proof.
  intros Hlen. revert dat. induction idx as [|[r k] idx IH]; intros [|v dat];
    cbn [map zip_with fst snd]; rewrite ?scattered_nil_l; try lra.
  - unfold scattered. destruct (map fst idx); cbn; lra.
  - rewrite !scattered_cons, IH. unfold vadd. rewrite lookup_zip_with.
    destruct (x !! k) as [a|] eqn:Ex, (y !! k) as [b|] eqn:Ey; cbn.
    + case_decide; lra.
    + apply lookup_lt_Some in Ex. apply lookup_ge_None in Ey. lia.
    + apply lookup_lt_Some in Ey. apply lookup_ge_None in Ex. lia.
    + case_decide; lra.
Qed.

Lemma bcoo_matvec_vscale M c x :
  bcoo_matvec M (vscale c x) = vscale c (bcoo_matvec M x).
Proof.
  apply list_eq_same_length with (shape M).1.
  - by rewrite length_vscale, length_bcoo_matvec.
  - by rewrite length_bcoo_matvec.
  - intros i a b Hi. unfold bcoo_matvec.
    rewrite lookup_vscale, !at_add_lookup, lookup_jnp_zeros by done. cbn.
    rewrite scattered_matvec_scale. intros [= <-] [= <-]. lra.
Qed.

Lemma bcoo_matvec_vadd M x y :
  length x = length y →
  bcoo_matvec M (vadd x y) = vadd (bcoo_matvec M x) (bcoo_matvec M y).
Proof.
  intros Hlen. apply list_eq_same_length with (shape M).1.
  - rewrite length_vadd, !length_bcoo_matvec. lia.
  - by rewrite length_bcoo_matvec.
  - intros i a b Hi. unfold bcoo_matvec, vadd.
    rewrite lookup_zip_with, !at_add_lookup, lookup_jnp_zeros by done. cbn.
    fold (vadd x y). rewrite scattered_matvec_add by done.
    intros [= <-] [= <-]. lra.
Qed.

Lemma sparse_operator_linear M N tags :
  shape M = (N, N) → linear N (sparse_operator M tags).
Proof.
  intros Hs. split; [split|split]; cbn [sparse_operator op_shape op_fn].
  - done.
  - intros v _. by rewrite length_bcoo_matvec, Hs.
  - intros u v Hu Hv. apply bcoo_matvec_vadd. congruence.
  - intros c v _. apply bcoo_matvec_vscale.
Qed.

(** ** The Jacobi preconditioner of the Poisson operator *)

Lemma krylov_vector_scaled (A : Vector → Vector) c r k :
  (∀ a v, A (vscale a v) = vscale a (A v)) →
  krylov_vector (λ v, vscale c (A v)) (vscale c r) k
  = vscale (c ^ S k) (krylov_vector A r k).
Proof.
  intros HA. induction k as [|k IH].
  - cbn. apply vscale_ext. lra.
  - cbn [krylov_vector]. rewrite IH, HA, vscale_vscale. apply vscale_ext.
    cbn [pow]. lra.
Qed.

Lemma poisson_preconditioner_is_scalar n m A :
  (0 < n)%nat → (0 < m)%nat → poisson n m = Some A →
  realises (preconditioner A (n * m))
           (scalar_operator (n * m) (/ 4) [positive_semidefinite_tag]).
Proof.
  intros Hn Hm HA x Hx. cbn [mv preconditioner scalar_operator op_fn op_shape snd] in *.
  unfold preconditioner_fn, jacobi. rewrite (poisson_diagonal n m A) by done.
  apply divide_scalar; [lra | done].
Qed.

(** C2. For positive [n] and [m], every diagonal element of
    [poisson n m] is 4, so [jacobi] is the constant-4 vector and the
    notebook's preconditioner is the scalar operator [(1/4) * identity].
    It commutes with the Poisson operator, the generators of the
    preconditioned Krylov subspace are scalar multiples of the plain
    ones, and every GMRES iterate of the preconditioned solve (on either
    side) equals the iterate of the plain solve. *)
Theorem jacobi_preconditioner_is_scalar (n m : nat) :
  (0 < n)%nat → (0 < m)%nat →
  ∃ A, poisson n m = Some A
    ∧ (∀ i, (i < n * m)%nat → bcoo_get A i i = 4)
    ∧ jacobi A = replicate (n * m) 4
    ∧ realises (preconditioner A (n * m))
               (scalar_operator (n * m) (/ 4) [positive_semidefinite_tag])
    ∧ (∀ x, vscale (/ 4) (bcoo_matvec A x) = bcoo_matvec A (vscale (/ 4) x))
    ∧ (∀ r k,
         krylov_vector (λ v, vscale (/ 4) (bcoo_matvec A v)) (vscale (/ 4) r) k
         = vscale ((/ 4) ^ S k) (krylov_vector (bcoo_matvec A) r k))
    ∧ (∀ b x0 solver s k,
         length b = (n * m)%nat → (∀ x, x0 = Some x → length x = (n * m)%nat) →
         let p := MkProblem (sparse_operator A []) b x0 solver None in
         let M := scalar_operator (n * m) (/ 4) [positive_semidefinite_tag] in
         gmres_iterate (with_preconditioner p M s) k = gmres_iterate p k).
Proof.
  intros Hn Hm.
  destruct (poisson_denotation n m Hn Hm) as (A & HA & Hs & _ & _ & Hg).
  exists A. split; [done|]. split; [|split; [|split; [|split; [|split]]]].
  - intros i Hi. rewrite Hg. by apply laplacian_2d_diag.
  - by apply poisson_diagonal.
  - by apply poisson_preconditioner_is_scalar.
  - intros x. by rewrite bcoo_matvec_vscale.
  - intros r k. apply krylov_vector_scaled. intros a v. apply bcoo_matvec_vscale.
  - intros b x0 solver s k Hb Hx0 p M.
    pose proof (sparse_operator_linear A (n * m) [] Hs) as Hlin.
    apply (gmres_iterate_scalar_preconditioner p M s (/ 4)).
    + lra.
    + unfold well_formed, dimension. cbn [p sys_operator sparse_operator op_shape
        sys_rhs warm_start sys_preconditioner]. rewrite Hs. cbn [fst].
      split; [apply Hlin|]. split; [done|]. split; [done|]. done.
    + done.
    + unfold dimension. cbn [p sys_operator sparse_operator op_shape]. rewrite Hs. exact Hlin.
    + unfold dimension. cbn [p sys_operator sparse_operator op_shape]. rewrite Hs.
      apply scalar_operator_linear.
    + done.
Qed.

Lemma jacobi_preconditioner_is_scalar_witness :
  ∃ A, poisson 2 2 = Some A
    ∧ (∀ i, (i < 4)%nat → bcoo_get A i i = 4)
    ∧ jacobi A = [4; 4; 4; 4]
    ∧ realises (preconditioner A 4)
               (scalar_operator 4 (/ 4) [positive_semidefinite_tag])
    ∧ (∀ x, vscale (/ 4) (bcoo_matvec A x) = bcoo_matvec A (vscale (/ 4) x))
    ∧ (∀ r k,
         krylov_vector (λ v, vscale (/ 4) (bcoo_matvec A v)) (vscale (/ 4) r) k
         = vscale ((/ 4) ^ S k) (krylov_vector (bcoo_matvec A) r k))
    ∧ (∀ b x0 solver s k,
         length b = 4%nat → (∀ x, x0 = Some x → length x = 4%nat) →
         let p := MkProblem (sparse_operator A []) b x0 solver None in
         let M := scalar_operator 4 (/ 4) [positive_semidefinite_tag] in
         gmres_iterate (with_preconditioner p M s) k = gmres_iterate p k).
Proof. apply (jacobi_preconditioner_is_scalar 2 2); lia. Defined.

(** ** Vectors: componentwise reasoning *)

Lemma lookup_vadd u v i :
  vadd u v !! i = (a ← u !! i; b ← v !! i; Some (a + b)).
Proof. apply lookup_zip_with. Qed.

Lemma lookup_vsub u v i :
  vsub u v !! i = (a ← u !! i; b ← v !! i; Some (a - b)).
Proof. apply lookup_zip_with. Qed.

Lemma vector_eq N (u v : Vector) :
  length u = N → length v = N →
  (∀ i, (i < N)%nat → u !! i = v !! i) → u = v.
Proof.
  intros Hu Hv H. apply list_eq. intros i.
  destruct (decide (i < N)%nat); [by apply H|].
  rewrite !lookup_ge_None_2 by lia. done.
Qed.

Ltac solve_len :=
  repeat first
    [ rewrite length_vadd | rewrite length_vsub | rewrite length_vscale
    | rewrite length_jnp_zeros | rewrite length_lincomb by (eauto; fail) ];
  repeat match goal with H : length _ = _ |- _ => rewrite H end;
  try lia; eauto.

Lemma lookup_vadd_Some u v i a b :
  u !! i = Some a → v !! i = Some b → vadd u v !! i = Some (a + b).
Proof. intros Hu Hv. by rewrite lookup_vadd, Hu, Hv. Qed.

Lemma lookup_vsub_Some u v i a b :
  u !! i = Some a → v !! i = Some b → vsub u v !! i = Some (a - b).
Proof. intros Hu Hv. by rewrite lookup_vsub, Hu, Hv. Qed.

Lemma lookup_vscale_Some c v i a :
  v !! i = Some a → vscale c v !! i = Some (c * a).
Proof. intros Hv. by rewrite lookup_vscale, Hv. Qed.

Create HintDb vlookup discriminated.
#[local] Hint Resolve lookup_vadd_Some lookup_vsub_Some lookup_vscale_Some
  lookup_jnp_zeros : vlookup.

(** Prove an identity between vectors of dimension [N] built with
    [vadd], [vsub], [vscale] and [jnp_zeros N] from vectors whose length
    is known, component by component; [tac] closes the identity between
    real numbers. *)
Ltac vec_eq N tac :=
  apply (vector_eq N); [solve_len | solve_len |];
  let i := fresh "i" in let Hi := fresh "Hi" in
  intros i Hi;
  repeat match goal with
    | H : length ?v = _ |- _ =>
        is_var v;
        lazymatch goal with
        | _ : v !! i = Some _ |- _ => fail
        | _ => idtac
        end;
        let x := fresh "x" in let E := fresh "E" in
        destruct (lookup_lt_is_Some_2 v i) as [x E]; [rewrite H; lia|]
    end;
  lazymatch goal with
  | |- ?lhs = ?rhs =>
      let HL := fresh "HL" in let HR := fresh "HR" in
      eassert (HL : lhs = Some _) by eauto 40 with vlookup;
      eassert (HR : rhs = Some _) by eauto 40 with vlookup;
      rewrite HL, HR; apply (f_equal (@Some R)); tac
  end.

Lemma vadd_comm u v : vadd u v = vadd v u.
Proof.
  revert v. induction u as [|a u IH]; intros [|b v]; try done.
  cbn [vadd zip_with]. f_equal; [lra | apply IH].
Qed.

Lemma vadd_assoc u v w : vadd u (vadd v w) = vadd (vadd u v) w.
Proof.
  revert v w. induction u as [|a u IH]; intros [|b v] [|x w]; try done.
  cbn [vadd zip_with]. f_equal; [lra | apply IH].
Qed.

Lemma vadd_zeros_l N v : length v = N → vadd (jnp_zeros N) v = v.
Proof. intros Hv. vec_eq N lra. Qed.

Lemma vadd_zeros_r N v : length v = N → vadd v (jnp_zeros N) = v.
Proof. intros Hv. vec_eq N lra. Qed.

Lemma vsub_self N v : length v = N → vsub v v = jnp_zeros N.
Proof. intros Hv. vec_eq N lra. Qed.

Lemma vadd_vsub_cancel N u v :
  length u = N → length v = N → vadd v (vsub u v) = u.
Proof. intros Hu Hv. vec_eq N lra. Qed.

Lemma vscale_vadd_distr a b v : vadd (vscale a v) (vscale b v) = vscale (a + b) v.
Proof.
  induction v as [|x v IH]; [done|].
  cbn [vadd vscale map zip_with]. f_equal; [lra | apply IH].
Qed.

Lemma dot_vadd_r u v v' :
  length v = length v' → dot u (vadd v v') = dot u v + dot u v'.
Proof. intros H. rewrite dot_comm, dot_vadd_l by done. by rewrite !(dot_comm u). Qed.

Lemma dot_vsub_r u v v' :
  length v = length v' → dot u (vsub v v') = dot u v - dot u v'.
Proof. intros H. rewrite dot_comm, dot_vsub_l by done. by rewrite !(dot_comm u). Qed.

Lemma dot_zeros_r n v : dot v (jnp_zeros n) = 0.
Proof. by rewrite dot_comm, dot_zeros_l. Qed.

Lemma dot_self_zero N v : length v = N → dot v v = 0 → v = jnp_zeros N.
Proof.
  intros <-. induction v as [|a v IH]; [done|].
  rewrite dot_cons. intros H. pose proof (dot_self_nonneg v).
  assert (a = 0) as -> by nra. cbn [length jnp_zeros replicate].
  f_equal. apply IH. nra.
Qed.

Lemma norm_zero_inv N v : length v = N → norm v = 0 → v = jnp_zeros N.
Proof.
  intros Hv Hn. apply dot_self_zero; [done|]. unfold norm in Hn.
  apply sqrt_eq_0 in Hn; [done | apply dot_self_nonneg].
Qed.

Lemma norm_sqr v : norm v * norm v = dot v v.
Proof. unfold norm. apply sqrt_sqrt, dot_self_nonneg. Qed.

Lemma dot_normalized v : norm v ≠ 0 → dot (vscale (/ norm v) v) (vscale (/ norm v) v) = 1.
Proof.
  intros Hn. rewrite dot_vscale_l, dot_vscale_r, <- norm_sqr. by field.
Qed.

(** ** Linear combinations and spans *)

Lemma lincomb_app N cs ds vs ws :
  length cs = length vs → Forall (λ v, length v = N) vs → Forall (λ v, length v = N) ws →
  lincomb N (cs ++ ds) (vs ++ ws) = vadd (lincomb N cs vs) (lincomb N ds ws).
Proof.
  intros Hlen Hvs Hws. revert cs Hlen.
  induction Hvs as [|v vs Hv Hvs IH]; intros [|c cs] Hlen; cbn [length] in Hlen; try discriminate; try apply Nat.succ_inj in Hlen; cbn [app].
  - rewrite lincomb_nil_l, vadd_zeros_l; [done | by apply length_lincomb].
  - rewrite !lincomb_cons, IH by done. apply vadd_assoc.
Qed.

Lemma lincomb_singleton N c v : length v = N → lincomb N [c] [v] = vscale c v.
Proof. intros Hv. rewrite lincomb_cons, lincomb_nil_l. apply vadd_zeros_r. solve_len. Qed.

Lemma lincomb_snoc N cs c vs v :
  length cs = length vs → Forall (λ v, length v = N) vs → length v = N →
  lincomb N (cs ++ [c]) (vs ++ [v]) = vadd (lincomb N cs vs) (vscale c v).
Proof.
  intros Hlen Hvs Hv. rewrite lincomb_app by (done || by constructor).
  by rewrite lincomb_singleton.
Qed.

(** Basis vectors beyond the coefficients play no role. *)
Lemma lincomb_app_r N cs vs ws :
  (length cs ≤ length vs)%nat → lincomb N cs (vs ++ ws) = lincomb N cs vs.
Proof.
  revert vs. induction cs as [|c cs IH]; intros [|v vs] Hlen; simplify_eq/=; try done; try lia.
  rewrite !lincomb_cons, IH by lia. done.
Qed.

(** Coefficients beyond the basis play no role. *)
Lemma lincomb_app_l N cs ds vs :
  (length vs ≤ length cs)%nat → lincomb N (cs ++ ds) vs = lincomb N cs vs.
Proof.
  revert vs. induction cs as [|c cs IH]; intros [|v vs] Hlen; simplify_eq/=; try done; try lia.
  - by rewrite lincomb_nil_r.
  - rewrite !lincomb_cons, IH by lia. done.
Qed.

Lemma lincomb_vadd_l N cs ds vs :
  length cs = length ds → Forall (λ v, length v = N) vs →
  lincomb N (vadd cs ds) vs = vadd (lincomb N cs vs) (lincomb N ds vs).
Proof.
  intros Hlen Hvs. revert cs ds Hlen.
  induction Hvs as [|v vs Hv Hvs IH]; intros [|c cs] [|x ds] Hlen; cbn [length] in Hlen; try discriminate; try apply Nat.succ_inj in Hlen.
  - rewrite !lincomb_nil_l. symmetry. apply vadd_zeros_l, length_jnp_zeros.
  - rewrite !lincomb_nil_r. symmetry. apply vadd_zeros_l, length_jnp_zeros.
  - rewrite !lincomb_nil_l. symmetry. apply vadd_zeros_l, length_jnp_zeros.
  - change (vadd (c :: cs) (x :: ds)) with ((c + x) :: vadd cs ds).
    rewrite !lincomb_cons, IH by done.
    pose proof (length_lincomb N cs vs Hvs). pose proof (length_lincomb N ds vs Hvs).
    set (a := lincomb N cs vs) in *. set (b := lincomb N ds vs) in *.
    vec_eq N ltac:(ring).
Qed.

Lemma lincomb_vsub_l N cs ds vs :
  length cs = length ds → Forall (λ v, length v = N) vs →
  lincomb N (vsub cs ds) vs = vsub (lincomb N cs vs) (lincomb N ds vs).
Proof.
  intros Hlen Hvs. revert cs ds Hlen.
  induction Hvs as [|v vs Hv Hvs IH]; intros [|c cs] [|x ds] Hlen; cbn [length] in Hlen; try discriminate; try apply Nat.succ_inj in Hlen.
  - rewrite !lincomb_nil_l. symmetry. apply vsub_zeros.
  - rewrite !lincomb_nil_r. symmetry. apply vsub_zeros.
  - rewrite !lincomb_nil_l. symmetry. apply vsub_zeros.
  - change (vsub (c :: cs) (x :: ds)) with ((c - x) :: vsub cs ds).
    rewrite !lincomb_cons, IH by done.
    pose proof (length_lincomb N cs vs Hvs). pose proof (length_lincomb N ds vs Hvs).
    set (a := lincomb N cs vs) in *. set (b := lincomb N ds vs) in *.
    vec_eq N ltac:(ring).
Qed.

Lemma dot_lincomb_orth N cs vs u :
  Forall (λ v, length v = N) vs → Forall (λ v, dot v u = 0) vs →
  dot (lincomb N cs vs) u = 0.
Proof.
  intros Hlen Hvs. revert cs.
  induction Hvs as [|v vs Hv Hvs IH]; intros [|c cs];
    rewrite ?lincomb_nil_l, ?lincomb_nil_r, ?dot_zeros_l; try done.
  apply Forall_cons in Hlen as [Hl Hlen].
  rewrite lincomb_cons, dot_vadd_l, dot_vscale_l, Hv, IH by solve_len. lra.
Qed.

Lemma op_lincomb N L cs vs :
  linear N L → Forall (λ v, length v = N) vs →
  op_fn L (lincomb N cs vs) = lincomb N cs (map (op_fn L) vs).
Proof.
  intros HL Hvs. revert cs.
  induction Hvs as [|v vs Hv Hvs IH]; intros [|c cs];
    rewrite ?lincomb_nil_l, ?lincomb_nil_r; try by apply linear_zeros.
  cbn [map]. rewrite !lincomb_cons. destruct HL as ([? ?] & Hadd & Hsc).
  rewrite Hadd, Hsc, IH by solve_len. done.
Qed.

Lemma span_length N vs v :
  Forall (λ v, length v = N) vs → span N vs v → length v = N.
Proof.
  intros Hvs. induction 1 as [|v Hv|u v _ IHu _ IHv|c v _ IH].
  - apply length_jnp_zeros.
  - by apply (proj1 (Forall_forall _ _) Hvs).
  - solve_len.
  - solve_len.
Qed.

Lemma span_mono N vs ws v : vs ⊆ ws → span N vs v → span N ws v.
Proof.
  intros Hsub. induction 1 as [|v Hv|u v _ IHu _ IHv|c v _ IH].
  - apply span_zero.
  - apply span_elem. by apply Hsub.
  - by apply span_add.
  - by apply span_scale.
Qed.

Lemma span_lincomb N cs vs : span N vs (lincomb N cs vs).
Proof.
  revert cs. induction vs as [|v vs IH]; intros [|c cs];
    rewrite ?lincomb_nil_l, ?lincomb_nil_r; try apply span_zero.
  rewrite lincomb_cons. apply span_add.
  - apply span_scale, span_elem. left.
  - eapply span_mono; [|apply IH]. intros x Hx. by constructor.
Qed.

Lemma span_sub N vs u v :
  Forall (λ v, length v = N) vs → span N vs u → span N vs v → span N vs (vsub u v).
Proof.
  intros Hvs Hu Hv.
  pose proof (span_length N vs u Hvs Hu). pose proof (span_length N vs v Hvs Hv).
  replace (vsub u v) with (vadd u (vscale (-1) v)) by (vec_eq N lra).
  apply span_add; [done|]. by apply span_scale.
Qed.

Lemma span_orth N vs z u :
  Forall (λ v, length v = N) vs → Forall (λ v, dot v u = 0) vs →
  span N vs z → dot z u = 0.
Proof.
  intros Hlen Horth Hz.
  induction Hz as [|v Hv|a b Ha IHa Hb IHb|c v _ IH].
  - apply dot_zeros_l.
  - by apply (proj1 (Forall_forall _ _) Horth).
  - rewrite dot_vadd_l, IHa, IHb; [lra|].
    rewrite (span_length N vs a), (span_length N vs b); done.
  - rewrite dot_vscale_l, IH. lra.
Qed.

(** The image of a span under a linear operator is closed under linear
    combinations. *)
Lemma image_span_lincomb N L vs cs ps :
  linear N L → Forall (λ v, length v = N) vs →
  Forall (λ pi, ∃ z, span N vs z ∧ pi = op_fn L z) ps →
  ∃ z, span N vs z ∧ lincomb N cs ps = op_fn L z.
Proof.
  intros HL Hvs Hps. revert cs.
  induction Hps as [|pi ps (z & Hz & ->) _ IH]; intros [|c cs];
    rewrite ?lincomb_nil_l, ?lincomb_nil_r;
    try (exists (jnp_zeros N); split; [apply span_zero | symmetry; by apply linear_zeros]).
  rewrite lincomb_cons. destruct (IH cs) as (z' & Hz' & ->).
  exists (vadd (vscale c z) z'). split; [apply span_add; [by apply span_scale | done]|].
  destruct HL as (_ & Hadd & Hsc).
  pose proof (span_length N vs z Hvs Hz). pose proof (span_length N vs z' Hvs Hz').
  rewrite Hadd, Hsc by solve_len. done.
Qed.

(** ** Orthonormal families *)

Lemma orthonormal_snoc vs q :
  orthonormal vs → Forall (λ u, dot u q = 0) vs → dot q q = 1 →
  orthonormal (vs ++ [q]).
Proof.
  intros Hvs Hq Hqq. induction vs as [|v vs IH]; cbn [app orthonormal].
  - by repeat split.
  - destruct Hvs as (Hvv & Hv & Hvs). apply Forall_cons in Hq as [Hvq Hq].
    split; [done|]. split; [|by apply IH].
    apply Forall_app. split; [done|]. by constructor.
Qed.

Lemma orthonormal_snoc_inv vs q :
  orthonormal (vs ++ [q]) →
  orthonormal vs ∧ Forall (λ u, dot u q = 0) vs ∧ dot q q = 1.
Proof.
  induction vs as [|v vs IH]; cbn [app orthonormal].
  - intros (Hqq & _ & _). by repeat split.
  - intros (Hvv & Hv & Hvs). apply Forall_app in Hv as [Hv Hvq].
    apply (proj1 (Forall_singleton _ _)) in Hvq.
    destruct (IH Hvs) as (? & ? & ?). repeat split; try done.
    constructor; [exact Hvq | assumption].
Qed.

(** ** Modified Gram-Schmidt *)

Lemma mgs_spec N qs w :
  Forall (λ q, length q = N) qs → orthonormal qs → length w = N →
  length (mgs qs w).1 = length qs
  ∧ length (mgs qs w).2 = N
  ∧ w = vadd (lincomb N (mgs qs w).1 qs) (mgs qs w).2
  ∧ Forall (λ q, dot q (mgs qs w).2 = 0) qs.
Proof.
  intros Hlen. revert w. induction Hlen as [|q qs Hq Hlen IH]; intros w Horth Hw.
  - cbn [mgs fst snd]. repeat split; try done.
    rewrite lincomb_nil_l. symmetry. by apply vadd_zeros_l.
  - destruct Horth as (Hqq & Hqqs & Horth). cbn [mgs].
    set (h := dot w q). set (w1 := vsub w (vscale h q)).
    assert (Hw1 : length w1 = N) by (unfold w1; solve_len).
    destruct (IH w1 Horth Hw1) as (Hhs & Hv & Hdec & Hperp).
    destruct (mgs qs w1) as [hs v]. cbn [fst snd] in *.
    pose proof (length_lincomb N hs qs Hlen) as Hlc.
    split; [cbn [length]; by rewrite Hhs|]. split; [done|]. split.
    + rewrite lincomb_cons, <- vadd_assoc, <- Hdec. unfold w1.
      symmetry. apply (vadd_vsub_cancel N); solve_len.
    + constructor; [|done].
      assert (H1 : dot q w1 = 0).
      { unfold w1. rewrite dot_vsub_r, dot_vscale_r, Hqq by solve_len.
        unfold h. rewrite (dot_comm w q). lra. }
      rewrite Hdec, dot_vadd_r in H1 by solve_len.
      rewrite (dot_comm q (lincomb N hs qs)), (dot_lincomb_orth N) in H1; [lra|done|].
      eapply Forall_impl; [exact Hqqs|]. intros u Hu. cbn in Hu. by rewrite dot_comm.
Qed.

(** ** At most [N] orthonormal vectors in dimension [N] *)

Lemma Rsum_le (A : Type) (f g : A → R) (l : list A) :
  (∀ x, x ∈ l → f x <= g x) → Rsum (map f l) <= Rsum (map g l).
Proof.
  induction l as [|x l IH]; intros H; cbn [map]; rewrite ?Rsum_cons.
  - unfold Rsum. cbn. lra.
  - pose proof (H x (list_elem_of_here _ _)). 
    assert (Rsum (map f l) <= Rsum (map g l)).
    { apply IH. intros y Hy. apply H. by constructor. }
    lra.
Qed.

Lemma Rsum_ext (A : Type) (f g : A → R) (l : list A) :
  (∀ x, x ∈ l → f x = g x) → Rsum (map f l) = Rsum (map g l).
Proof.
  induction l as [|x l IH]; intros H; cbn [map]; rewrite ?Rsum_cons; [done|].
  rewrite (H x) by constructor. rewrite IH; [done|].
  intros y Hy. apply H. by constructor.
Qed.

Lemma Rsum_const_1 (A : Type) (l : list A) : Rsum (map (λ _, 1) l) = INR (length l).
Proof.
  induction l as [|x l IH]; [done|].
  cbn [map length]. rewrite Rsum_cons, IH, S_INR. lra.
Qed.

Lemma Rsum_plus (A : Type) (f g : A → R) (l : list A) :
  Rsum (map (λ x, f x + g x) l) = Rsum (map f l) + Rsum (map g l).
Proof.
  induction l as [|x l IH]; cbn [map]; rewrite ?Rsum_cons.
  - unfold Rsum. cbn. lra.
  - rewrite IH. lra.
Qed.

Lemma Rsum_exchange (A B : Type) (f : A → B → R) (la : list A) (lb : list B) :
  Rsum (map (λ a, Rsum (map (f a) lb)) la)
  = Rsum (map (λ b, Rsum (map (λ a, f a b) la)) lb).
Proof.
  induction la as [|a la IH]; cbn [map]; rewrite ?Rsum_cons.
  - symmetry. apply Rsum_zero. apply Forall_forall. intros x [b [-> _]]%list_elem_of_fmap. done.
  - rewrite IH. rewrite <- Rsum_plus. done.
Qed.

Lemma bessel N vs u :
  Forall (λ v, length v = N) vs → orthonormal vs → length u = N →
  Rsum (map (λ v, dot u v * dot u v) vs) <= dot u u.
Proof.
  intros Hlen. revert u. induction Hlen as [|v vs Hv Hlen IH]; intros u Horth Hu.
  - cbn. apply dot_self_nonneg.
  - destruct Horth as (Hvv & Hvvs & Horth). cbn [map]. rewrite Rsum_cons.
    set (u1 := vsub u (vscale (dot u v) v)).
    assert (Hu1 : length u1 = N) by (unfold u1; solve_len).
    pose proof (IH u1 Horth Hu1) as Hb.
    assert (Hsame : Rsum (map (λ v', dot u1 v' * dot u1 v') vs)
                    = Rsum (map (λ v', dot u v' * dot u v') vs)).
    { apply Rsum_ext. intros v' Hv'.
      pose proof (proj1 (Forall_forall _ _) Hvvs v' Hv') as Hvv'. cbn in Hvv'.
      unfold u1. rewrite dot_vsub_l, dot_vscale_l, Hvv' by solve_len. lra. }
    assert (Hnorm : dot u1 u1 = dot u u - dot u v * dot u v).
    { unfold u1. rewrite dot_vsub_l, !dot_vsub_r, !dot_vscale_l, !dot_vscale_r by solve_len.
      rewrite Hvv, (dot_comm v u). lra. }
    rewrite Hsame, Hnorm in Hb. lra.
Qed.

Lemma length_unit_vector N j : length (unit_vector N j) = N.
Proof. unfold unit_vector. by rewrite length_insert, length_jnp_zeros. Qed.

Lemma unit_vector_0 N : unit_vector (S N) 0 = 1 :: jnp_zeros N.
Proof. reflexivity. Qed.

Lemma unit_vector_S N j : unit_vector (S N) (S j) = 0 :: unit_vector N j.
Proof. reflexivity. Qed.

Lemma default_lookup_0 (x : R) v : default 0 ((x :: v) !! 0%nat) = x.
Proof. reflexivity. Qed.

Lemma default_lookup_S (x : R) v j : default 0 ((x :: v) !! S j) = default 0 (v !! j).
Proof. reflexivity. Qed.

Lemma dot_unit_vector N j v :
  (j < N)%nat → length v = N → dot (unit_vector N j) v = default 0 (v !! j).
Proof.
  revert j v. induction N as [|N IH]; intros j v Hj Hv; [lia|].
  destruct v as [|x v]; [done|]. cbn [length] in Hv.
  destruct j as [|j].
  - rewrite unit_vector_0, dot_cons, dot_zeros_l, default_lookup_0. lra.
  - rewrite unit_vector_S, dot_cons, (IH j v), default_lookup_S by lia. lra.
Qed.

Lemma dot_unit_vector_self N j : (j < N)%nat → dot (unit_vector N j) (unit_vector N j) = 1.
Proof.
  intros Hj. rewrite dot_unit_vector by (done || apply length_unit_vector).
  unfold unit_vector. rewrite list_lookup_insert_eq by (by rewrite length_jnp_zeros). done.
Qed.

Lemma sum_of_squares v :
  Rsum (map (λ j, default 0 (v !! j) * default 0 (v !! j)) (seq 0 (length v))) = dot v v.
Proof.
  induction v as [|x v IH]; [done|].
  cbn [length seq map]. rewrite Rsum_cons, dot_cons, <- IH, <- fmap_S_seq.
  rewrite default_lookup_0. f_equal.
  rewrite <- list_fmap_compose. done.
Qed.

Lemma orthonormal_length N vs :
  Forall (λ v, length v = N) vs → orthonormal vs → (length vs ≤ N)%nat.
Proof.
  intros Hlen Horth. apply INR_le.
  assert (H1 : INR (length vs) = Rsum (map (λ v, dot v v) vs)).
  { rewrite <- Rsum_const_1. apply Rsum_ext. intros v Hv. clear Hlen.
    induction vs as [|u vs IH]; [by apply not_elem_of_nil in Hv|].
    destruct Horth as (Huu & _ & Horth).
    apply elem_of_cons in Hv as [->|Hv]; [done | by apply IH]. }
  assert (H2 : Rsum (map (λ v, dot v v) vs)
               = Rsum (map (λ v, Rsum (map (λ j, dot (unit_vector N j) v * dot (unit_vector N j) v)
                                           (seq 0 N))) vs)).
  { apply Rsum_ext. intros v Hv.
    pose proof (proj1 (Forall_forall _ _) Hlen v Hv) as Hl. cbn in Hl.
    rewrite <- sum_of_squares, Hl. apply Rsum_ext. intros j Hj%elem_of_seq.
    rewrite dot_unit_vector by (lia || done). done. }
  rewrite H1, H2, Rsum_exchange.
  replace (INR N) with (Rsum (map (λ _ : nat, 1) (seq 0 N)))
    by (by rewrite Rsum_const_1, length_seq).
  apply Rsum_le. intros j Hj%elem_of_seq.
  rewrite <- (dot_unit_vector_self N j) by lia.
  apply (bessel N); [done | done | apply length_unit_vector].
Qed.

(** ** Givens rotations *)

Lemma givens_normalized a b : normalized (givens a b).
Proof.
  unfold normalized, givens. set (rho := sqrt (a * a + b * b)).
  case_decide as Hrho; cbn [fst snd]; [lra|].
  assert (Hsq : rho * rho = a * a + b * b) by (apply sqrt_sqrt; nra).
  field_simplify_eq; [nra | done].
Qed.

Lemma givens_annihilates a b :
  - (givens a b).2 * a + (givens a b).1 * b = 0.
Proof.
  unfold givens. set (rho := sqrt (a * a + b * b)).
  case_decide as Hrho; cbn [fst snd]; [|by field].
  assert (a * a + b * b = 0) by (apply sqrt_eq_0; [nra | done]).
  assert (a = 0) by nra. nra.
Qed.

(** The diagonal element produced by the rotation is [sqrt (a^2 + b^2)]. *)
Lemma givens_diagonal a b :
  (givens a b).1 * a + (givens a b).2 * b = sqrt (a * a + b * b).
Proof.
  unfold givens. set (rho := sqrt (a * a + b * b)).
  assert (Hsq : rho * rho = a * a + b * b) by (apply sqrt_sqrt; nra).
  case_decide as Hrho; cbn [fst snd].
  - rewrite Hrho in Hsq. assert (a = 0) by nra. nra.
  - transitivity ((a * a + b * b) / rho); [by field|]. rewrite <- Hsq. by field.
Qed.

Lemma givens_diagonal_nonzero a b :
  b ≠ 0 → (givens a b).1 * a + (givens a b).2 * b ≠ 0.
Proof.
  intros Hb. rewrite givens_diagonal. intros H.
  apply sqrt_eq_0 in H; nra.
Qed.

Lemma givens_breakdown a :
  (givens a 0).1 * a + (givens a 0).2 * 0 ≠ 0 → (givens a 0).2 = 0.
Proof.
  rewrite givens_diagonal. intros H. unfold givens.
  rewrite decide_False by done. cbn. unfold Rdiv. lra.
Qed.

Lemma givens_diagonal_zero a b :
  (givens a b).1 * a + (givens a b).2 * b = 0 → a = 0 ∧ b = 0.
Proof.
  rewrite givens_diagonal. intros H. apply sqrt_eq_0 in H; [|nra]. split; nra.
Qed.

(** ** The rotations as a change of basis *)

Lemma rotate_basis_length N rots t qs :
  length t = N → Forall (λ q, length q = N) qs →
  length (rotate_basis rots t qs).1 = (length rots `min` length qs)%nat
  ∧ Forall (λ v, length v = N) (rotate_basis rots t qs).1
  ∧ length (rotate_basis rots t qs).2 = N.
Proof.
  intros Ht Hqs. revert rots t Ht.
  induction Hqs as [|q qs Hq Hqs IH]; intros [|[c s] rots] t Ht; cbn [rotate_basis length];
    try (repeat split; done || lia).
  destruct (IH rots (vadd (vscale (- s) t) (vscale c q))) as (H1 & H2 & H3); [solve_len|].
  destruct (rotate_basis rots _ qs) as [P t']. cbn [fst snd length] in *.
  split; [lia|]. split; [|done]. constructor; [solve_len | done].
Qed.

Lemma rotate_basis_snoc rots c s t qs q :
  length rots = length qs →
  rotate_basis (rots ++ [(c, s)]) t (qs ++ [q])
  = ((rotate_basis rots t qs).1
       ++ [vadd (vscale c (rotate_basis rots t qs).2) (vscale s q)],
     vadd (vscale (- s) (rotate_basis rots t qs).2) (vscale c q)).
Proof.
  revert t qs. induction rots as [|[c0 s0] rots IH]; intros t [|q0 qs] Hlen;
    cbn [length] in Hlen; try discriminate.
  - done.
  - cbn [app rotate_basis]. rewrite IH by lia.
    destruct (rotate_basis rots _ qs) as [P t']. done.
Qed.

Lemma rotate_basis_app_r rots t qs extra :
  (length rots ≤ length qs)%nat →
  rotate_basis rots t (qs ++ extra) = rotate_basis rots t qs.
Proof.
  revert t qs. induction rots as [|[c s] rots IH]; intros t [|q qs] Hlen;
    cbn [length] in Hlen; try lia; cbn [app rotate_basis].
  - by destruct extra.
  - done.
  - rewrite IH by lia. done.
Qed.

(** The pending vector of an orthonormal basis has norm one. *)
Lemma rotate_basis_pending_unit N rots t qs :
  Forall normalized rots → Forall (λ q, length q = N) (t :: qs) →
  orthonormal (t :: qs) →
  dot (rotate_basis rots t qs).2 (rotate_basis rots t qs).2 = 1.
Proof.
  intros Hrots. revert t qs.
  induction Hrots as [|[c s] rots Hcs Hrots IH]; intros t [|q qs] Hlen Horth;
    cbn [rotate_basis snd]; try apply Horth.
  apply Forall_cons in Hlen as [Ht Hlen]. apply Forall_cons in Hlen as [Hq Hlen].
  destruct Horth as (Htt & Htq & Hqq & Hqqs & Horth).
  apply Forall_cons in Htq as [Htq Htqs]. unfold normalized in Hcs. cbn [fst snd] in Hcs.
  specialize (IH (vadd (vscale (- s) t) (vscale c q)) qs).
  destruct (rotate_basis rots _ qs) as [P t']. cbn [snd] in *. apply IH.
  - constructor; [solve_len | done].
  - cbn [orthonormal]. split; [|split; [|done]].
    + rewrite dot_vadd_l, !dot_vadd_r, !dot_vscale_l, !dot_vscale_r by solve_len.
      rewrite Htt, Hqq, Htq, (dot_comm q t), Htq. nra.
    + apply Forall_forall. intros u Hu.
      pose proof (proj1 (Forall_forall _ _) Htqs u Hu) as H1.
      pose proof (proj1 (Forall_forall _ _) Hqqs u Hu) as H2. cbn in H1, H2.
      rewrite dot_vadd_l, !dot_vscale_l, H1, H2 by solve_len. lra.
Qed.

(** Two coordinates with respect to the pending vector and the next
    basis vector, re-expressed after a rotation. *)
Lemma rotation_identity N c s a b t q :
  c * c + s * s = 1 → length t = N → length q = N →
  vadd (vscale a t) (vscale b q)
  = vadd (vscale (c * a + s * b) (vadd (vscale c t) (vscale s q)))
         (vscale (- s * a + c * b) (vadd (vscale (- s) t) (vscale c q))).
Proof.
  intros Hcs Ht Hq.
  vec_eq N ltac:(idtac; match goal with
                 | |- ?l = _ => transitivity ((c * c + s * s) * l);
                                [rewrite Hcs; ring | ring]
                 end).
Qed.

(** The triangularization of a new column: the coordinates [a :: col]
    with respect to the pending vector [t] and the basis vectors [qs]
    become the column of the triangular factor with respect to the
    rotated basis. *)
Lemma rotate_column_spec N rots t qs a col :
  Forall normalized rots → length t = N → Forall (λ q, length q = N) qs →
  length qs = S (length rots) → length col = S (length rots) →
  normalized (rotate_column rots (a :: col)).2
  ∧ (∃ rc0 a' b,
       (rotate_column rots (a :: col)).1
       = rc0 ++ [(rotate_column rots (a :: col)).2.1 * a'
                 + (rotate_column rots (a :: col)).2.2 * b]
       ∧ length rc0 = length rots
       ∧ last col = Some b
       ∧ (rotate_column rots (a :: col)).2 = givens a' b)
  ∧ vadd (vscale a t) (lincomb N col qs)
    = lincomb N (rotate_column rots (a :: col)).1
              (rotate_basis (rots ++ [(rotate_column rots (a :: col)).2]) t qs).1.
Proof.
  intros Hrots. revert t qs a col.
  induction Hrots as [|[c0 s0] rots Hcs Hrots IH]; intros t qs a col Ht Hqs Hlq Hlc.
  - destruct col as [|b [|? ?]]; try done. destruct qs as [|q [|? ?]]; try done.
    apply Forall_cons in Hqs as [Hq _].
    cbn [rotate_column fst snd app rotate_basis].
    pose proof (givens_normalized a b) as Hn. pose proof (givens_annihilates a b) as Ha.
    destruct (givens a b) as [c s] eqn:Hg. unfold normalized in Hn. cbn [fst snd] in *.
    split; [done|]. split.
    + exists [], a, b. by rewrite Hg.
    + rewrite !lincomb_singleton by solve_len.
      rewrite (rotation_identity N c s a b t q) by done.
      rewrite Ha. set (p := vadd (vscale c t) (vscale s q)).
      set (t2 := vadd (vscale (- s) t) (vscale c q)).
      assert (length p = N) by (unfold p; solve_len).
      assert (length t2 = N) by (unfold t2; solve_len).
      vec_eq N ltac:(ring).
  - destruct col as [|b col]; [done|]. destruct qs as [|q qs]; [done|].
    apply Forall_cons in Hqs as [Hq Hqs]. cbn [length] in Hlq, Hlc.
    unfold normalized in Hcs. cbn [fst snd] in Hcs.
    set (t2 := vadd (vscale (- s0) t) (vscale c0 q)).
    assert (Ht2 : length t2 = N) by (unfold t2; solve_len).
    specialize (IH t2 qs (- s0 * a + c0 * b) col Ht2 Hqs ltac:(lia) ltac:(lia)).
    cbn [rotate_column app rotate_basis]. fold t2.
    destruct (rotate_column rots ((- s0 * a + c0 * b) :: col)) as [r cs].
    cbn [fst snd] in *.
    destruct IH as (Hn & (rc0 & a' & b' & Hr & Hl0 & Hlast & Hg) & Hvec).
    pose proof (rotate_basis_length N (rots ++ [cs]) t2 qs Ht2 Hqs) as (_ & HP & _).
    destruct (rotate_basis (rots ++ [cs]) t2 qs) as [P t']. cbn [fst snd] in *.
    split; [done|]. split.
    + exists ((c0 * a + s0 * b) :: rc0), a', b'. rewrite Hr. cbn [app length].
      repeat split; try done; try lia.
      destruct col; [done|]. exact Hlast.
    + rewrite !lincomb_cons, <- Hvec.
      rewrite vadd_assoc, (rotation_identity N c0 s0 a b t q) by done. fold t2.
      by rewrite <- vadd_assoc.
Qed.

(** The rotation applied to the right-hand side. *)
Lemma rotate_rhs_snoc cs g0 x :
  rotate_rhs cs (g0 ++ [x]) = g0 ++ [cs.1 * x; - cs.2 * x].
Proof.
  induction g0 as [|y g0 IH]; [done|].
  destruct g0 as [|z g0]; [done|].
  change (rotate_rhs cs ((y :: z :: g0) ++ [x]))
    with (y :: rotate_rhs cs ((z :: g0) ++ [x])).
  by rewrite IH.
Qed.

Lemma rotate_rhs_spec N c s g0 x P t q :
  c * c + s * s = 1 → length g0 = length P → Forall (λ v, length v = N) P →
  length t = N → length q = N →
  lincomb N (g0 ++ [x]) (P ++ [t])
  = lincomb N (g0 ++ [c * x; - s * x])
            ((P ++ [vadd (vscale c t) (vscale s q)])
               ++ [vadd (vscale (- s) t) (vscale c q)]).
Proof.
  intros Hcs Hlen HP Ht Hq.
  set (p := vadd (vscale c t) (vscale s q)).
  set (t2 := vadd (vscale (- s) t) (vscale c q)).
  assert (Hp : length p = N) by (unfold p; solve_len).
  assert (Ht2 : length t2 = N) by (unfold t2; solve_len).
  rewrite <- (app_assoc P). cbn [app].
  rewrite (lincomb_app N g0 [x] P [t]) by (done || by repeat constructor).
  rewrite (lincomb_app N g0 [c * x; - s * x] P [p; t2]) by (done || by repeat constructor).
  f_equal. rewrite lincomb_singleton, !lincomb_cons, lincomb_nil_l by done.
  clear Hp Ht2. subst p t2.
  vec_eq N ltac:(idtac; match goal with
                 | |- ?l = _ => transitivity ((c * c + s * s) * l);
                                [rewrite Hcs; ring | ring]
                 end).
Qed.

(** ** Back-substitution *)

Lemma snoc_decompose {A} (l : list A) m :
  length l = S m → ∃ l0 x, l = l0 ++ [x] ∧ length l0 = m.
Proof.
  intros Hl. destruct l as [|a l] using rev_ind; [done|].
  exists l, a. split; [done|]. rewrite length_app in Hl. cbn in Hl. lia.
Qed.

Lemma length_back_substitute cols g : length (back_substitute cols g) = length cols.
Proof.
  revert g. induction cols as [|col cols IH]; intros g; [done|].
  cbn [back_substitute]. rewrite length_app, IH. cbn. lia.
Qed.

Lemma back_substitute_spec N cols g P :
  (∀ j col, cols !! j = Some col →
     length col = S j ∧ default 0 (col !! j) ≠ 0) →
  length g = length cols → length P = length cols →
  Forall (λ v, length v = N) P →
  lincomb N (back_substitute (rev cols) g) (map (λ col, lincomb N col P) cols)
  = lincomb N g P.
Proof.
  revert g P. induction cols as [|col cols0 IH] using rev_ind; intros g P Hcols Hg HP HlenP.
  - destruct g; [|done]. by rewrite !lincomb_nil_l.
  - rewrite length_app in Hg, HP. cbn [length] in Hg, HP.
    set (m := length cols0) in *.
    destruct (snoc_decompose g m) as (g0 & gm & -> & Hg0); [lia|].
    destruct (snoc_decompose P m) as (P0 & pm & -> & HP0); [lia|].
    apply Forall_app in HlenP as [HlenP0 Hpm]. apply (proj1 (Forall_singleton _ _)) in Hpm.
    cbn beta in Hpm.
    destruct (Hcols m col) as [Hlc Hd]; [by rewrite lookup_app_r, Nat.sub_diag by done|].
    destruct (snoc_decompose col m Hlc) as (c0 & d & -> & Hc0).
    rewrite lookup_app_r, Hc0, Nat.sub_diag in Hd by lia. cbn in Hd.
    rewrite rev_unit. cbn [back_substitute]. rewrite length_rev. fold m.
    rewrite !lookup_app_r, Hg0, Hc0, Nat.sub_diag by lia.
    rewrite !take_app_length' by done.
    change (default 0 ([gm] !! 0%nat)) with gm. change (default 0 ([d] !! 0%nat)) with d.
    set (y := gm / d).
    rewrite map_app. cbn [map].
    rewrite lincomb_snoc; cycle 1.
    { by rewrite length_back_substitute, length_rev, length_map. }
    { apply Forall_forall. intros v [col' [-> _]]%list_elem_of_fmap.
      apply length_lincomb. apply Forall_app. split; [done | by constructor]. }
    { apply length_lincomb. apply Forall_app. split; [done | by constructor]. }
    assert (Hmap : map (λ col', lincomb N col' (P0 ++ [pm])) cols0
                   = map (λ col', lincomb N col' P0) cols0).
    { apply map_ext_in. intros col' Hin. apply lincomb_app_r.
      apply list_elem_of_In, list_elem_of_lookup in Hin as [j Hj].
      destruct (Hcols j col') as [Hl _]; [by apply lookup_app_l_Some|].
      apply lookup_lt_Some in Hj. fold m in Hj. lia. }
    rewrite Hmap, IH; [|intros j col' Hj; apply Hcols; by apply lookup_app_l_Some
                       |rewrite length_vsub, length_vscale; fold m; lia|done|done].
    rewrite lincomb_vsub_l, lincomb_vscale_l by (rewrite ?length_vscale; done || lia).
    rewrite !lincomb_snoc by (done || lia).
    assert (Hy : y * d = gm) by (unfold y; field; done).
    rewrite <- Hy.
    pose proof (length_lincomb N g0 P0 HlenP0). pose proof (length_lincomb N c0 P0 HlenP0).
    set (G := lincomb N g0 P0) in *. set (C := lincomb N c0 P0) in *.
    vec_eq N ltac:(ring).
Qed.

(** ** One Arnoldi step preserves the invariants *)

Lemma linear_vsub N L u v :
  linear N L → length u = N → length v = N →
  op_fn L (vsub u v) = vsub (op_fn L u) (op_fn L v).
Proof.
  intros ([_ Hlen] & Hadd & Hsc) Hu Hv.
  replace (vsub u v) with (vadd u (vscale (-1) v)) by (vec_eq N ltac:(ring)).
  rewrite Hadd, Hsc by solve_len.
  pose proof (Hlen u Hu). pose proof (Hlen v Hv).
  set (a := op_fn L u) in *. set (b := op_fn L v) in *.
  vec_eq N ltac:(ring).
Qed.

Lemma last_snoc_decompose (l : list Vector) m :
  length l = S m → l = take m l ++ [default [] (last l)].
Proof.
  intros Hl. destruct (snoc_decompose l m Hl) as (l0 & x & -> & Hl0).
  rewrite last_snoc. cbn. by rewrite take_app_length' by done.
Qed.

Lemma solve_for_vector N d (X Y pn : Vector) :
  d ≠ 0 → length X = N → length Y = N → length pn = N →
  X = vadd Y (vscale d pn) → pn = vscale (/ d) (vsub X Y).
Proof.
  intros Hd HX HY Hp ->. vec_eq N ltac:(field; done).
Qed.

Lemma normalize_remainder N v :
  length v = N →
  v = vscale (norm v)
        (if decide (norm v = 0) then jnp_zeros N else vscale (/ norm v) v).
Proof.
  intros Hv. case_decide as Hn.
  - rewrite vscale_zeros. by apply norm_zero_inv.
  - rewrite vscale_vscale. rewrite <- (vscale_1 v) at 1. apply vscale_ext. by field.
Qed.

Lemma ghost_basis_eq N w q1 qs :
  basis w = q1 :: qs → length (rotations w) = length qs →
  ghost_basis N w = rotate_basis (rotations w) q1 qs.
Proof.
  intros Hb Hl. unfold ghost_basis. rewrite Hb. apply rotate_basis_app_r. lia.
Qed.

Lemma norm_vscale_abs c v : norm (vscale c v) = Rabs c * norm v.
Proof.
  unfold norm. rewrite dot_vscale_l, dot_vscale_r.
  replace (c * (c * dot v v)) with (Rsqr c * dot v v) by (unfold Rsqr; ring).
  rewrite sqrt_mult_alt by apply Rle_0_sqr. by rewrite sqrt_Rsqr_abs.
Qed.

Lemma Forall2_map_eq {X Y Z} (f : X → Z) (g : Y → Z) l k :
  Forall2 (λ x y, f x = g y) l k → map f l = map g k.
Proof. induction 1 as [|x y l k Hxy _ IH]; [done|]. cbn. by rewrite Hxy, IH. Qed.

Section spd_convergence.

Context (p : problem) (r0 : Vector).
Local Abbreviation N := (dimension p).
Local Abbreviation A := (op_fn (sys_operator p)).
Context (Hwf : well_formed p) (Hnone : sys_preconditioner p = None)
        (HA : linear N (sys_operator p))
        (HPD : positive_definite N (sys_operator p)).

(** A vector whose image is the image of a combination of vectors
    orthogonal to it cannot have norm one. *)
Lemma image_not_in_earlier_span qs q z :
  Forall (λ v, length v = N) qs → length q = N →
  Forall (λ u, dot u q = 0) qs → dot q q = 1 →
  span N qs z → A q = A z → False.
Proof using HA HPD.
  intros Hqs Hq Horth Hqq Hz HAz.
  pose proof (span_length N qs z Hqs Hz) as Hlz.
  assert (Hd : dot (vsub q z) q = 1).
  { rewrite dot_vsub_l, Hqq, (span_orth N qs z q) by (done || solve_len). lra. }
  assert (Hne : vsub q z ≠ jnp_zeros N).
  { intros Heq. rewrite Heq, dot_zeros_l in Hd. lra. }
  pose proof (HPD (vsub q z) ltac:(solve_len) Hne) as Hpos.
  rewrite (linear_vsub N) in Hpos by done.
  rewrite HAz, (vsub_self N), dot_zeros_r in Hpos; [lra|].
  destruct HA as ([_ Hl] & _). by apply Hl.
Qed.

Lemma arnoldi_step_inv w w' bd :
  lsq_inv N A r0 w → arnoldi_inv N A w →
  arnoldi_step p w = inr (w', bd) →
  lsq_inv N A r0 w'
  ∧ (bd = false → arnoldi_inv N A w')
  ∧ (bd = true → residual w' = 0)
  ∧ length (triangular w') = S (length (triangular w)).
Proof using All.
  intros (Hlen & Hne & Hrl & Hrn & Hgl & Hmb & HI4 & Hdiag & HI5) (Hbl & Horth & Himg).
  set (m := length (triangular w)) in *.
  (* the basis *)
  destruct (basis w) as [|q1 qs] eqn:Hbasis; [done|].
  assert (Hqs : length qs = m) by (cbn [length] in Hbl; lia).
  rewrite <- Hbasis in *.
  pose proof (ghost_basis_eq N w q1 qs Hbasis ltac:(lia)) as Hghost.
  set (q := default [] (last (basis w))).
  assert (Hq : length q = N) by (apply last_basis_ok; by split).
  pose proof (last_snoc_decompose (basis w) m Hbl) as Hsplit. fold q in Hsplit.
  assert (Hlen_q1 : length q1 = N).
  { rewrite Hbasis in Hlen. by apply Forall_cons in Hlen as [? _]. }
  assert (Hlen_qs : Forall (λ v, length v = N) qs).
  { rewrite Hbasis in Hlen. by apply Forall_cons in Hlen as [_ ?]. }
  assert (Hlen_take : Forall (λ v, length v = N) (take m (basis w))) by by apply Forall_take.
  assert (HAlen : ∀ u, length u = N → length (A u) = N) by apply HA.
  pose proof Horth as Horth'. rewrite Hsplit in Horth'.
  apply orthonormal_snoc_inv in Horth' as (Horth_take & Hperp_q & Hqq).
  (* the rotated basis so far *)
  pose proof (rotate_basis_length N (rotations w) q1 qs Hlen_q1 Hlen_qs) as (HPl & HPlen & Htlen).
  rewrite <- Hghost in HPl, HPlen, Htlen.
  set (P := (ghost_basis N w).1) in *. set (t := (ghost_basis N w).2) in *.
  assert (HPm : length P = m) by lia.
  (* the Arnoldi step *)
  unfold arnoldi_step, arnoldi. rewrite effective_apply_plain by done.
  cbn [mbind error_bind]. fold q.
  pose proof (mgs_spec N (basis w) (A q) Hlen Horth (HAlen q Hq))
    as (Hhs & Hv & Hdec & Hperp).
  destruct (mgs (basis w) (A q)) as [hs v]. cbn [fst snd] in Hhs, Hv, Hdec, Hperp.
  cbn [mbind error_bind].
  set (h := norm v).
  set (qn := if decide (h = 0) then jnp_zeros N else vscale (/ h) v).
  assert (Hqn : length qn = N) by (unfold qn; case_decide; solve_len).
  assert (Hvqn : v = vscale h qn) by (by apply normalize_remainder).
  destruct hs as [|a hs']; [rewrite Hbl in Hhs; done|].
  assert (Hhs' : length hs' = m) by (cbn [length] in Hhs; lia).
  assert (Hcol : A q = vadd (vscale a q1) (lincomb N (hs' ++ [h]) (qs ++ [qn]))).
  { rewrite Hdec at 1. rewrite Hbasis, lincomb_cons, lincomb_snoc by (done || lia).
    rewrite <- vadd_assoc. by rewrite <- Hvqn. }
  pose proof (rotate_column_spec N (rotations w) q1 (qs ++ [qn]) a (hs' ++ [h]) Hrn Hlen_q1)
    as Hrot.
  destruct Hrot as (Hcs & (rc0 & a' & b & Hrcol & Hrc0 & Hlast & Hgiv) & Hvec).
  { apply Forall_app. split; [done | by constructor]. }
  { rewrite length_app. cbn. lia. }
  { rewrite length_app. cbn. lia. }
  rewrite last_snoc in Hlast. injection Hlast as <-.
  change ((a :: hs') ++ [h]) with (a :: (hs' ++ [h])).
  destruct (rotate_column (rotations w) (a :: hs' ++ [h])) as [rcol cs].
  cbn [fst snd] in Hcs, Hrcol, Hgiv, Hvec.
  destruct cs as [c s]. unfold normalized in Hcs. cbn [fst snd] in Hcs, Hrcol, Hgiv.
  rewrite (rotate_basis_snoc (rotations w) c s q1 qs qn) in Hvec by lia.
  rewrite <- Hghost in Hvec. cbn [fst] in Hvec. fold P t in Hvec.
  rewrite <- Hcol in Hvec.
  set (pn := vadd (vscale c t) (vscale s qn)) in *.
  set (t2 := vadd (vscale (- s) t) (vscale c qn)).
  set (d := c * a' + s * h) in *.
  assert (Hpn : length pn = N) by (unfold pn; solve_len).
  assert (Ht2 : length t2 = N) by (unfold t2; solve_len).
  (* the new column, split at its diagonal element *)
  assert (Hsplit_col : A q = vadd (lincomb N rc0 P) (vscale d pn)).
  { rewrite Hvec, Hrcol. apply lincomb_snoc; (done || lia). }
  destruct (image_span_lincomb N (sys_operator p) (take m (basis w)) rc0 P HA Hlen_take Himg)
    as (z0 & Hz0 & Himg0).
  assert (Hd : d ≠ 0).
  { destruct (decide (h = 0)) as [Hh|Hh].
    - intros Hd0. rewrite Hd0, vscale_0, Hpn, Himg0 in Hsplit_col.
      rewrite (vadd_zeros_r N) in Hsplit_col
        by (apply HAlen; by apply (span_length N (take m (basis w)))).
      by apply (image_not_in_earlier_span (take m (basis w)) q z0).
    - unfold d. replace c with (givens a' h).1 by (by rewrite <- Hgiv).
      replace s with (givens a' h).2 by (by rewrite <- Hgiv).
      by apply givens_diagonal_nonzero. }
  (* the right-hand side *)
  destruct (snoc_decompose (rhs w) m Hgl) as (g0 & x & Hrhs & Hg0).
  intros [= <- <-].
  set (w' := MkKrylov _ _ _ _ _).
  assert (Hghost' : ghost_basis N w' = (P ++ [pn], t2)).
  { unfold ghost_basis, w'. cbn [basis rotations].
    assert (Hgoal : rotate_basis (rotations w ++ [(c, s)]) q1 (qs ++ [qn]) = (P ++ [pn], t2)).
    { rewrite rotate_basis_snoc by lia. by rewrite <- Hghost. }
    case_bool_decide as Hh.
    - rewrite Hbasis. unfold qn in Hgoal. by rewrite decide_True in Hgoal by done.
    - rewrite Hbasis. cbn [app]. rewrite rotate_basis_app_r
        by (rewrite !length_app; cbn; lia).
      unfold qn in Hgoal. by rewrite decide_False in Hgoal by done. }
  assert (Htri' : length (triangular w') = S m).
  { unfold w'. cbn [triangular]. rewrite length_app. cbn. lia. }
  split; [|split; [|split; [|exact Htri']]].
  - (* the least-squares invariant *)
    unfold lsq_inv. rewrite Htri', Hghost'. cbn [fst snd].
    unfold w'. cbn [basis rotations triangular rhs].
    split; [|split; [|split; [|split; [|split; [|split; [|split; [|split]]]]]]].
    + case_bool_decide; [done|]. apply Forall_app. split; [done|].
      constructor; [solve_len | done].
    + case_bool_decide; [done|]. by intros [? _]%app_eq_nil.
    + rewrite length_app. cbn. lia.
    + apply Forall_app. split; [done|]. constructor; [|done]. exact Hcs.
    + rewrite Hrhs, rotate_rhs_snoc, !length_app. cbn. lia.
    + case_bool_decide; [lia|]. rewrite length_app. cbn. lia.
    + assert (Htake : take (S m) (if bool_decide (h = 0) then basis w
                                  else basis w ++ [vscale (/ h) v])
                      = take m (basis w) ++ [q]).
      { case_bool_decide.
        - rewrite take_ge by lia. exact Hsplit.
        - rewrite take_app_length' by done. exact Hsplit. }
      rewrite Htake. apply Forall2_app.
      * apply Forall2_same_length_lookup. split; [by apply Forall2_length in HI4|].
        intros j u col Hu Hc.
        rewrite (Forall2_lookup_lr _ _ _ _ _ _ HI4 Hu Hc) at 1.
        symmetry. apply lincomb_app_r.
        destruct (Hdiag j col Hc) as [-> _]. apply lookup_lt_Some in Hc. fold m in Hc. lia.
      * constructor; [exact Hvec | constructor].
    + intros j col Hj. destruct (decide (j < m)%nat) as [Hlt|Hge].
      * rewrite lookup_app_l in Hj by done. by apply Hdiag.
      * pose proof (lookup_lt_Some _ _ _ Hj) as Hb. rewrite length_app in Hb. cbn in Hb.
        assert (j = m) as -> by (fold m in Hb; lia).
        rewrite lookup_app_r, Nat.sub_diag in Hj by done. injection Hj as <-.
        rewrite Hrcol, length_app, lookup_app_r, Hrc0, Hrl, Nat.sub_diag by lia.
        cbn. split; [lia | done].
    + rewrite HI5, Hrhs, rotate_rhs_snoc. cbn [fst snd].
      apply (rotate_rhs_spec N c s g0 x P t qn); (done || lia).
  - (* the Arnoldi invariant *)
    intros Hbd. unfold arnoldi_inv. rewrite Htri', Hghost'. cbn [fst].
    unfold w' in *. cbn [basis] in *.
    assert (Hh : h ≠ 0) by (by apply bool_decide_eq_false in Hbd).
    rewrite Hbd. split; [|split].
    + rewrite length_app. cbn. lia.
    + apply orthonormal_snoc; [done| |by apply dot_normalized].
      eapply Forall_impl; [exact Hperp|]. intros u Hu. cbn in Hu.
      rewrite dot_vscale_r, Hu. lra.
    + rewrite take_app_length' by done. apply Forall_app. split.
      * eapply Forall_impl; [exact Himg|]. intros pi (z & Hz & ->).
        exists z. split; [|done]. eapply span_mono; [|exact Hz].
        apply subseteq_take.
      * constructor; [|done].
        assert (Hqspan : span N (basis w) q).
        { apply span_elem. rewrite Hsplit. apply elem_of_app. right. by constructor. }
        assert (Hz0' : span N (basis w) z0).
        { eapply span_mono; [|exact Hz0]. apply subseteq_take. }
        exists (vscale (/ d) (vsub q z0)). split.
        -- apply span_scale. by apply span_sub.
        -- destruct HA as (_ & _ & Hsc).
           pose proof (span_length N (take m (basis w)) z0 Hlen_take Hz0) as Hlz.
           rewrite Hsc, (linear_vsub N), <- Himg0 by (done || solve_len).
           apply (solve_for_vector N); try done; [by apply HAlen | by apply length_lincomb].
  - (* a breakdown ends with a zero residual *)
    intros Hbd. apply bool_decide_eq_true in Hbd.
    unfold residual, w'. cbn [rhs]. rewrite Hrhs, rotate_rhs_snoc. cbn [fst snd].
    replace (g0 ++ [c * x; - s * x]) with ((g0 ++ [c * x]) ++ [- s * x])
      by (by rewrite <- app_assoc).
    rewrite last_snoc. cbn.
    assert (Hs : s = 0).
    { assert (Hgiv0 : (c, s) = givens a' 0) by (by rewrite Hgiv, Hbd).
      replace s with (givens a' 0).2 by (by rewrite <- Hgiv0).
      apply givens_breakdown. rewrite <- Hgiv0. cbn [fst snd].
      unfold d in Hd. by rewrite Hbd in Hd. }
    rewrite Hs. replace (- 0 * x) with 0 by ring. apply Rabs_R0.
Qed.


(** The candidate solution of a working set: its true residual is the
    pending rotated vector scaled by the last entry of the right-hand
    side. *)
Lemma candidate_true_residual w :
  initial_residual p = inr r0 → lsq_inv N A r0 w →
  ∃ x, candidate p w = inr x ∧ length x = N
       ∧ vsub (sys_rhs p) (A x)
         = vscale (default 0 (last (rhs w))) (ghost_basis N w).2.
Proof using Hwf Hnone HA.
  intros Hr0 (Hlen & Hne & Hrl & Hrn & Hgl & Hmb & HI4 & Hdiag & HI5).
  set (m := length (triangular w)) in *.
  assert (HAlen : ∀ u, length u = N → length (A u) = N) by apply HA.
  pose proof (length_start p Hwf) as Hx0.
  assert (Hb : length (sys_rhs p) = N) by (by destruct Hwf as (_ & ? & _)).
  (* the initial residual *)
  unfold initial_residual, precondition_left in Hr0. rewrite Hnone in Hr0.
  destruct (apply_conforming p (sys_operator p) (start p)) as [E _]; [apply Hwf | done |].
  rewrite E in Hr0. cbn [mbind error_bind] in Hr0. injection Hr0 as Hr0.
  (* the rotated basis *)
  destruct (basis w) as [|q1 qs] eqn:Hbasis; [done|]. rewrite <- Hbasis in *.
  assert (Hlen_q1 : length q1 = N).
  { rewrite Hbasis in Hlen. by apply Forall_cons in Hlen as [? _]. }
  assert (Hlen_qs : Forall (λ v, length v = N) (qs ++ [jnp_zeros N])).
  { rewrite Hbasis in Hlen. apply Forall_cons in Hlen as [_ ?].
    apply Forall_app. split; [done|]. constructor; [apply length_jnp_zeros | done]. }
  pose proof (rotate_basis_length N (rotations w) q1 (qs ++ [jnp_zeros N]) Hlen_q1 Hlen_qs)
    as (HPl & HPlen & Htlen).
  assert (Hg : ghost_basis N w = rotate_basis (rotations w) q1 (qs ++ [jnp_zeros N])).
  { unfold ghost_basis. by rewrite Hbasis. }
  rewrite <- Hg in HPl, HPlen, Htlen.
  set (P := (ghost_basis N w).1) in *. set (t := (ghost_basis N w).2) in *.
  assert (HPm : length P = m).
  { rewrite HPl, length_app, Hrl. cbn [length]. rewrite Hbasis in Hmb. cbn [length] in Hmb. lia. }
  (* the candidate *)
  unfold candidate, precondition_right. rewrite Hnone. cbn [mbind error_bind]. fold m.
  set (y := back_substitute (rev (triangular w)) (take m (rhs w))).
  assert (Hy : length y = m) by (unfold y; by rewrite length_back_substitute, length_rev).
  set (z := lincomb N y (basis w)).
  assert (Hz : length z = N) by (by apply length_lincomb).
  exists (vadd (start p) z). split; [done|]. split; [solve_len|].
  destruct (snoc_decompose (rhs w) m Hgl) as (g0 & x & Hrhs & Hg0).
  assert (HAz : A z = lincomb N g0 P).
  { unfold z. rewrite (op_lincomb N) by done.
    rewrite <- (take_drop m (basis w)) at 1. rewrite map_app.
    rewrite lincomb_app_r by (rewrite length_map, length_take; lia).
    rewrite (Forall2_map_eq A (λ col, lincomb N col P) _ _ HI4).
    unfold y. rewrite Hrhs, take_app_length' by done.
    apply back_substitute_spec; try done; lia. }
  destruct HA as (_ & Hadd & _). rewrite Hadd, HAz by done.
  rewrite Hrhs, last_snoc. cbn [default from_option]. 
  assert (Hr0' : r0 = vadd (lincomb N g0 P) (vscale x t)).
  { rewrite HI5, Hrhs. apply lincomb_snoc; (done || lia). }
  assert (Hbeq : sys_rhs p = vadd (A (start p)) r0).
  { rewrite <- Hr0. symmetry. apply (vadd_vsub_cancel N); [done | by apply HAlen]. }
  rewrite Hbeq, Hr0'.
  pose proof (HAlen (start p) Hx0) as Hl1.
  pose proof (length_lincomb N g0 P HPlen) as Hl2.
  set (a0 := A (start p)) in *. set (G := lincomb N g0 P) in *.
  vec_eq (dimension p) ltac:(unfold Datatypes.id; ring).
Qed.


Lemma result_true_residual st w k :
  initial_residual p = inr r0 → lsq_inv N A r0 w →
  arnoldi_inv N A w ∨ residual w = 0 →
  ∃ x, result p st w k
       = inr (MkResult x (bool_decide (st = CONVERGED)) k (residual w) st)
       ∧ norm (vsub (sys_rhs p) (A x)) = residual w.
Proof using Hwf Hnone HA.
  intros Hr0 Hlsq Hcase.
  destruct (candidate_true_residual w Hr0 Hlsq) as (x & Hx & Hlen & Hres).
  exists x. unfold result. rewrite Hx. split; [done|].
  rewrite Hres, norm_vscale_abs. unfold residual.
  destruct Hcase as [(Hbl & Horth & _)|Hzero].
  - destruct Hlsq as (Hl & Hne & Hrl & Hrn & _).
    destruct (basis w) as [|q1 qs] eqn:Hbasis; [done|]. rewrite <- Hbasis in *.
    assert (Hqs : length (rotations w) = length qs).
    { rewrite Hbasis in Hbl. cbn [length] in Hbl. lia. }
    rewrite (ghost_basis_eq N w q1 qs Hbasis Hqs).
    rewrite Hbasis in Hl, Horth.
    pose proof (rotate_basis_pending_unit N (rotations w) q1 qs Hrn Hl Horth) as Hunit.
    unfold norm. rewrite Hunit, sqrt_1. lra.
  - unfold residual in Hzero. rewrite Hzero. lra.
Qed.

Lemma iterate_spd remaining k w :
  initial_residual p = inr r0 → 0 <= tolerance p →
  lsq_inv N A r0 w → arnoldi_inv N A w → length (triangular w) = k →
  (N ≤ k + remaining)%nat →
  ∃ r, iterate p remaining k w = inr r
       ∧ result_status r = CONVERGED ∧ converged r = true
       ∧ (iterations r ≤ N)%nat
       ∧ residual_norm r <= tolerance p
       ∧ norm (vsub (sys_rhs p) (A (solution r))) = residual_norm r.
Proof using All.
  intros Hr0 Htol. revert k w.
  induction remaining as [|rem IH]; intros k w Hlsq Harn Hk HN.
  - exfalso. destruct Harn as (Hbl & Horth & _).
    pose proof (orthonormal_length N (basis w) ltac:(apply Hlsq) Horth). lia.
  - assert (Hok : basis_ok N w) by (split; apply Hlsq).
    destruct (arnoldi_step_ok p Hwf w Hok) as (w' & bd & Hstep & Hok').
    destruct (arnoldi_step_inv w w' bd Hlsq Harn Hstep) as (Hlsq' & Harn' & Hbd & Htri).
    assert (HkN : (S k ≤ N)%nat).
    { destruct Harn as (Hbl & Horth & _).
      pose proof (orthonormal_length N (basis w) ltac:(apply Hlsq) Horth). lia. }
    cbn [iterate]. rewrite Hstep. cbn [mbind error_bind].
    assert (Hcase : arnoldi_inv N A w' ∨ residual w' = 0).
    { destruct bd; [right | left]; auto. }
    destruct (Rle_dec (residual w') (tolerance p)) as [Hle|Hgt].
    + destruct (result_true_residual CONVERGED w' (S k) Hr0 Hlsq' Hcase) as (x & -> & Hx).
      eexists. split; [reflexivity|]. cbn. repeat split; try done.
    + destruct bd.
      * rewrite (Hbd eq_refl) in Hgt. lra.
      * apply IH; auto; lia.
Qed.

(** The initial working set satisfies the invariants when the initial
    residual does not vanish. *)
Lemma init_invariants :
  initial_residual p = inr r0 → length r0 = N → norm r0 ≠ 0 →
  let w := MkKrylov [vscale (/ norm r0) r0] [] [] [] [norm r0] in
  lsq_inv N A r0 w ∧ arnoldi_inv N A w.
Proof.
  intros Hr0 Hlen Hn w.
  assert (Hq : length (vscale (/ norm r0) r0) = N) by solve_len.
  split.
  - unfold lsq_inv, ghost_basis, w. cbn [basis rotations triangular rhs length app rotate_basis fst snd].
    split; [by constructor|]. split; [done|]. split; [done|]. split; [constructor|].
    split; [done|]. split; [lia|]. split; [constructor|]. split; [done|].
    rewrite lincomb_singleton, vscale_vscale by done.
    rewrite <- (vscale_1 r0) at 1. apply vscale_ext. by field.
  - unfold arnoldi_inv, ghost_basis, w. cbn [basis rotations triangular length app rotate_basis fst snd].
    repeat split; try done. by apply dot_normalized.
Qed.

Lemma solve_spd :
  initial_residual p = inr r0 →
  0 <= tolerance p → (N ≤ max_steps (sys_solver p))%nat →
  ∃ r, solve p = inr r
       ∧ result_status r = CONVERGED ∧ converged r = true
       ∧ (iterations r ≤ N)%nat
       ∧ residual_norm r <= tolerance p
       ∧ norm (vsub (sys_rhs p) (A (solution r))) = residual_norm r.
Proof using Hwf Hnone HA HPD.
  intros Hr0 Htol Hmax.
  destruct (init_ok p Hwf) as (r0' & Hr0' & Hlen & Hinit).
  rewrite Hr0 in Hr0'. injection Hr0' as <-.
  unfold solve. rewrite Hinit. cbn [mbind error_bind].
  destruct (Rle_dec (norm r0) (tolerance p)) as [Hle|Hgt].
  - eexists. split; [reflexivity|]. cbn. repeat split; try done; try lia.
    f_equal. unfold initial_residual, precondition_left in Hr0. rewrite Hnone in Hr0.
    destruct (apply_conforming p (sys_operator p) (start p)) as [E _];
      [apply Hwf | by apply length_start |].
    rewrite E in Hr0. cbn [mbind error_bind] in Hr0. by injection Hr0.
  - assert (Hn : norm r0 ≠ 0) by lra.
    destruct (init_invariants Hr0 Hlen Hn) as [Hlsq Harn].
    apply iterate_spd; done.
Qed.

End spd_convergence.

(** ** Dense operators *)

Lemma dense_operator_linear N matrix tags :
  length matrix = N → Forall (λ row, length row = N) matrix →
  linear N (dense_operator matrix tags).
Proof.
  intros Hrows Hcols. split; [split|split]; cbn [dense_operator op_shape op_fn].
  - f_equal; [done|]. destruct Hcols as [|row rows Hrow _]; [done|]. exact Hrow.
  - intros v _. by rewrite length_map.
  - intros u v Hu Hv. clear Hrows Hcols.
    induction matrix as [|row rows IH]; [done|].
    cbn [map]. change (vadd (?a :: ?l) (?b :: ?k)) with ((a + b) :: vadd l k).
    rewrite IH, dot_vadd_r by congruence. done.
  - intros c v _. unfold vscale. rewrite <- list_fmap_compose.
    apply list_fmap_ext. intros _ row _. cbn. apply dot_vscale_r.
Qed.

Lemma gmres_spd_converges (matrix : list Vector) (tags : list tag) (N : nat)
    (b : Vector) (x0 : option Vector) (solver : GMRESSolver) :
  length matrix = N → Forall (λ row, length row = N) matrix →
  positive_definite N (dense_operator matrix tags) →
  length b = N → (∀ x, x0 = Some x → length x = N) →
  0 <= atol solver → 0 <= rtol solver → (N ≤ max_steps solver)%nat →
  ∃ r, solve (MkProblem (dense_operator matrix tags) b x0 solver None) = inr r
       ∧ result_status r = CONVERGED ∧ converged r = true
       ∧ (iterations r ≤ N)%nat
       ∧ residual_norm r <= atol solver + rtol solver * norm b
       ∧ norm (vsub b (op_fn (dense_operator matrix tags) (solution r)))
         = residual_norm r.
Proof.
  intros <- Hcols HPD Hb Hx0 Hatol Hrtol Hmax.
  set (p := MkProblem (dense_operator matrix tags) b x0 solver None).
  pose proof (dense_operator_linear (length matrix) matrix tags eq_refl Hcols) as Hlin.
  assert (Hwf : well_formed p).
  { split; [apply Hlin|]. split; [done|]. split; [done|]. done. }
  destruct (initial_residual_ok p Hwf) as (r0 & Hr0 & _).
  assert (Htol : 0 <= tolerance p).
  { unfold tolerance. cbn [p sys_solver sys_rhs]. pose proof (norm_nonneg b). nra. }
  exact (solve_spd p r0 Hwf eq_refl Hlin HPD Hr0 Htol Hmax).
Qed.

(** The solver on the one-dimensional system [2 x = 1] with zero
    tolerances: it converges within one iteration to [x = 1/2]. *)
Example solve_one_by_one :
  ∃ r, solve (MkProblem (dense_operator [[2]] []) [1] None (MkGMRES 0 0 1) None) = inr r
       ∧ result_status r = CONVERGED ∧ (iterations r ≤ 1)%nat
       ∧ solution r = [1 / 2].
Proof.
  assert (HPD : positive_definite 1 (dense_operator [[2]] [])).
  { intros [|x [|? ?]] Hlen Hnz; try discriminate.
    revert Hnz. eval_arrays. intros Hnz.
    assert (x ≠ 0) by (intros ->; apply Hnz; reflexivity). nra. }
  destruct (gmres_spd_converges [[2]] [] 1 [1] None (MkGMRES 0 0 1))
    as (r & Hr & Hst & _ & Hit & Hres & Htrue);
    try done; try (cbn; lra); try (by repeat constructor).
  exists r. split; [done|]. split; [done|]. split; [done|].
  pose proof (dense_operator_linear 1 [[2]] [] eq_refl ltac:(by repeat constructor)) as Hlin.
  destruct (solve_ok (MkProblem (dense_operator [[2]] []) [1] None (MkGMRES 0 0 1) None))
    as (r' & Hr' & Hlen & _).
  { split; [apply Hlin|]. split; [done|]. split; [done|]. done. }
  rewrite Hr in Hr'. injection Hr' as <-.
  cbn in Hlen. destruct (solution r) as [|x [|? ?]] eqn:Hsol; try discriminate.
  rewrite <- Htrue in Hres. cbn [atol rtol] in Hres.
  assert (Hz : norm (vsub [1] (op_fn (dense_operator [[2]] []) [x])) = 0).
  { pose proof (norm_nonneg (vsub [1] (op_fn (dense_operator [[2]] []) [x]))). lra. }
  apply (norm_zero_inv 1) in Hz; [|reflexivity].
  revert Hz. eval_arrays. intros [= Hz]. f_equal. lra.
Qed.

(** ** A budget smaller than the dimension *)

Lemma givens_sine_nonzero a b : b ≠ 0 → (givens a b).2 ≠ 0.
Proof.
  intros Hb. unfold givens. set (rho := sqrt (a * a + b * b)).
  assert (Hrho : rho ≠ 0).
  { intros H. apply sqrt_eq_0 in H; nra. }
  rewrite decide_False by done. cbn [snd]. intros H.
  apply Hb. apply (Rmult_eq_reg_r (/ rho)); [|by apply Rinv_neq_0_compat].
  unfold Rdiv in H. lra.
Qed.

(** The first iteration, from the initial working set. *)
Lemma arnoldi_step_first p q beta :
  well_formed p → sys_preconditioner p = None → length q = dimension p →
  let Aq := op_fn (sys_operator p) q in
  let v := vsub Aq (vscale (dot Aq q) q) in
  let cs := givens (dot Aq q) (norm v) in
  ∃ w', arnoldi_step p (MkKrylov [q] [] [] [] [beta])
        = inr (w', bool_decide (norm v = 0))
        ∧ rhs w' = [cs.1 * beta; - cs.2 * beta].
Proof.
  intros Hwf Hnone Hq Aq v cs. unfold arnoldi_step, arnoldi. cbn [basis last default from_option].
  change (Datatypes.id q) with q.
  rewrite effective_apply_plain by done. cbn [mbind error_bind mgs app rotations rotate_column].
  fold Aq v cs. eexists. split; [reflexivity|]. done.
Qed.

Lemma budget_example_spd :
  symmetric 2 (dense_operator [[1; 0]; [0; 2]] [])
  ∧ positive_definite 2 (dense_operator [[1; 0]; [0; 2]] []).
Proof.
  split.
  - intros [|u1 [|u2 [|? ?]]] [|v1 [|v2 [|? ?]]] Hu Hv; try done.
    eval_arrays. ring.
  - intros [|v1 [|v2 [|? ?]]] Hv Hne; try done.
    assert (v1 ≠ 0 ∨ v2 ≠ 0) as Hnz.
    { destruct (decide (v1 = 0)) as [->|]; [|by left].
      destruct (decide (v2 = 0)) as [->|]; [|by right]. done. }
    eval_arrays. destruct Hnz; nra.
Qed.

Lemma budget_example_run :
  let p := MkProblem (dense_operator [[1; 0]; [0; 2]] []) [1; 1] None (MkGMRES 0 0 1) None in
  ∃ r, solve p = inr r
       ∧ result_status r = MAX_STEPS_REACHED
       ∧ iterations r = 1%nat
       ∧ tolerance p < residual_norm r.
Proof.
  intros p.
  pose proof (dense_operator_linear 2 [[1; 0]; [0; 2]] [] eq_refl
                ltac:(by repeat constructor)) as Hlin.
  assert (Hwf : well_formed p).
  { split; [apply Hlin|]. split; [done|]. split; [done|]. done. }
  assert (Htol : tolerance p = 0) by (unfold tolerance; cbn; lra).
  (* INIT *)
  assert (Hr0 : initial_residual p = inr [1; 1]).
  { eval_arrays. f_equal. f_equal; [lra | f_equal; lra]. }
  destruct (init_ok p Hwf) as (r0 & Hr0' & _ & Hinit).
  rewrite Hr0 in Hr0'. injection Hr0' as <-.
  set (beta := norm [1; 1]) in *.
  assert (Hbeta2 : beta * beta = 2).
  { unfold beta. rewrite norm_sqr. unfold dot. cbn. lra. }
  assert (Hbeta : 0 < beta).
  { pose proof (norm_nonneg [1; 1]). fold beta in H. nra. }
  unfold solve. rewrite Hinit. cbn [mbind error_bind].
  destruct (Rle_dec beta (tolerance p)) as [Hle|_]; [lra|].
  (* the first iteration *)
  set (q := vscale (/ beta) [1; 1]).
  destruct (arnoldi_step_first p q beta Hwf eq_refl ltac:(done)) as (w' & Hstep & Hrhs).
  set (Aq := op_fn (sys_operator p) q) in *.
  set (v := vsub Aq (vscale (dot Aq q) q)) in *.
  assert (Hv : norm v ≠ 0).
  { intros Hn. apply (norm_zero_inv 2) in Hn; [|done].
    unfold v, Aq, q in Hn. cbn in Hn. unfold dot in Hn. cbn in Hn.
    injection Hn as H1 H2.
    assert (Hx : / beta = 0).
    { transitivity
        ((0 * (/ beta * 1) + (2 * (/ beta * 1) + 0)
          - ((1 * (/ beta * 1) + (0 * (/ beta * 1) + 0)) * (/ beta * 1)
             + ((0 * (/ beta * 1) + (2 * (/ beta * 1) + 0)) * (/ beta * 1) + 0))
            * (/ beta * 1))
         - (1 * (/ beta * 1) + (0 * (/ beta * 1) + 0)
            - ((1 * (/ beta * 1) + (0 * (/ beta * 1) + 0)) * (/ beta * 1)
               + ((0 * (/ beta * 1) + (2 * (/ beta * 1) + 0)) * (/ beta * 1) + 0))
              * (/ beta * 1))); [ring|].
      rewrite H1, H2. ring. }
    by apply (Rinv_neq_0_compat beta) in Hx; [|lra]. }
  cbn [max_steps sys_solver p iterate]. rewrite Hstep. cbn [mbind error_bind].
  rewrite bool_decide_false by done.
  assert (Hres : 0 < residual w').
  { unfold residual. rewrite Hrhs.
    change (default 0 (last [?a; ?b])) with b.
    apply Rabs_pos_lt. pose proof (givens_sine_nonzero (dot Aq q) (norm v) Hv) as Hs.
    intros H0. apply Hs.
    assert (Hm : (givens (dot Aq q) (norm v)).2 * beta = 0) by lra.
    apply Rmult_integral in Hm as [?|?]; [done | lra]. }
  destruct (Rle_dec (residual w') (tolerance p)) as [Hle|_]; [lra|].
  assert (Hok : basis_ok (dimension p) w').
  { destruct (arnoldi_step_ok p Hwf (MkKrylov [q] [] [] [] [beta])) as (w1 & bd & Hs1 & Hok1).
    - split; [|done]. by repeat constructor.
    - rewrite Hstep in Hs1. by injection Hs1 as <- _. }
  destruct (result_ok p Hwf MAX_STEPS_REACHED w' 1 Hok) as (x & _ & _ & ->).
  eexists. split; [reflexivity|]. cbn [result_status iterations residual_norm].
  repeat split. lra.
Qed.

Lemma GMRES_valid atol0 rtol0 steps solver :
  GMRES atol0 rtol0 steps = inr solver →
  solver = MkGMRES atol0 rtol0 steps ∧ 0 <= atol0 ∧ 0 <= rtol0 ∧ (0 < steps)%nat.
Proof.
  unfold GMRES. case_decide; [done|].
  destruct (Rlt_dec atol0 0); [done|]. destruct (Rlt_dec rtol0 0); [done|].
  intros [= <-]. repeat split; try lra. lia.
Qed.

Lemma GMRES_accepts atol0 rtol0 steps :
  0 <= atol0 → 0 <= rtol0 → (0 < steps)%nat →
  GMRES atol0 rtol0 steps = inr (MkGMRES atol0 rtol0 steps).
Proof.
  intros Ha Hr Hs. unfold GMRES. rewrite decide_False by lia.
  destruct (Rlt_dec atol0 0); [lra|]. destruct (Rlt_dec rtol0 0); [lra|]. done.
Qed.

(** ** The solution returned by a solve is a GMRES iterate *)

Lemma result_candidate p st w k r :
  result p st w k = inr r →
  candidate p w = inr (solution r) ∧ iterations r = k.
Proof.
  unfold result. destruct (candidate p w) as [e|x]; [done|].
  cbn [mbind error_bind]. by intros [= <-].
Qed.

Lemma iterate_returns_run p remaining k w r :
  iterate p remaining k w = inr r →
  (k ≤ iterations r)%nat
  ∧ ∃ wk, arnoldi_run p (iterations r - k) w = inr wk
          ∧ candidate p wk = inr (solution r).
Proof.
  revert k w. induction remaining as [|rem IH]; intros k w; cbn [iterate].
  - intros [Hc ->]%result_candidate. split; [done|].
    exists w. by rewrite Nat.sub_diag.
  - destruct (arnoldi_step p w) as [e|[w' bd]] eqn:Hstep; [done|].
    cbn [mbind error_bind].
    assert (Hone : ∀ st, result p st w' (S k) = inr r →
              (bd = true ∨ st = CONVERGED) →
              (k ≤ iterations r)%nat
              ∧ ∃ wk, arnoldi_run p (iterations r - k) w = inr wk
                      ∧ candidate p wk = inr (solution r)).
    { intros st [Hc Hit]%result_candidate _. rewrite Hit. split; [lia|].
      exists w'. replace (S k - k)%nat with 1%nat by lia.
      cbn [arnoldi_run]. rewrite Hstep. cbn [mbind error_bind]. by destruct bd. }
    destruct (Rle_dec (residual w') (tolerance p)) as [Hle|Hgt].
    + intros Hr. apply (Hone CONVERGED Hr). by right.
    + destruct bd.
      * intros Hr. apply (Hone BREAKDOWN Hr). by left.
      * intros Hr. destruct (IH (S k) w' Hr) as (Hk & wk & Hrun & Hc).
        split; [lia|]. exists wk. split; [|done].
        replace (iterations r - k)%nat with (S (iterations r - S k)) by lia.
        cbn [arnoldi_run]. rewrite Hstep. cbn [mbind error_bind]. exact Hrun.
Qed.

Lemma solve_returns_iterate p r :
  well_formed p →
  (∀ M, sys_preconditioner p = Some (M, Right) →
        op_fn M (jnp_zeros (dimension p)) = jnp_zeros (dimension p)) →
  solve p = inr r → gmres_iterate p (iterations r) = inr (solution r).
Proof.
  intros Hwf HM. destruct (init_ok p Hwf) as (r0 & Hr0 & Hlen & Hinit).
  unfold solve, gmres_iterate. rewrite Hinit. cbn [mbind error_bind].
  destruct (Rle_dec (norm r0) (tolerance p)) as [Hle|Hgt].
  - intros [= <-]. cbn [iterations solution arnoldi_run mbind error_bind].
    unfold candidate. cbn [triangular rev length back_substitute].
    rewrite lincomb_nil_l.
    assert (Hz : precondition_right p (jnp_zeros (dimension p))
                 = inr (jnp_zeros (dimension p))).
    { unfold precondition_right.
      destruct (sys_preconditioner p) as [[M [|]]|] eqn:E; try done.
      destruct Hwf as (_ & _ & _ & HMc).
      destruct (apply_conforming p M (jnp_zeros (dimension p)) (HMc M Right E))
        as [-> _]; [apply length_jnp_zeros|].
      by rewrite HM. }
    rewrite Hz. cbn [mbind error_bind]. f_equal.
    apply (vadd_zeros_r (dimension p)). by apply length_start.
  - intros Hr. destruct (iterate_returns_run p _ 0 _ r Hr) as (_ & wk & Hrun & Hc).
    rewrite Nat.sub_0_r in Hrun. rewrite Hrun. done.
Qed.

(** With the Jacobi preconditioner of the Poisson operator, a solve that
    uses as many iterations as the plain solve returns the same
    solution, hence the same residual. *)
Lemma poisson_jacobi_same_solution n m A b x0 solver s r r' :
  (0 < n)%nat → (0 < m)%nat → poisson n m = Some A →
  length b = (n * m)%nat → (∀ x, x0 = Some x → length x = (n * m)%nat) →
  let p := MkProblem (sparse_operator A []) b x0 solver None in
  let M := scalar_operator (n * m) (/ 4) [positive_semidefinite_tag] in
  solve p = inr r → solve (with_preconditioner p M s) = inr r' →
  iterations r' = iterations r →
  solution r' = solution r.
Proof.
  intros Hn Hm HA Hb Hx0 p M Hr Hr' Hit.
  destruct (poisson_denotation n m Hn Hm) as (A' & HA' & Hs & _).
  rewrite HA in HA'. injection HA' as <-.
  pose proof (sparse_operator_linear A (n * m) [] Hs) as Hlin.
  assert (Hdim : dimension p = (n * m)%nat).
  { unfold dimension. cbn [p sys_operator sparse_operator op_shape]. by rewrite Hs. }
  assert (Hwf : well_formed p).
  { unfold well_formed. rewrite Hdim. split; [apply Hlin|]. done. }
  assert (HMc : conforming (dimension p) M).
  { rewrite Hdim. apply scalar_operator_linear. }
  pose proof (with_preconditioner_well_formed p M s Hwf HMc) as Hwf'.
  apply solve_returns_iterate in Hr; [|done|done].
  apply solve_returns_iterate in Hr'; [|done|].
  - rewrite Hit in Hr'.
    rewrite (gmres_iterate_scalar_preconditioner p M s (/ 4)) in Hr'; try done; try lra.
    + congruence.
    + by rewrite Hdim.
  - intros M' [= <- _]. cbn. apply vscale_zeros.
Qed.

(** ** The zero-iteration exit *)

(** The residual INIT measures: [b - A(x0)], mapped by a left
    preconditioner when one is given. *)
Lemma initial_residual_value (p : problem) :
  well_formed p →
  initial_residual p
  = inr (match sys_preconditioner p with
         | Some (M, Left) =>
             op_fn M (vsub (sys_rhs p) (op_fn (sys_operator p) (start p)))
         | _ => vsub (sys_rhs p) (op_fn (sys_operator p) (start p))
         end).
Proof.
  intros Hwf. unfold initial_residual.
  destruct (apply_conforming p (sys_operator p) (start p)) as [-> Hw];
    [apply Hwf | by apply length_start |].
  cbn [mbind error_bind]. unfold precondition_left.
  destruct (sys_preconditioner p) as [[M [|]]|] eqn:E; try done.
  destruct Hwf as (_ & Hb & _ & HM).
  destruct (apply_conforming p M (vsub (sys_rhs p) (op_fn (sys_operator p) (start p)))
              (HM M Left E)) as [-> _]; [|done].
  rewrite length_vsub, Hw, Hb. lia.
Qed.

Lemma iterate_progress p remaining k w r :
  iterate p (S remaining) k w = inr r → (S k ≤ iterations r)%nat.
Proof.
  cbn [iterate]. destruct (arnoldi_step p w) as [e|[w' bd]]; [done|].
  cbn [mbind error_bind].
  destruct (Rle_dec (residual w') (tolerance p)).
  - intros [_ ->]%result_candidate. done.
  - destruct bd.
    + intros [_ ->]%result_candidate. done.
    + intros Hr. by destruct (iterate_returns_run p _ _ _ r Hr) as [? _].
Qed.

(** C8, as stated, fails under left preconditioning: for [A = I],
    [b = [1]], [x0 = 0], [atol = 1], [rtol = 0] and the left
    preconditioner [2 I], the residual [b - A(x0)] has norm 1, which meets
    the tolerance, but the solver measures [M(b - A(x0))], of norm 2, and
    iterates: no result has zero iterations. *)
Lemma zero_iterations_left_preconditioner_counterexample :
  let p := MkProblem (scalar_operator 1 1 []) [1] None (MkGMRES 1 0 1)
                     (Some (scalar_operator 1 2 [], Left)) in
  GMRES 1 0 1 = inr (sys_solver p)
  ∧ well_formed p
  ∧ norm (vsub (sys_rhs p) (op_fn (sys_operator p) (start p)))
    <= atol (sys_solver p) + rtol (sys_solver p) * norm (sys_rhs p)
  ∧ ¬ (∃ r, solve p = inr r ∧ result_status r = CONVERGED
            ∧ iterations r = 0%nat ∧ solution r = start p).
Proof.
  intros p.
  assert (Hwf : well_formed p).
  { split; [apply scalar_operator_linear|]. split; [done|]. split; [done|].
    intros M s [= <- <-]. apply scalar_operator_linear. }
  assert (Hone : norm [1] = 1).
  { unfold norm. eval_arrays. replace (1 * 1 + 0) with 1 by lra. apply sqrt_1. }
  split; [apply GMRES_accepts; (lra || lia)|]. split; [done|]. split.
  - eval_arrays. replace ((1 - 1 * 0) * (1 - 1 * 0) + 0) with 1 by lra.
    replace (1 * 1 + 0) with 1 by lra. rewrite sqrt_1. lra.
  - intros (r & Hr & _ & Hit & _).
    destruct (init_ok p Hwf) as (r0 & Hr0 & _ & Hinit).
    rewrite (initial_residual_value p Hwf) in Hr0. injection Hr0 as <-.
    unfold solve in Hr. rewrite Hinit in Hr. cbn [mbind error_bind] in Hr.
    destruct (Rle_dec _ _) as [Hle|_] in Hr.
    + revert Hle. unfold tolerance. cbn [p sys_solver sys_rhs atol rtol]. rewrite Hone.
      eval_arrays. replace (2 * (1 - 1 * 0) * (2 * (1 - 1 * 0)) + 0) with (2 * 2) by lra.
      rewrite sqrt_square by lra. lra.
    + cbn [p sys_solver max_steps] in Hr. apply iterate_progress in Hr. lia.
Qed.

(** C8 (amended). Let [beta] be the norm of the residual INIT measures:
    of [b - A(x0)], or of [M(b - A(x0))] when a left preconditioner [M]
    is given.  When [beta] is at most [atol + rtol * ||b||], the solve
    returns in the CONVERGED state with zero iterations, the initial
    guess as solution and [beta] as residual norm; with a positive
    budget, a solve makes zero iterations only then.  In particular, for
    a linear operator (and preconditioner), non-negative tolerances,
    [b = 0] and the default [x0 = 0], it returns the zero vector. *)
Theorem converged_at_init_with_zero_iterations (p : problem) :
  well_formed p →
  let r0 := vsub (sys_rhs p) (op_fn (sys_operator p) (start p)) in
  let beta := match sys_preconditioner p with
              | Some (M, Left) => norm (op_fn M r0)
              | _ => norm r0
              end in
  (beta <= tolerance p →
   solve p = inr (MkResult (start p) true 0 beta CONVERGED))
  ∧ (∀ r, (0 < max_steps (sys_solver p))%nat →
       solve p = inr r → iterations r = 0%nat → beta <= tolerance p)
  ∧ (linear (dimension p) (sys_operator p) →
     (∀ M s, sys_preconditioner p = Some (M, s) → linear (dimension p) M) →
     0 <= atol (sys_solver p) → 0 <= rtol (sys_solver p) →
     sys_rhs p = jnp_zeros (dimension p) → warm_start p = None →
     solve p = inr (MkResult (jnp_zeros (dimension p)) true 0 0 CONVERGED)).
Proof.
  intros Hwf r0 beta.
  pose proof (initial_residual_value p Hwf) as Hr0. fold r0 in Hr0.
  set (e0 := match sys_preconditioner p with
             | Some (M, Left) => op_fn M r0
             | _ => r0
             end) in Hr0.
  assert (Hbeta : beta = norm e0).
  { unfold beta, e0. by destruct (sys_preconditioner p) as [[M [|]]|]. }
  split; [|split].
  - intros Hle. rewrite Hbeta in *.
    destruct Hwf as ([Hs _] & Hb & _).
    by apply (solve_converged_at_init p e0 Hs Hb Hr0).
  - intros r Hpos Hr Hit. rewrite Hbeta.
    destruct (init_ok p Hwf) as (r1 & Hr1 & _ & Hinit).
    rewrite Hr0 in Hr1. injection Hr1 as <-.
    unfold solve in Hr. rewrite Hinit in Hr. cbn [mbind error_bind] in Hr.
    destruct (Rle_dec (norm e0) (tolerance p)) as [Hle|_]; [done|].
    destruct (max_steps (sys_solver p)) as [|steps]; [lia|].
    apply iterate_progress in Hr. lia.
  - apply solve_zero_rhs.
Qed.

Lemma converged_at_init_with_zero_iterations_witness :
  let M := scalar_operator 1 (/ 2) [] in
  let p := MkProblem (scalar_operator 1 1 []) [1] None (MkGMRES 1 0 1) (Some (M, Left)) in
  solve p
  = inr (MkResult (start p) true 0
           (norm (op_fn M (vsub [1] (op_fn (scalar_operator 1 1 []) (start p)))))
           CONVERGED).
Proof.
  intros M p.
  assert (Hwf : well_formed p).
  { split; [apply scalar_operator_linear|]. split; [done|]. split; [done|].
    intros M' s [= <- <-]. apply scalar_operator_linear. }
  apply (proj1 (converged_at_init_with_zero_iterations p Hwf)).
  unfold tolerance. eval_arrays.
  replace (/ 2 * (1 - 1 * 0) * (/ 2 * (1 - 1 * 0)) + 0) with (/ 2 * / 2) by lra.
  replace (1 * 1 + 0) with 1 by lra.
  rewrite sqrt_square, sqrt_1 by lra. lra.
Defined.

(** ** Non-convergence is a result *)

Lemma result_fields p st w k r :
  result p st w k = inr r →
  result_status r = st ∧ iterations r = k
  ∧ converged r = bool_decide (st = CONVERGED) ∧ residual_norm r = residual w.
Proof.
  unfold result. destruct (candidate p w) as [e|x]; [done|].
  cbn [mbind error_bind]. by intros [= <-].
Qed.

(** A run whose every iteration within the budget leaves a residual
    above the tolerance, without breakdown, ends in MAX_STEPS_REACHED
    after the whole budget. *)
Lemma iterate_exhausts p remaining k w r :
  (∀ j, (j < remaining)%nat →
     ∃ wj wj', arnoldi_run p j w = inr wj
               ∧ arnoldi_step p wj = inr (wj', false)
               ∧ tolerance p < residual wj') →
  iterate p remaining k w = inr r →
  result_status r = MAX_STEPS_REACHED ∧ iterations r = (k + remaining)%nat.
Proof.
  revert k w. induction remaining as [|rem IH]; intros k w Hrun; cbn [iterate].
  - intros (-> & -> & _)%result_fields. split; [done|lia].
  - destruct (Hrun 0%nat ltac:(lia)) as (w0 & w' & [= <-] & Hstep & Hres).
    rewrite Hstep. cbn [mbind error_bind].
    destruct (Rle_dec (residual w') (tolerance p)) as [Hle|_]; [lra|].
    intros Hr. destruct (IH (S k) w') as [Hst Hit]; [|done|].
    + intros j Hj. destruct (Hrun (S j) ltac:(lia)) as (wj & wj' & Hj1 & Hj2 & Hj3).
      cbn [arnoldi_run] in Hj1. rewrite Hstep in Hj1. cbn [mbind error_bind] in Hj1.
      by exists wj, wj'.
    + split; [done|lia].
Qed.

(** C5. For inputs that agree on the dimension, the solve never raises.
    It returns a result carrying a solution vector of that dimension, the
    number of iterations used (at most [max_steps]) and a status.  The
    status is CONVERGED exactly when the final residual norm meets the
    tolerance, and it agrees with the convergence flag; a residual norm
    above the tolerance is reported as MAX_STEPS_REACHED or BREAKDOWN,
    and MAX_STEPS_REACHED only after [max_steps] iterations.
    Conversely, when every iteration within the budget leaves the
    residual above the tolerance and none breaks down, the result is
    MAX_STEPS_REACHED, not converged, after [max_steps] iterations. *)
Theorem non_convergence_is_returned_not_raised (p : problem) :
  well_formed p →
  ∃ r, solve p = inr r
       ∧ length (solution r) = dimension p
       ∧ (iterations r ≤ max_steps (sys_solver p))%nat
       ∧ (converged r = true ↔ result_status r = CONVERGED)
       ∧ (result_status r = CONVERGED ↔ residual_norm r <= tolerance p)
       ∧ (tolerance p < residual_norm r ↔
          result_status r = MAX_STEPS_REACHED ∨ result_status r = BREAKDOWN)
       ∧ (result_status r = MAX_STEPS_REACHED →
          iterations r = max_steps (sys_solver p))
       ∧ (∀ beta w0, init p = inr (beta, w0) → tolerance p < beta →
            (∀ j, (j < max_steps (sys_solver p))%nat →
               ∃ wj wj', arnoldi_run p j w0 = inr wj
                         ∧ arnoldi_step p wj = inr (wj', false)
                         ∧ tolerance p < residual wj') →
            result_status r = MAX_STEPS_REACHED ∧ converged r = false
            ∧ iterations r = max_steps (sys_solver p)).
Proof.
  intros Hwf. destruct (solve_ok p Hwf) as (r & Hr & Hlen & Hit & Hc & Hs & Hm).
  exists r. split; [done|]. split; [done|]. split; [lia|]. split; [done|].
  split; [done|]. split; [|split; [done|]].
  - destruct (result_status r) eqn:Est; split.
    + intros Hgt. assert (residual_norm r <= tolerance p) by (by apply Hs). lra.
    + intros [?|?]; done.
    + intros _. by left.
    + intros _. destruct (Rlt_dec (tolerance p) (residual_norm r)) as [|Hle]; [done|].
      assert (MAX_STEPS_REACHED = CONVERGED) by (apply Hs; lra). done.
    + intros _. by right.
    + intros _. destruct (Rlt_dec (tolerance p) (residual_norm r)) as [|Hle]; [done|].
      assert (BREAKDOWN = CONVERGED) by (apply Hs; lra). done.
  - intros beta w0 Hinit Hbeta Hrun.
    unfold solve in Hr. rewrite Hinit in Hr. cbn [mbind error_bind] in Hr.
    destruct (Rle_dec beta (tolerance p)); [lra|].
    destruct (iterate_exhausts p _ 0 w0 r Hrun Hr) as [Hst Hiter].
    split; [done|]. split; [|done].
    destruct (converged r) eqn:Econv; [|done].
    assert (result_status r = CONVERGED) by (by apply Hc). congruence.
Qed.

Lemma non_convergence_is_returned_not_raised_witness :
  let p := MkProblem (dense_operator [[1; 0]; [0; 2]] []) [1; 1] None (MkGMRES 0 0 1) None in
  ∃ r, solve p = inr r
       ∧ result_status r = MAX_STEPS_REACHED ∧ converged r = false
       ∧ iterations r = 1%nat ∧ length (solution r) = 2%nat
       ∧ tolerance p < residual_norm r.
Proof.
  intros p.
  assert (Hwf : well_formed p).
  { split; [|done].
    apply (dense_operator_linear 2 [[1; 0]; [0; 2]] [] eq_refl). by repeat constructor. }
  destruct (non_convergence_is_returned_not_raised p Hwf)
    as (r & Hr & Hlen & _ & Hc & _ & _ & _ & _).
  destruct budget_example_run as (r' & Hr' & Hst & Hit & Hres).
  fold p in Hr'. rewrite Hr in Hr'. injection Hr' as <-.
  exists r. split; [done|]. split; [done|]. split; [|done].
  destruct (converged r) eqn:Econv; [|done].
  assert (result_status r = CONVERGED) by (by apply Hc). congruence.
Defined.

(** ** Convergence within the dimension *)

(** The GMRES iterates do not depend on the solver's configuration:
    tolerances and budget only decide where a solve stops. *)
Lemma arnoldi_run_solver_irrelevant A b x0 s1 s2 pre k w :
  arnoldi_run (MkProblem A b x0 s1 pre) k w = arnoldi_run (MkProblem A b x0 s2 pre) k w.
Proof.
  revert w. induction k as [|k IH]; intros w; [done|].
  cbn [arnoldi_run].
  change (arnoldi_step (MkProblem A b x0 s1 pre) w)
    with (arnoldi_step (MkProblem A b x0 s2 pre) w).
  destruct (arnoldi_step (MkProblem A b x0 s2 pre) w) as [e|[w' bd]]; [done|].
  cbn [mbind error_bind]. destruct bd; [done|]. apply IH.
Qed.

Lemma gmres_iterate_solver_irrelevant A b x0 s1 s2 pre k :
  gmres_iterate (MkProblem A b x0 s1 pre) k = gmres_iterate (MkProblem A b x0 s2 pre) k.
Proof.
  unfold gmres_iterate.
  change (init (MkProblem A b x0 s1 pre)) with (init (MkProblem A b x0 s2 pre)).
  destruct (init (MkProblem A b x0 s2 pre)) as [e|[beta w]]; [done|].
  cbn [mbind error_bind]. rewrite (arnoldi_run_solver_irrelevant A b x0 s1 s2).
  destruct (arnoldi_run (MkProblem A b x0 s2 pre) k w) as [e|w']; [done|].
  cbn [mbind error_bind]. reflexivity.
Qed.

(** C10. For a symmetric positive-definite operator of dimension [N]
    built from a dense matrix, GMRES without preconditioning reaches a
    residual norm of at most [atol + rtol * ||b||] within [N] iterations:
    some iterate [x_k] with [k <= N] has [||b - A x_k||] within the
    tolerance, whatever the budget.  With a budget of at least [N]
    iterations the solve itself returns in the CONVERGED state after at
    most [N] iterations, and the residual norm it reports is the norm of
    [b - A x] for the returned solution [x]. *)
Theorem gmres_converges_within_dimension
    (matrix : list Vector) (tags : list tag) (N : nat) (b : Vector)
    (x0 : option Vector) (atol0 rtol0 : R) (steps : nat) (solver : GMRESSolver) :
  length matrix = N → Forall (λ row, length row = N) matrix →
  symmetric N (dense_operator matrix tags) →
  positive_definite N (dense_operator matrix tags) →
  length b = N → (∀ x, x0 = Some x → length x = N) →
  GMRES atol0 rtol0 steps = inr solver →
  let p := MkProblem (dense_operator matrix tags) b x0 solver None in
  (∃ k x, (k ≤ N)%nat ∧ gmres_iterate p k = inr x
          ∧ norm (vsub b (op_fn (dense_operator matrix tags) x))
            <= atol0 + rtol0 * norm b)
  ∧ ((N ≤ steps)%nat →
     ∃ r, solve p = inr r
          ∧ result_status r = CONVERGED ∧ converged r = true
          ∧ (iterations r ≤ N)%nat
          ∧ residual_norm r <= atol0 + rtol0 * norm b
          ∧ norm (vsub b (op_fn (dense_operator matrix tags) (solution r)))
            = residual_norm r).
Proof.
  intros Hrows Hcols _ HPD Hb Hx0 Hcfg p.
  destruct (GMRES_valid _ _ _ _ Hcfg) as (-> & Hatol & Hrtol & _).
  split.
  - destruct (gmres_spd_converges matrix tags N b x0 (MkGMRES atol0 rtol0 N))
      as (r & Hr & _ & _ & Hit & Hres & Htrue); try done.
    exists (iterations r), (solution r). split; [done|]. split.
    + unfold p. rewrite (gmres_iterate_solver_irrelevant _ _ _ _ (MkGMRES atol0 rtol0 N)).
      apply solve_returns_iterate; [|done|done].
      subst N. split; [|done].
      by apply (dense_operator_linear (length matrix) matrix tags).
    + rewrite Htrue. exact Hres.
  - intros Hsteps.
    by apply (gmres_spd_converges matrix tags N b x0 (MkGMRES atol0 rtol0 steps)).
Qed.

Lemma gmres_converges_within_dimension_witness :
  let matrix := [[1; 0]; [0; 2]] in
  let tol := / 100000000 in
  let p := MkProblem (dense_operator matrix []) [1; 1] None (MkGMRES tol tol 1) None in
  (∃ k x, (k ≤ 2)%nat ∧ gmres_iterate p k = inr x
          ∧ norm (vsub [1; 1] (op_fn (dense_operator matrix []) x))
            <= tol + tol * norm [1; 1])
  ∧ ((2 ≤ 1)%nat →
     ∃ r, solve p = inr r
          ∧ result_status r = CONVERGED ∧ converged r = true
          ∧ (iterations r ≤ 2)%nat
          ∧ residual_norm r <= tol + tol * norm [1; 1]
          ∧ norm (vsub [1; 1] (op_fn (dense_operator matrix []) (solution r)))
            = residual_norm r).
Proof.
  intros matrix tol p.
  apply (gmres_converges_within_dimension matrix [] 2 [1; 1] None tol tol 1).
  - reflexivity.
  - by repeat constructor.
  - apply budget_example_spd.
  - apply budget_example_spd.
  - reflexivity.
  - done.
  - apply GMRES_accepts; unfold tol; (lra || lia).
Defined.

(** ** The notebook's comparison *)

(** C1. On the notebook's problem - the Poisson operator of an
    [n]-by-[m] grid, a right-hand side [b] and a GMRES configuration,
    solved without and with the notebook's preconditioner - the Jacobi
    preconditioner is [(1/4) * identity] and cannot lower the residual
    norm [||b - A x||]: preconditioned on either side, every GMRES iterate
    has the residual norm of the plain iterate, both solves return a
    result, and when both exhaust the budget (the notebook's case) they
    return the same solution, so the preconditioned residual norm is not
    smaller than the plain one. *)
Theorem jacobi_preconditioner_gives_no_improvement
    (n m : nat) (b : Vector) (solver : GMRESSolver) (s : side) :
  (0 < n)%nat → (0 < m)%nat → length b = (n * m)%nat →
  ∃ A, poisson n m = Some A
    ∧ realises (preconditioner A (n * m))
               (scalar_operator (n * m) (/ 4) [positive_semidefinite_tag])
    ∧ let p := MkProblem (sparse_operator A []) b None solver None in
      let p' := with_preconditioner p
                  (scalar_operator (n * m) (/ 4) [positive_semidefinite_tag]) s in
      (∀ k x x', gmres_iterate p k = inr x → gmres_iterate p' k = inr x' →
         error_norm A b x' = error_norm A b x)
      ∧ ∃ r r', solve p = inr r ∧ solve p' = inr r'
          ∧ (result_status r = MAX_STEPS_REACHED →
             result_status r' = MAX_STEPS_REACHED →
             solution r' = solution r
             ∧ error_norm A b (solution r') = error_norm A b (solution r)
             ∧ ¬ error_norm A b (solution r') < error_norm A b (solution r)).
Proof.
  intros Hn Hm Hb.
  destruct (poisson_denotation n m Hn Hm) as (A & HA & Hs & _).
  exists A. split; [done|]. split; [by apply poisson_preconditioner_is_scalar|].
  intros p p'.
  set (M := scalar_operator (n * m) (/ 4) [positive_semidefinite_tag]) in *.
  pose proof (sparse_operator_linear A (n * m) [] Hs) as Hlin.
  assert (Hdim : dimension p = (n * m)%nat).
  { unfold dimension. cbn [p sys_operator sparse_operator op_shape]. by rewrite Hs. }
  assert (Hwf : well_formed p).
  { unfold well_formed. rewrite Hdim. split; [apply Hlin|]. done. }
  assert (HMlin : linear (dimension p) M) by (rewrite Hdim; apply scalar_operator_linear).
  pose proof (with_preconditioner_well_formed p M s Hwf (proj1 HMlin)) as Hwf'.
  split.
  - intros k x x' Hx Hx'. fold p' in Hx'.
    assert (gmres_iterate p' k = gmres_iterate p k) as Heq.
    { apply (gmres_iterate_scalar_preconditioner p M s (/ 4));
        try done; try lra; [by rewrite Hdim | apply HMlin]. }
    congruence.
  - destruct (solve_ok p Hwf) as (r & Hr & _ & _ & _ & _ & Hmax).
    destruct (solve_ok _ Hwf') as (r' & Hr' & _ & _ & _ & _ & Hmax').
    exists r, r'. split; [done|]. split; [done|].
    intros Hst Hst'.
    assert (solution r' = solution r) as Hsol.
    { apply (poisson_jacobi_same_solution n m A b None solver s r r'); try done.
      rewrite Hmax, Hmax' by done. cbn. lia. }
    split; [done|]. rewrite Hsol. split; [done|lra].
Qed.

Lemma jacobi_preconditioner_gives_no_improvement_witness :
  let b := replicate (200 * 200) 1 in
  let solver := MkGMRES (/ 100000) (/ 100000) 30 in
  let M := scalar_operator (200 * 200) (/ 4) [positive_semidefinite_tag] in
  ∃ A, poisson 200 200 = Some A
    ∧ realises (preconditioner A (200 * 200)) M
    ∧ let p := MkProblem (sparse_operator A []) b None solver None in
      let p' := with_preconditioner p M Left in
      (∀ k x x', gmres_iterate p k = inr x → gmres_iterate p' k = inr x' →
         error_norm A b x' = error_norm A b x)
      ∧ ∃ r r', solve p = inr r ∧ solve p' = inr r'
          ∧ (result_status r = MAX_STEPS_REACHED →
             result_status r' = MAX_STEPS_REACHED →
             solution r' = solution r
             ∧ error_norm A b (solution r') = error_norm A b (solution r)
             ∧ ¬ error_norm A b (solution r') < error_norm A b (solution r)).
Proof.
  intros b solver M.
  apply (jacobi_preconditioner_gives_no_improvement 200 200 b solver Left).
  - lia.
  - lia.
  - apply length_replicate.
Defined.

(* ================================================================== *)
(** * Part III. Further properties of the notebook's code              *)
(* ================================================================== *)

(** ** Sums over index ranges *)

Lemma Rsum_scale (A : Type) (c : R) (f : A → R) (l : list A) :
  Rsum (map (λ x, c * f x) l) = c * Rsum (map f l).
Proof.
  induction l as [|x l IH]; cbn [map]; rewrite ?Rsum_cons.
  - unfold Rsum. cbn. lra.
  - rewrite IH. lra.
Qed.

(** A sum over [start, start + n) that selects the index [k]. *)
Lemma Rsum_indicator (f : nat → R) (k start n : nat) :
  Rsum (map (λ j, if decide (j = k) then f j else 0) (seq start n))
  = if decide (start ≤ k < start + n)%nat then f k else 0.
Proof.
  revert start. induction n as [|n IH]; intros start; cbn [seq map].
  - rewrite decide_False by lia. done.
  - rewrite Rsum_cons, IH.
    repeat case_decide; subst; try lra; lia.
Qed.

(** ** [get_diagonal] and the representation of the matrix *)

Lemma get_diagonal_ext (M M' : BCOO) :
  (shape M).1 = (shape M').1 →
  (∀ i, (i < (shape M).1)%nat → bcoo_get M i i = bcoo_get M' i i) →
  get_diagonal M = get_diagonal M'.
Proof.
  intros Hs Hg. apply list_eq_same_length with (shape M).1.
  - by rewrite length_get_diagonal.
  - by rewrite length_get_diagonal.
  - intros i a b Hi. rewrite !get_diagonal_lookup by lia. rewrite Hg by done. congruence.
Qed.

(** X2. A stored element that is off the diagonal, or an explicit zero,
    or padding whose row index lies outside the matrix, leaves the
    extracted diagonal unchanged. *)
Theorem get_diagonal_ignores_padding (M : BCOO) (r c : nat) (v : R) :
  bcoo_wf M →
  r ≠ c ∨ v = 0 ∨ ((shape M).1 ≤ r)%nat →
  get_diagonal (MkBCOO (data M ++ [v]) (indices M ++ [(r, c)]) (shape M))
  = get_diagonal M.
Proof.
  intros Hwf Hcase. apply get_diagonal_ext; [done|].
  cbn [shape]. intros i Hi. unfold bcoo_get, bcoo_entries. cbn [indices data].
  rewrite zip_with_app by exact Hwf.
  rewrite entries_get_app. cbn [zip_with]. rewrite entries_get_cons, entries_get_nil.
  cbn [fst snd]. case_decide as Heq; [|lra].
  injection Heq as -> ->. destruct Hcase as [?|[->|?]]; [done | lra | lia].
Qed.

Lemma get_diagonal_ignores_padding_witness :
  get_diagonal (MkBCOO ([2; 3] ++ [7]) ([(0, 0); (1, 1)] ++ [(2, 2)])%nat (2, 2)%nat)
  = get_diagonal (MkBCOO [2; 3] [(0, 0); (1, 1)]%nat (2, 2)%nat).
Proof.
  apply (get_diagonal_ignores_padding (MkBCOO [2; 3] [(0, 0); (1, 1)]%nat (2, 2)%nat) 2 2 7).
  - reflexivity.
  - right. right. cbn. lia.
Defined.

(** ** The sparse matrix-vector product *)

Lemma scattered_matvec idx dat (x : Vector) i :
  scattered (map fst idx)
    (zip_with (λ (rc : nat * nat) v, v * default 0 (x !! rc.2)) idx dat) i
  = Rsum (map (λ j, entries_get (zip idx dat) i j * default 0 (x !! j))
              (seq 0 (length x))).
Proof.
  revert dat. induction idx as [|[r k] idx IH]; intros [|v dat];
    cbn [map zip_with zip fst snd]; rewrite ?scattered_nil_l.
  - symmetry. apply Rsum_zero, Forall_forall.
    intros y [j [-> _]]%list_elem_of_fmap. rewrite entries_get_nil. lra.
  - symmetry. apply Rsum_zero, Forall_forall.
    intros y [j [-> _]]%list_elem_of_fmap. rewrite entries_get_nil. lra.
  - transitivity 0; [unfold scattered; destruct (map fst idx); cbn; lra|].
    symmetry. apply Rsum_zero, Forall_forall.
    intros y [j [-> _]]%list_elem_of_fmap. rewrite entries_get_nil. lra.
  - rewrite scattered_cons, IH.
    rewrite (Rsum_ext _ (λ j, entries_get ((r, k, v) :: zip idx dat) i j * default 0 (x !! j))
               (λ j, (if decide (j = k) then (if decide (r = i) then v else 0) * default 0 (x !! j) else 0)
                     + entries_get (zip idx dat) i j * default 0 (x !! j))).
    2:{ intros j _. rewrite entries_get_cons. cbn [fst snd].
        repeat case_decide; simplify_eq; lra. }
    rewrite Rsum_plus, (Rsum_indicator (λ j, (if decide (r = i) then v else 0) * default 0 (x !! j))).
    f_equal. repeat case_decide; try lra.
    rewrite (lookup_ge_None_2 x k) by lia. cbn. lra.
Qed.

Lemma bcoo_matvec_lookup (M : BCOO) (x : Vector) (i : nat) :
  length x = (shape M).2 → (i < (shape M).1)%nat →
  bcoo_matvec M x !! i
  = Some (Rsum (map (λ j, bcoo_get M i j * default 0 (x !! j)) (seq 0 (shape M).2))).
Proof.
  intros Hx Hi. unfold bcoo_matvec.
  rewrite at_add_lookup, lookup_jnp_zeros by done. cbn [fmap option_fmap option_map].
  rewrite scattered_matvec, Hx. unfold bcoo_get, bcoo_entries. f_equal. lra.
Qed.

(** X4. [SparseMatrixLinearOperator.mv] computes the matrix-vector
    product of the matrix the stored elements denote: for a conforming
    vector the result has one real component per row, and component [i]
    is the sum over the columns [j] of [matrix[i, j] * vector[j]]. *)
Theorem mv_is_matrix_vector_product (matrix : BCOO) (tags : list tag) (vector : Vector) :
  bcoo_wf matrix → length vector = (shape matrix).2 →
  length (mv (SparseMatrixLinearOperator matrix tags) vector) = (shape matrix).1
  ∧ ∀ i, (i < (shape matrix).1)%nat →
      mv (SparseMatrixLinearOperator matrix tags) vector !! i
      = Some (Some (Rsum (map (λ j, bcoo_get matrix i j * default 0 (vector !! j))
                              (seq 0 (shape matrix).2)))).
Proof.
  intros _ Hx. cbn [mv]. split.
  - by rewrite length_fmap, length_bcoo_matvec.
  - intros i Hi. rewrite list_lookup_fmap, bcoo_matvec_lookup by done. done.
Qed.

Lemma mv_is_matrix_vector_product_witness :
  let matrix := MkBCOO [2; 5; 3] [(0, 0); (0, 1); (1, 1)]%nat (2, 2)%nat in
  length (mv (SparseMatrixLinearOperator matrix []) [1; 10]) = 2%nat
  ∧ ∀ i, (i < 2)%nat →
      mv (SparseMatrixLinearOperator matrix []) [1; 10] !! i
      = Some (Some (Rsum (map (λ j, bcoo_get matrix i j * default 0 ([1; 10] !! j))
                              (seq 0 2)))).
Proof.
  intros matrix. apply (mv_is_matrix_vector_product matrix [] [1; 10]); reflexivity.
Defined.

Lemma lookup_unit_vector N j k :
  (j < N)%nat → default 0 (unit_vector N j !! k) = if decide (k = j) then 1 else 0.
Proof.
  intros Hj. unfold unit_vector. case_decide as Hk.
  - subst. rewrite list_lookup_insert_eq by (by rewrite length_jnp_zeros). done.
  - rewrite list_lookup_insert_ne by done.
    destruct (decide (k < N)%nat).
    + by rewrite lookup_jnp_zeros.
    + rewrite lookup_ge_None_2 by (rewrite length_jnp_zeros; lia). done.
Qed.

(** Applying the operator to the [j]-th unit vector reads off column
    [j] of the matrix. *)
Lemma bcoo_matvec_unit_vector (M : BCOO) (i j : nat) :
  (i < (shape M).1)%nat → (j < (shape M).2)%nat →
  bcoo_matvec M (unit_vector (shape M).2 j) !! i = Some (bcoo_get M i j).
Proof.
  intros Hi Hj. rewrite bcoo_matvec_lookup by (done || apply length_unit_vector).
  f_equal.
  rewrite (Rsum_ext _ _ (λ k, if decide (k = j) then bcoo_get M i k else 0)).
  2:{ intros k _. rewrite lookup_unit_vector by done. case_decide; lra. }
  rewrite (Rsum_indicator (λ k, bcoo_get M i k)). rewrite decide_True by lia. done.
Qed.

(** X6. The extracted diagonal agrees with the operator: component [i]
    of [get_diagonal(A)] is component [i] of [A @ e_i], where [e_i] is
    the [i]-th unit vector. *)
Theorem get_diagonal_matches_mv (matrix : BCOO) (i : nat) :
  bcoo_wf matrix → (i < (shape matrix).1)%nat → (i < (shape matrix).2)%nat →
  get_diagonal matrix !! i
  = bcoo_matvec matrix (unit_vector (shape matrix).2 i) !! i.
Proof.
  intros _ Hr Hc. by rewrite get_diagonal_lookup, bcoo_matvec_unit_vector.
Qed.

Lemma get_diagonal_matches_mv_witness :
  let matrix := MkBCOO [2; 5; 3; 7] [(0, 0); (0, 1); (0, 0); (1, 1)]%nat (2, 2)%nat in
  get_diagonal matrix !! 0%nat = bcoo_matvec matrix (unit_vector 2 0) !! 0%nat.
Proof.
  intros matrix. apply (get_diagonal_matches_mv matrix 0); [reflexivity | cbn; lia | cbn; lia].
Defined.

(** ** The residual check *)

Lemma vsub_zeros_inv N (u v : Vector) :
  length u = N → length v = N → vsub u v = jnp_zeros N → u = v.
Proof.
  revert u v. induction N as [|N IH]; intros [|a u] [|b v] Hu Hv H; try done.
  cbn in H. injection H as Hab H. f_equal; [lra|]. apply IH; auto.
Qed.

(** X7. The residual check [jnp.linalg.norm(b - (A @ x))] is never
    negative, and for a right-hand side with one component per row it is
    zero exactly when [x] solves the system, [A @ x = b]. *)
Theorem error_norm_zero_iff_solved (A : BCOO) (b x : Vector) :
  length b = (shape A).1 →
  0 <= error_norm A b x ∧ (error_norm A b x = 0 ↔ bcoo_matvec A x = b).
Proof.
  intros Hb. unfold error_norm. split; [apply norm_nonneg|]. split.
  - intros H. apply (norm_zero_inv (shape A).1) in H.
    + symmetry. apply (vsub_zeros_inv (shape A).1); [done | apply length_bcoo_matvec | done].
    + rewrite length_vsub, length_bcoo_matvec. lia.
  - intros ->. rewrite (vsub_self (length b)) by done. apply norm_zeros.
Qed.

Lemma error_norm_zero_iff_solved_witness :
  let A := MkBCOO [2; 4] [(0, 0); (1, 1)]%nat (2, 2)%nat in
  0 <= error_norm A [2; 4] [1; 1]
  ∧ (error_norm A [2; 4] [1; 1] = 0 ↔ bcoo_matvec A [1; 1] = [2; 4]).
Proof. intros A. apply (error_norm_zero_iff_solved A [2; 4] [1; 1]). reflexivity. Defined.

(** ** The Jacobi preconditioner of a general matrix *)

Lemma length_jacobi A : length (jacobi A) = (shape A).1.
Proof. apply length_get_diagonal. Qed.

Lemma preconditioner_lookup (A : BCOO) (s : nat) (x : Vector) (i : nat) (a : R) :
  (i < (shape A).1)%nat → x !! i = Some a →
  mv (preconditioner A s) x !! i
  = Some (if decide (bcoo_get A i i = 0) then None else Some (a / bcoo_get A i i)).
Proof.
  intros Hi Ha. cbn [mv preconditioner]. unfold preconditioner_fn.
  apply divide_lookup; [done|]. by apply get_diagonal_lookup.
Qed.

Lemma length_preconditioner (A : BCOO) (s : nat) (x : Vector) :
  length x = (shape A).1 → length (mv (preconditioner A s) x) = (shape A).1.
Proof.
  intros Hx. cbn [mv preconditioner]. unfold preconditioner_fn.
  rewrite length_divide; [done|]. by rewrite length_jacobi.
Qed.

(** For a non-zero diagonal the preconditioner divides every component
    by the diagonal element of its row. *)
Lemma preconditioner_defined (A : BCOO) (s : nat) (x : Vector) :
  length x = (shape A).1 →
  (∀ i, (i < (shape A).1)%nat → bcoo_get A i i ≠ 0) →
  mv (preconditioner A s) x
  = Some <$> imap (λ i a, a / bcoo_get A i i) x.
Proof.
  intros Hx Hnz. apply list_eq_same_length with (shape A).1.
  - by rewrite length_fmap, length_imap.
  - by apply length_preconditioner.
  - intros i u v Hi. destruct (lookup_lt_is_Some_2 x i) as [a Ha]; [lia|].
    rewrite (preconditioner_lookup A s x i a) by done.
    rewrite list_lookup_fmap, list_lookup_imap, Ha. cbn.
    rewrite decide_False by auto. congruence.
Qed.

Lemma dot_imap_quotient (d : nat → R) (x : Vector) :
  (∀ i, (i < length x)%nat → 0 < d i) →
  0 <= dot x (imap (λ i a, a / d i) x).
Proof.
  revert d. induction x as [|a x IH]; intros d Hd.
  - unfold dot. cbn. lra.
  - cbn [imap]. rewrite dot_cons.
    assert (0 < d 0%nat) by (apply Hd; cbn; lia).
    assert (0 <= a * (a / d 0%nat)).
    { unfold Rdiv. rewrite <- Rmult_assoc. apply Rmult_le_pos; [nra|].
      left. by apply Rinv_0_lt_compat. }
    assert (0 <= dot x (imap (λ i a0, a0 / d (S i)) x)).
    { apply (IH (λ i, d (S i))). intros i Hi. apply Hd. cbn. lia. }
    unfold compose. lra.
Qed.

(** X10. The [positive_semidefinite_tag] the notebook declares for the
    preconditioner is not checked against the matrix.  For a matrix
    without zero diagonal elements the declaration is true - the
    quadratic form [x . (x / jacobi)] is non-negative for every
    conforming [x] - exactly when every diagonal element is positive. *)
Theorem preconditioner_tag_true_iff_positive_diagonal (A : BCOO) (s : nat) :
  (∀ i, (i < (shape A).1)%nat → bcoo_get A i i ≠ 0) →
  positive_semidefinite_tag ∈ operator_tags (preconditioner A s)
  ∧ ((∀ x y, length x = (shape A).1 →
             mv (preconditioner A s) x = Some <$> y → 0 <= dot x y)
     ↔ ∀ i, (i < (shape A).1)%nat → 0 < bcoo_get A i i).
Proof.
  intros Hnz. split; [cbn; apply list_elem_of_here|]. split.
  - intros Hpsd i Hi.
    pose proof (Hpsd (unit_vector (shape A).1 i) _ (length_unit_vector _ _)
                  (preconditioner_defined A s _ (length_unit_vector _ _) Hnz)) as H.
    rewrite dot_unit_vector in H by (done || by rewrite length_imap, length_unit_vector).
    rewrite list_lookup_imap in H. unfold unit_vector in H.
    rewrite list_lookup_insert_eq in H by (by rewrite length_jnp_zeros). cbn in H.
    specialize (Hnz i Hi).
    destruct (Rtotal_order (bcoo_get A i i) 0) as [Hneg|[?|?]]; [|done|done].
    exfalso. unfold Rdiv in H. rewrite Rmult_1_l in H.
    apply Rinv_lt_0_compat in Hneg. lra.
  - intros Hpos x y Hx Hy.
    rewrite preconditioner_defined in Hy by done.
    apply (inj (fmap Some)) in Hy. subst y.
    apply dot_imap_quotient. intros i Hi. apply Hpos. lia.
Qed.

Lemma preconditioner_tag_true_iff_positive_diagonal_witness :
  let A := MkBCOO [2; -4] [(0, 0); (1, 1)]%nat (2, 2)%nat in
  positive_semidefinite_tag ∈ operator_tags (preconditioner A 2)
  ∧ ((∀ x y, length x = 2%nat →
             mv (preconditioner A 2) x = Some <$> y → 0 <= dot x y)
     ↔ ∀ i, (i < 2)%nat → 0 < bcoo_get A i i).
Proof.
  intros A. apply (preconditioner_tag_true_iff_positive_diagonal A 2).
  intros i Hi. cbn in Hi.
  destruct i as [|[|i]]; [eval_arrays | eval_arrays | lia];
    repeat (destruct (decide _); try congruence; try lia); lra.
Defined.

(** X11. Jacobi scaling gives the preconditioned operator a unit
    diagonal: for a square matrix, applying the operator to the [i]-th
    unit vector and then the preconditioner yields 1 at component [i],
    provided the [i]-th diagonal element is not zero. *)
Theorem jacobi_preconditioned_unit_diagonal (A : BCOO) (N i : nat) :
  bcoo_wf A → shape A = (N, N) → (i < N)%nat → bcoo_get A i i ≠ 0 →
  mv (preconditioner A N) (bcoo_matvec A (unit_vector N i)) !! i = Some (Some 1).
Proof.
  intros _ Hs Hi Hd.
  rewrite (preconditioner_lookup A N _ i (bcoo_get A i i)).
  - rewrite decide_False by done. do 2 f_equal. by field.
  - by rewrite Hs.
  - replace N with (shape A).2 at 1 by (by rewrite Hs).
    apply bcoo_matvec_unit_vector; by rewrite Hs.
Qed.

Lemma jacobi_preconditioned_unit_diagonal_witness :
  let A := MkBCOO [2; 5; 4] [(0, 0); (0, 1); (1, 1)]%nat (2, 2)%nat in
  mv (preconditioner A 2) (bcoo_matvec A (unit_vector 2 1)) !! 1%nat = Some (Some 1).
Proof.
  intros A. apply (jacobi_preconditioned_unit_diagonal A 2 1); [reflexivity | reflexivity | lia |].
  eval_arrays. repeat (destruct (decide _); try congruence; try lia). lra.
Defined.

(** ** The Poisson matrix *)

Lemma grid_div n a b : (a < n)%nat → ((b * n + a) / n = b)%nat.
Proof. intros Ha. symmetry. apply Nat.div_unique with a; lia. Qed.

Lemma grid_mod n a b : (a < n)%nat → ((b * n + a) mod n = a)%nat.
Proof. intros Ha. symmetry. apply Nat.mod_unique with b; lia. Qed.

Lemma laplacian_2d_five_point n m a b a' b' :
  (a < n)%nat → (a' < n)%nat → (b < m)%nat → (b' < m)%nat →
  laplacian_2d n m (b * n + a)%nat (b' * n + a')%nat = five_point a b a' b'.
Proof.
  intros Ha Ha' Hb Hb'. unfold laplacian_2d, kron_dense.
  rewrite !grid_div, !grid_mod by done.
  unfold identity, tridiag, five_point, adjacent.
  repeat case_decide; try lra; lia.
Qed.

Lemma laplacian_2d_outside n m i j :
  (0 < n)%nat → (n * m ≤ i ∨ n * m ≤ j)%nat → laplacian_2d n m i j = 0.
Proof.
  intros Hn Hout. unfold laplacian_2d, kron_dense, identity, tridiag.
  assert (m ≤ i / n ∨ m ≤ j / n)%nat as Hd.
  { destruct Hout; [left|right]; apply Nat.div_le_lower_bound; lia. }
  repeat case_decide; try lra; lia.
Qed.

Lemma tridiag_sym k i j : tridiag k i j = tridiag k j i.
Proof. unfold tridiag. repeat case_decide; try lra; lia. Qed.

Lemma identity_sym k i j : identity k i j = identity k j i.
Proof. unfold identity. repeat case_decide; try lra; lia. Qed.

Lemma laplacian_2d_sym n m i j : laplacian_2d n m i j = laplacian_2d n m j i.
Proof.
  unfold laplacian_2d, kron_dense.
  by rewrite (tridiag_sym n (i mod n)%nat), (tridiag_sym m (i / n)%nat),
             (identity_sym n (i mod n)%nat), (identity_sym m (i / n)%nat).
Qed.

(** X12. [poisson(n, m)] is the five-point stencil: with grid point
    [(a, b)] stored at index [b * n + a], the element between two grid
    points is 4 when they coincide, -1 when they are neighbours and 0
    otherwise; every element outside the [n * m] rows and columns is 0. *)
Theorem poisson_five_point_stencil (n m : nat) (A : BCOO) :
  (0 < n)%nat → (0 < m)%nat → poisson n m = Some A →
  (∀ a b a' b', (a < n)%nat → (a' < n)%nat → (b < m)%nat → (b' < m)%nat →
     bcoo_get A (b * n + a)%nat (b' * n + a')%nat = five_point a b a' b')
  ∧ (∀ i j, (n * m ≤ i ∨ n * m ≤ j)%nat → bcoo_get A i j = 0).
Proof.
  intros Hn Hm HA.
  destruct (poisson_denotation n m Hn Hm) as (A' & HA' & _ & _ & _ & Hg).
  rewrite HA in HA'. injection HA' as <-. split.
  - intros a b a' b' Ha Ha' Hb Hb'. rewrite Hg. by apply laplacian_2d_five_point.
  - intros i j Hout. rewrite Hg. by apply laplacian_2d_outside.
Qed.

Lemma poisson_five_point_stencil_witness :
  ∃ A, poisson 2 2 = Some A
  ∧ (∀ a b a' b', (a < 2)%nat → (a' < 2)%nat → (b < 2)%nat → (b' < 2)%nat →
       bcoo_get A (b * 2 + a)%nat (b' * 2 + a')%nat = five_point a b a' b')
  ∧ (∀ i j, (2 * 2 ≤ i ∨ 2 * 2 ≤ j)%nat → bcoo_get A i j = 0).
Proof.
  eexists. split; [reflexivity|].
  apply (poisson_five_point_stencil 2 2); [lia | lia | reflexivity].
Defined.

(** ** The quadratic form of a sparse operator *)

Lemma Rsum_seq_S (f : nat → R) (start n : nat) :
  Rsum (map f (seq (S start) n)) = Rsum (map (λ i, f (S i)) (seq start n)).
Proof. by rewrite <- fmap_S_seq, <- list_fmap_compose. Qed.

Lemma dot_as_sum (N : nat) (u v : Vector) :
  length u = N → length v = N →
  dot u v = Rsum (map (λ i, default 0 (u !! i) * default 0 (v !! i)) (seq 0 N)).
Proof.
  revert u v. induction N as [|N IH]; intros [|a u] [|b v] Hu Hv; try done.
  cbn [seq map]. rewrite dot_cons, !Rsum_cons, Rsum_seq_S.
  rewrite (IH u v) by (cbn in *; lia). done.
Qed.

(** [u . (M @ v)] is the double sum of [u_i * M[i, j] * v_j]. *)
Lemma bilinear_form (M : BCOO) (u v : Vector) :
  length u = (shape M).1 → length v = (shape M).2 →
  dot u (bcoo_matvec M v)
  = Rsum (map (λ i, Rsum (map (λ j, default 0 (u !! i) * bcoo_get M i j * default 0 (v !! j))
                              (seq 0 (shape M).2)))
              (seq 0 (shape M).1)).
Proof.
  intros Hu Hv. rewrite (dot_as_sum (shape M).1) by (done || apply length_bcoo_matvec).
  apply Rsum_ext. intros i [_ Hi]%elem_of_seq.
  assert (default 0 (bcoo_matvec M v !! i)
          = Rsum (map (λ j, bcoo_get M i j * default 0 (v !! j)) (seq 0 (shape M).2))) as ->.
  { rewrite bcoo_matvec_lookup by (done || lia). done. }
  rewrite <- Rsum_scale. apply Rsum_ext. intros j _. lra.
Qed.

(** X13. The matrix returned by [poisson(n, m)] is symmetric:
    [A[i, j] = A[j, i]] for all [i] and [j]. *)
Theorem poisson_symmetric (n m : nat) (A : BCOO) :
  (0 < n)%nat → (0 < m)%nat → poisson n m = Some A →
  ∀ i j, bcoo_get A i j = bcoo_get A j i.
Proof.
  intros Hn Hm HA i j.
  destruct (poisson_denotation n m Hn Hm) as (A' & HA' & _ & _ & _ & Hg).
  rewrite HA in HA'. injection HA' as <-.
  rewrite !Hg. apply laplacian_2d_sym.
Qed.

Lemma poisson_symmetric_witness :
  ∃ A, poisson 2 3 = Some A ∧ ∀ i j, bcoo_get A i j = bcoo_get A j i.
Proof.
  eexists. split; [reflexivity|].
  apply (poisson_symmetric 2 3); [lia | lia | reflexivity].
Defined.

Lemma Rsum_minus (A : Type) (f g : A → R) (l : list A) :
  Rsum (map (λ x, f x - g x) l) = Rsum (map f l) - Rsum (map g l).
Proof.
  induction l as [|x l IH]; cbn [map]; rewrite ?Rsum_cons.
  - unfold Rsum. cbn. lra.
  - rewrite IH. lra.
Qed.

Lemma Rsum_nonneg (A : Type) (f : A → R) (l : list A) :
  (∀ x, x ∈ l → 0 <= f x) → 0 <= Rsum (map f l).
Proof.
  intros H. induction l as [|x l IH]; cbn [map]; rewrite ?Rsum_cons.
  - unfold Rsum. cbn. lra.
  - pose proof (H x (list_elem_of_here _ _)).
    assert (0 <= Rsum (map f l)) by (apply IH; intros y Hy; apply H; by constructor).
    lra.
Qed.

(** A cross term is bounded below by the squares it couples. *)
Lemma cross_term_bound (p a b : R) :
  - (Rabs p * (a * a) / 2) - Rabs p * (b * b) / 2 <= a * p * b.
Proof.
  assert (0 <= Rabs p - p) by (pose proof (Rle_abs p); lra).
  assert (0 <= Rabs p + p) by (pose proof (Rle_abs (- p)); rewrite Rabs_Ropp in *; lra).
  pose proof (Rle_0_sqr (a - b)) as Hm. pose proof (Rle_0_sqr (a + b)) as Hp.
  unfold Rsqr in Hm, Hp.
  assert (0 <= (Rabs p - p) * ((a - b) * (a - b))) by (by apply Rmult_le_pos).
  assert (0 <= (Rabs p + p) * ((a + b) * (a + b))) by (by apply Rmult_le_pos).
  lra.
Qed.

(** Summing, over all pairs, the diagonal term minus the two halves of
    a symmetric coupling gives the diagonal minus the row sum of the
    coupling, weighted by the squares. *)
Lemma row_sum_identity (d X : nat → R) (off : nat → nat → R) (N : nat) :
  (∀ i j, off i j = off j i) →
  Rsum (map (λ i, Rsum (map (λ j, (if decide (j = i) then d i * (X i * X i) else 0)
                                   - off i j * (X i * X i) / 2
                                   - off i j * (X j * X j) / 2) (seq 0 N))) (seq 0 N))
  = Rsum (map (λ i, X i * X i * (d i - Rsum (map (off i) (seq 0 N)))) (seq 0 N)).
Proof.
  intros Hoff.
  set (D := λ i j : nat, if decide (j = i) then d i * (X i * X i) else 0).
  set (P := λ i j : nat, off i j * (X i * X i) / 2).
  set (Q := λ i j : nat, off i j * (X j * X j) / 2).
  assert (HQ : Rsum (map (λ i, Rsum (map (Q i) (seq 0 N))) (seq 0 N))
             = Rsum (map (λ i, Rsum (map (P i) (seq 0 N))) (seq 0 N))).
  { rewrite Rsum_exchange. apply Rsum_ext. intros i _. apply Rsum_ext. intros j _.
    unfold Q, P. rewrite (Hoff j i). done. }
  assert (HD : ∀ i, (i < N)%nat → Rsum (map (D i) (seq 0 N)) = d i * (X i * X i)).
  { intros i Hi. unfold D. rewrite (Rsum_indicator (λ _, d i * (X i * X i))).
    rewrite decide_True by lia. done. }
  assert (HP : ∀ i, Rsum (map (P i) (seq 0 N))
                    = X i * X i / 2 * Rsum (map (off i) (seq 0 N))).
  { intros i. rewrite <- Rsum_scale. apply Rsum_ext. intros j _. unfold P. lra. }
  rewrite (Rsum_ext _ (λ i, Rsum (map (λ j, D i j - P i j - Q i j) (seq 0 N)))
             (λ i, (Rsum (map (D i) (seq 0 N)) - Rsum (map (P i) (seq 0 N)))
                   - Rsum (map (Q i) (seq 0 N)))).
  2:{ intros i _. by rewrite !Rsum_minus. }
  rewrite (Rsum_minus _ (λ i, Rsum (map (D i) (seq 0 N)) - Rsum (map (P i) (seq 0 N)))
             (λ i, Rsum (map (Q i) (seq 0 N)))).
  rewrite HQ, <- Rsum_minus. apply Rsum_ext. intros i [_ Hi]%elem_of_seq.
  rewrite HD, HP by lia. lra.
Qed.

(** A symmetric matrix whose diagonal dominates the absolute row sums
    of the other elements has a non-negative quadratic form. *)
Lemma diagonally_dominant_psd (M : BCOO) (N : nat) (x : Vector) :
  shape M = (N, N) → (∀ i j, bcoo_get M i j = bcoo_get M j i) →
  (∀ i, (i < N)%nat →
     Rsum (map (λ j, if decide (j = i) then 0 else Rabs (bcoo_get M i j)) (seq 0 N))
     <= bcoo_get M i i) →
  length x = N → 0 <= dot x (bcoo_matvec M x).
Proof.
  intros Hs Hsym Hdom Hx.
  rewrite bilinear_form by (by rewrite Hs). rewrite Hs. cbn [fst snd].
  set (X := λ i, default 0 (x !! i)).
  set (off := λ i j : nat, if decide (j = i) then 0 else Rabs (bcoo_get M i j)).
  assert (Hoff : ∀ i j, off i j = off j i).
  { intros i j. unfold off. rewrite (Hsym j i).
    destruct (decide (i = j)), (decide (j = i)); try lra; congruence. }
  apply Rle_trans with
    (Rsum (map (λ i, X i * X i * (bcoo_get M i i - Rsum (map (off i) (seq 0 N))))
               (seq 0 N))).
  { apply Rsum_nonneg. intros i [_ Hi]%elem_of_seq.
    pose proof (Hdom i ltac:(lia)) as Hd. fold (off i) in Hd.
    apply Rmult_le_pos; [nra | lra]. }
  rewrite <- (row_sum_identity (λ i, bcoo_get M i i) X off N Hoff).
  apply Rsum_le. intros i _. apply Rsum_le. intros j _.
  unfold off. fold (X i) (X j). case_decide as Hij.
  - subst j. lra.
  - pose proof (cross_term_bound (bcoo_get M i j) (X i) (X j)). lra.
Qed.

Lemma Rsum_indicator_le_1 (k n : nat) :
  Rsum (map (λ j, if decide (j = k) then 1 else 0) (seq 0 n)) <= 1.
Proof. rewrite (Rsum_indicator (λ _, 1)). case_decide; lra. Qed.

Lemma laplacian_2d_row_dominant n m i :
  (0 < n)%nat → (i < n * m)%nat →
  Rsum (map (λ j, if decide (j = i) then 0 else Rabs (laplacian_2d n m i j))
            (seq 0 (n * m))) <= 4.
Proof.
  intros Hn Hi.
  apply Rle_trans with
    (Rsum (map (λ j, (((if decide (j = i - 1)%nat then 1 else 0)
                       + (if decide (j = i + 1)%nat then 1 else 0))
                      + (if decide (j = i - n)%nat then 1 else 0))
                     + (if decide (j = i + n)%nat then 1 else 0)) (seq 0 (n * m)))).
  - apply Rsum_le. intros j [_ Hj]%elem_of_seq.
    pose proof (Nat.div_mod_eq i n) as Ei. pose proof (Nat.div_mod_eq j n) as Ej.
    assert (i mod n < n)%nat by (apply Nat.mod_upper_bound; lia).
    assert (j mod n < n)%nat by (apply Nat.mod_upper_bound; lia).
    assert (i / n < m)%nat by (apply Nat.Div0.div_lt_upper_bound; lia).
    assert (j / n < m)%nat by (apply Nat.Div0.div_lt_upper_bound; lia).
    replace (laplacian_2d n m i j)
      with (five_point (i mod n)%nat (i / n)%nat (j mod n)%nat (j / n)%nat).
    2:{ rewrite <- (laplacian_2d_five_point n m) by done. f_equal; lia. }
    set (ai := (i mod n)%nat) in *. set (aj := (j mod n)%nat) in *.
    set (bi := (i / n)%nat) in *. set (bj := (j / n)%nat) in *.
    clearbody ai aj bi bj.
    assert (Rabs (-1) = 1) as Habs by (rewrite Rabs_left; lra).
    case_decide as Hji.
    + repeat case_decide; lra.
    + unfold five_point. rewrite decide_False by (intros [-> ->]; lia).
      case_decide as Hadj.
      * rewrite Habs. unfold adjacent in Hadj.
        repeat case_decide; try lra; exfalso;
          destruct Hadj as [[-> [->| ->]]|[-> [->| ->]]]; lia.
      * rewrite Rabs_R0. repeat case_decide; lra.
  - rewrite !Rsum_plus.
    pose proof (Rsum_indicator_le_1 (i - 1) (n * m)).
    pose proof (Rsum_indicator_le_1 (i + 1) (n * m)).
    pose proof (Rsum_indicator_le_1 (i - n) (n * m)).
    pose proof (Rsum_indicator_le_1 (i + n) (n * m)).
    lra.
Qed.

(** X14. The answer of the registered rule is right for the operator
    the notebook builds: the Poisson matrix is positive semidefinite,
    [x . (A @ x) >= 0] for every conforming [x]. *)
Theorem poisson_positive_semidefinite (n m : nat) (A : BCOO) (x : Vector) :
  (0 < n)%nat → (0 < m)%nat → poisson n m = Some A → length x = (n * m)%nat →
  is_positive_semidefinite (operator A) = true
  ∧ 0 <= dot x (bcoo_matvec A x).
Proof.
  intros Hn Hm HA Hx. split; [done|].
  destruct (poisson_denotation n m Hn Hm) as (A' & HA' & Hs & _ & _ & Hg).
  rewrite HA in HA'. injection HA' as <-.
  apply (diagonally_dominant_psd A (n * m)); [done| |  |done].
  - intros i j. rewrite !Hg. apply laplacian_2d_sym.
  - intros i Hi. rewrite Hg, laplacian_2d_diag by done.
    rewrite (Rsum_ext _ _ (λ j, if decide (j = i) then 0 else Rabs (laplacian_2d n m i j))).
    + by apply laplacian_2d_row_dominant.
    + intros j _. by rewrite Hg.
Qed.

Lemma poisson_positive_semidefinite_witness :
  ∃ A, poisson 2 2 = Some A
  ∧ is_positive_semidefinite (operator A) = true
  ∧ 0 <= dot [1; -2; 3; -4] (bcoo_matvec A [1; -2; 3; -4]).
Proof.
  eexists. split; [reflexivity|].
  apply (poisson_positive_semidefinite 2 2); [lia | lia | reflexivity | reflexivity].
Defined.

(** X15. [poisson(n, m)] returns a matrix exactly when both grid sizes
    are positive: for [n = 0] or [m = 0] the sub- and super-diagonal do
    not fit the empty shape and the call of [diags] raises. *)
Theorem poisson_defined_iff_positive (n m : nat) :
  is_Some (poisson n m) ↔ (0 < n)%nat ∧ (0 < m)%nat.
Proof.
  split.
  - intros [A HA]. destruct n as [|n]; [discriminate HA|].
    destruct m as [|m]; [|lia].
    unfold poisson in HA. destruct (diags _ _ (S n, S n)); discriminate HA.
  - intros [Hn Hm]. destruct (poisson_denotation n m Hn Hm) as (A & HA & _). by exists A.
Qed.

Lemma Rsum_indicator_mul (c : R) (g : nat → R) (k n : nat) :
  Rsum (map (λ j, (if decide (j = k) then c else 0) * g j) (seq 0 n))
  = if decide (k < n)%nat then c * g k else 0.
Proof.
  rewrite (Rsum_ext _ _ (λ j, if decide (j = k) then c * g j else 0)).
  - rewrite (Rsum_indicator (λ j, c * g j)). repeat case_decide; try lra; lia.
  - intros j _. case_decide; lra.
Qed.

Lemma grid_index_inj n a b a' b' :
  (a < n)%nat → (a' < n)%nat → (b * n + a = b' * n + a')%nat → a = a' ∧ b = b'.
Proof.
  intros Ha Ha' H. split.
  - rewrite <- (grid_mod n a b), <- (grid_mod n a' b') by done. by rewrite H.
  - rewrite <- (grid_div n a b), <- (grid_div n a' b') by done. by rewrite H.
Qed.

(** The five-point stencil in terms of indices: the neighbours of
    [i = b * n + a] are [i - 1], [i + 1], [i - n] and [i + n], where they
    exist. *)
Lemma five_point_row n m a b aj bj :
  (a < n)%nat → (aj < n)%nat → (bj < m)%nat →
  let i := (b * n + a)%nat in
  let j := (bj * n + aj)%nat in
  five_point a b aj bj
  = (if decide (j = i) then 4 else 0)
    - (if decide (j = i - 1)%nat then (if decide (0 < a)%nat then 1 else 0) else 0)
    - (if decide (j = i + 1)%nat then (if decide (a + 1 < n)%nat then 1 else 0) else 0)
    - (if decide (j = i - n)%nat then (if decide (0 < b)%nat then 1 else 0) else 0)
    - (if decide (j = i + n)%nat then (if decide (b + 1 < m)%nat then 1 else 0) else 0).
Proof.
  intros Ha Haj Hbj i j.
  assert (E0 : j = i ↔ aj = a ∧ bj = b).
  { subst i j. split; [by apply grid_index_inj | by intros [-> ->]]. }
  assert (E1 : (j = (i - 1)%nat ∧ (0 < a)%nat) ↔ (bj = b ∧ a = S aj)).
  { clear E0. subst i j. split.
    - intros [H Hpos]. destruct (grid_index_inj n aj bj (a - 1) b) as [-> ->]; lia.
    - intros [-> ->]. lia. }
  assert (E2 : (j = (i + 1)%nat ∧ (a + 1 < n)%nat) ↔ (bj = b ∧ aj = S a)).
  { clear E0 E1. subst i j. split.
    - intros [H Hlt]. destruct (grid_index_inj n aj bj (a + 1) b) as [-> ->]; lia.
    - intros [-> ->]. lia. }
  assert (E3 : (j = (i - n)%nat ∧ (0 < b)%nat) ↔ (aj = a ∧ b = S bj)).
  { clear E0 E1 E2. subst i j. split.
    - intros [H Hpos]. destruct b as [|b0]; [lia|].
      rewrite Nat.mul_succ_l in H.
      destruct (grid_index_inj n aj bj a b0) as [-> ->]; lia.
    - intros [-> ->]. rewrite Nat.mul_succ_l. lia. }
  assert (E4 : (j = (i + n)%nat ∧ (b + 1 < m)%nat) ↔ (aj = a ∧ bj = S b)).
  { clear E0 E1 E2 E3. subst i j. split.
    - intros [H Hlt]. pose proof (Nat.mul_succ_l b n) as Hsucc.
      assert (bj * n + aj = S b * n + a)%nat as Hj by (rewrite Hsucc; lia).
      by destruct (grid_index_inj n aj bj a (S b) Haj Ha Hj) as [-> ->].
    - intros [-> ->]. pose proof (Nat.mul_succ_l b n). lia. }
  assert ((if decide (j = i) then 4 else 0)
          = if decide (aj = a ∧ bj = b) then 4 else 0) as ->.
  { repeat case_decide; try lra; exfalso; tauto. }
  assert ((if decide (j = i - 1)%nat then (if decide (0 < a)%nat then 1 else 0) else 0)
          = if decide (bj = b ∧ a = S aj) then 1 else 0) as ->.
  { repeat case_decide; try lra; exfalso; tauto. }
  assert ((if decide (j = i + 1)%nat then (if decide (a + 1 < n)%nat then 1 else 0) else 0)
          = if decide (bj = b ∧ aj = S a) then 1 else 0) as ->.
  { repeat case_decide; try lra; exfalso; tauto. }
  assert ((if decide (j = i - n)%nat then (if decide (0 < b)%nat then 1 else 0) else 0)
          = if decide (aj = a ∧ b = S bj) then 1 else 0) as ->.
  { repeat case_decide; try lra; exfalso; tauto. }
  assert ((if decide (j = i + n)%nat then (if decide (b + 1 < m)%nat then 1 else 0) else 0)
          = if decide (aj = a ∧ bj = S b) then 1 else 0) as ->.
  { repeat case_decide; try lra; exfalso; tauto. }
  clear E0 E1 E2 E3 E4. clearbody i j. unfold five_point, adjacent.
  repeat case_decide; try lra; exfalso; lia.
Qed.

(** The row of grid point [(a, b)] holds 4 at the point itself and -1
    at each of its neighbours inside the grid. *)
Lemma laplacian_2d_row n m a b j :
  (a < n)%nat → (b < m)%nat → (j < n * m)%nat →
  let i := (b * n + a)%nat in
  laplacian_2d n m i j
  = (if decide (j = i) then 4 else 0)
    - (if decide (j = i - 1)%nat then (if decide (0 < a)%nat then 1 else 0) else 0)
    - (if decide (j = i + 1)%nat then (if decide (a + 1 < n)%nat then 1 else 0) else 0)
    - (if decide (j = i - n)%nat then (if decide (0 < b)%nat then 1 else 0) else 0)
    - (if decide (j = i + n)%nat then (if decide (b + 1 < m)%nat then 1 else 0) else 0).
Proof.
  intros Ha Hb Hj i.
  pose proof (Nat.div_mod_eq j n) as Ej.
  assert (j mod n < n)%nat as Haj by (apply Nat.mod_upper_bound; lia).
  assert (j / n < m)%nat as Hbj by (apply Nat.Div0.div_lt_upper_bound; lia).
  assert (j = (j / n * n + j mod n)%nat) as Ej' by lia.
  set (aj := (j mod n)%nat) in *. set (bj := (j / n)%nat) in *.
  clearbody aj bj. clear Ej Hj. subst j i.
  rewrite (laplacian_2d_five_point n m) by done.
  by apply five_point_row.
Qed.

(** X16. On a grid vector the Poisson operator applies the five-point
    stencil with zero boundary values: at grid point [(a, b)], stored at
    index [i = b * n + a], [A @ x] is [4 * x[i]] minus the values at the
    neighbours [i - 1], [i + 1], [i - n] and [i + n] that lie inside the
    grid. *)
Theorem poisson_mv_five_point (n m : nat) (A : BCOO) (x : Vector) (a b : nat) :
  (0 < n)%nat → (0 < m)%nat → poisson n m = Some A → length x = (n * m)%nat →
  (a < n)%nat → (b < m)%nat →
  let i := (b * n + a)%nat in
  let X := λ k, default 0 (x !! k) in
  bcoo_matvec A x !! i
  = Some (4 * X i
          - (if decide (0 < a)%nat then X (i - 1)%nat else 0)
          - (if decide (a + 1 < n)%nat then X (i + 1)%nat else 0)
          - (if decide (0 < b)%nat then X (i - n)%nat else 0)
          - (if decide (b + 1 < m)%nat then X (i + n)%nat else 0)).
Proof.
  intros Hn Hm HA Hx Ha Hb i X.
  destruct (poisson_denotation n m Hn Hm) as (A' & HA' & Hs & _ & _ & Hg).
  rewrite HA in HA'. injection HA' as <-.
  assert (b * n + n ≤ n * m)%nat as Hrow by nia.
  assert (i < n * m)%nat as Hi by (subst i; lia).
  rewrite bcoo_matvec_lookup by (rewrite Hs; done). rewrite Hs. cbn [fst snd]. f_equal.
  fold X.
  set (c1 := if decide (0 < a)%nat then 1 else 0).
  set (c2 := if decide (a + 1 < n)%nat then 1 else 0).
  set (c3 := if decide (0 < b)%nat then 1 else 0).
  set (c4 := if decide (b + 1 < m)%nat then 1 else 0).
  rewrite (Rsum_ext _ _
    (λ j, ((((if decide (j = i) then 4 else 0) * X j
             - (if decide (j = i - 1)%nat then c1 else 0) * X j)
            - (if decide (j = i + 1)%nat then c2 else 0) * X j)
           - (if decide (j = i - n)%nat then c3 else 0) * X j)
          - (if decide (j = i + n)%nat then c4 else 0) * X j)).
  2:{ intros j [_ Hj]%elem_of_seq. rewrite Hg. subst c1 c2 c3 c4 i X.
      rewrite (laplacian_2d_row n m a b j) by (done || lia). cbv zeta beta. ring. }
  rewrite !Rsum_minus, !Rsum_indicator_mul.
  assert (b + 1 < m → i + n < n * m)%nat as Hdown by (subst i; nia).
  assert (a + 1 < n → i + 1 < n * m)%nat as Hright by (subst i; lia).
  subst c1 c2 c3 c4. clearbody i. clear Hrow Hx Hs Hg HA.
  generalize dependent (n * m)%nat. intros N Hi Hdown Hright.
  repeat case_decide; try lra; exfalso; lia.
Qed.

Lemma poisson_mv_five_point_witness :
  ∃ A, poisson 2 2 = Some A ∧
  let i := (1 * 2 + 0)%nat in
  let X := λ k, default 0 ([1; 2; 3; 5] !! k) in
  bcoo_matvec A [1; 2; 3; 5] !! i
  = Some (4 * X i
          - (if decide (0 < 0)%nat then X (i - 1)%nat else 0)
          - (if decide (0 + 1 < 2)%nat then X (i + 1)%nat else 0)
          - (if decide (0 < 1)%nat then X (i - 2)%nat else 0)
          - (if decide (1 + 1 < 2)%nat then X (i + 2)%nat else 0)).
Proof.
  eexists. split; [reflexivity|].
  apply (poisson_mv_five_point 2 2 _ [1; 2; 3; 5] 0 1);
    [lia | lia | reflexivity | reflexivity | lia | lia].
Defined.

(** ** The Poisson operator is positive definite *)

Lemma square_nonneg (t : R) : 0 <= t * t.
Proof. nra. Qed.

Lemma Rsum_zero_terms (A : Type) (f : A → R) (l : list A) :
  (∀ x, x ∈ l → 0 <= f x) → Rsum (map f l) = 0 → ∀ x, x ∈ l → f x = 0.
Proof.
  induction l as [|y l IH]; intros Hpos Hsum x Hx; [by apply elem_of_nil in Hx|].
  cbn [map] in Hsum. rewrite Rsum_cons in Hsum.
  pose proof (Hpos y (list_elem_of_here _ _)).
  assert (0 <= Rsum (map f l)).
  { apply Rsum_nonneg. intros z Hz. apply Hpos. by constructor. }
  apply elem_of_cons in Hx as [->|Hx]; [lra|].
  apply IH; [|lra|done]. intros z Hz. apply Hpos. by constructor.
Qed.

(** For a symmetric matrix whose off-diagonal elements are not
    positive, the quadratic form splits into the diagonal excess over the
    row sums and the squared differences across the couplings. *)
Lemma quadratic_form_decomposition (M : BCOO) (N : nat) (x : Vector) :
  shape M = (N, N) → (∀ i j, bcoo_get M i j = bcoo_get M j i) → length x = N →
  let X := λ i, default 0 (x !! i) in
  let off := λ i j : nat, if decide (j = i) then 0 else - bcoo_get M i j in
  dot x (bcoo_matvec M x)
  = Rsum (map (λ i, X i * X i * (bcoo_get M i i - Rsum (map (off i) (seq 0 N))))
              (seq 0 N))
    + Rsum (map (λ i, Rsum (map (λ j, off i j * ((X i - X j) * (X i - X j)) / 2)
                                (seq 0 N))) (seq 0 N)).
Proof.
  intros Hs Hsym Hx X off.
  assert (Hoff : ∀ i j, off i j = off j i).
  { intros i j. unfold off. rewrite (Hsym j i).
    destruct (decide (i = j)), (decide (j = i)); try lra; congruence. }
  rewrite bilinear_form by (by rewrite Hs). rewrite Hs. cbn [fst snd].
  rewrite <- (row_sum_identity (λ i, bcoo_get M i i) X off N Hoff).
  rewrite <- Rsum_plus. apply Rsum_ext. intros i _.
  rewrite <- Rsum_plus. apply Rsum_ext. intros j _.
  fold (X i) (X j). unfold off. case_decide as Hij.
  - subst j. lra.
  - lra.
Qed.

(** The couplings of the Poisson matrix: row [i = b * n + a] has a -1
    at each neighbour of [(a, b)] inside the grid and nothing else off
    the diagonal. *)
Lemma laplacian_2d_coupling n m a b j :
  (0 < n)%nat → (a < n)%nat → (b < m)%nat → (j < n * m)%nat →
  let i := (b * n + a)%nat in
  (if decide (j = i) then 0 else - laplacian_2d n m i j)
  = (if decide (j = i - 1)%nat then (if decide (0 < a)%nat then 1 else 0) else 0)
    + (if decide (j = i + 1)%nat then (if decide (a + 1 < n)%nat then 1 else 0) else 0)
    + (if decide (j = i - n)%nat then (if decide (0 < b)%nat then 1 else 0) else 0)
    + (if decide (j = i + n)%nat then (if decide (b + 1 < m)%nat then 1 else 0) else 0).
Proof.
  intros Hn Ha Hb Hj i.
  pose proof (laplacian_2d_row n m a b j Ha Hb Hj) as Hrow. cbv zeta in Hrow.
  assert (i < n * m)%nat as Hi by (subst i; nia).
  subst i. set (i := (b * n + a)%nat) in *. clearbody i.
  destruct (decide (j = i)) as [->|Hji].
  - rewrite laplacian_2d_diag in Hrow by done. lra.
  - lra.
Qed.

Lemma laplacian_2d_row_sum n m a b :
  (0 < n)%nat → (a < n)%nat → (b < m)%nat →
  let i := (b * n + a)%nat in
  Rsum (map (λ j, if decide (j = i) then 0 else - laplacian_2d n m i j) (seq 0 (n * m)))
  <= (if decide (0 < a)%nat then 1 else 0) + 3.
Proof.
  intros Hn Ha Hb i.
  rewrite (Rsum_ext _ _
    (λ j, (((if decide (j = i - 1)%nat then (if decide (0 < a)%nat then 1 else 0) else 0)
            + (if decide (j = i + 1)%nat then (if decide (a + 1 < n)%nat then 1 else 0) else 0))
           + (if decide (j = i - n)%nat then (if decide (0 < b)%nat then 1 else 0) else 0))
          + (if decide (j = i + n)%nat then (if decide (b + 1 < m)%nat then 1 else 0) else 0))).
  2:{ intros j [_ Hj]%elem_of_seq. by apply laplacian_2d_coupling. }
  rewrite !Rsum_plus.
  rewrite (Rsum_indicator (λ _, if decide (0 < a)%nat then 1 else 0)).
  rewrite (Rsum_indicator (λ _, if decide (a + 1 < n)%nat then 1 else 0)).
  rewrite (Rsum_indicator (λ _, if decide (0 < b)%nat then 1 else 0)).
  rewrite (Rsum_indicator (λ _, if decide (b + 1 < m)%nat then 1 else 0)).
  clearbody i. repeat case_decide; lra.
Qed.

Lemma laplacian_2d_coupling_nonneg n m i j :
  (0 < n)%nat → (i < n * m)%nat → (j < n * m)%nat →
  0 <= (if decide (j = i) then 0 else - laplacian_2d n m i j).
Proof.
  intros Hn Hi Hj.
  assert (i = (i / n * n + i mod n)%nat) as Ei by (pose proof (Nat.div_mod_eq i n); lia).
  assert (i mod n < n)%nat by (apply Nat.mod_upper_bound; lia).
  assert (i / n < m)%nat by (apply Nat.Div0.div_lt_upper_bound; lia).
  rewrite Ei.
  rewrite (laplacian_2d_coupling n m (i mod n) (i / n) j) by done.
  repeat case_decide; lra.
Qed.

Lemma poisson_kernel_trivial (n m : nat) (A : BCOO) (x : Vector) :
  (0 < n)%nat → (0 < m)%nat → poisson n m = Some A → length x = (n * m)%nat →
  dot x (bcoo_matvec A x) <= 0 → x = jnp_zeros (n * m).
Proof.
  intros Hn Hm HA Hx HQ.
  destruct (poisson_denotation n m Hn Hm) as (A' & HA' & Hs & _ & _ & Hg).
  rewrite HA in HA'. injection HA' as <-.
  assert (Hsym : ∀ i j, bcoo_get A i j = bcoo_get A j i).
  { intros i j. rewrite !Hg. apply laplacian_2d_sym. }
  pose proof (quadratic_form_decomposition A (n * m) x Hs Hsym Hx) as Hdec.
  cbv zeta in Hdec.
  set (X := λ i, default 0 (x !! i)) in *.
  set (off := λ i j : nat, if decide (j = i) then 0 else - bcoo_get A i j) in *.
  assert (Hoffeq : ∀ i j, off i j = if decide (j = i) then 0 else - laplacian_2d n m i j).
  { intros i j. unfold off. by rewrite Hg. }
  assert (Hoffpos : ∀ i j, (i < n * m)%nat → (j < n * m)%nat → 0 <= off i j).
  { intros i j Hi Hj. rewrite Hoffeq. by apply laplacian_2d_coupling_nonneg. }
  assert (Hrow : ∀ a b, (a < n)%nat → (b < m)%nat →
            Rsum (map (off (b * n + a)%nat) (seq 0 (n * m)))
            <= (if decide (0 < a)%nat then 1 else 0) + 3).
  { intros a b Ha Hb.
    rewrite (Rsum_ext _ _ (λ j, if decide (j = (b * n + a)%nat) then 0
                                else - laplacian_2d n m (b * n + a)%nat j)).
    - by apply laplacian_2d_row_sum.
    - intros j _. apply Hoffeq. }
  assert (Hidx : ∀ a b, (a < n)%nat → (b < m)%nat → (b * n + a < n * m)%nat) by (intros; nia).
  set (S1 := Rsum (map (λ i, X i * X i * (bcoo_get A i i - Rsum (map (off i) (seq 0 (n * m)))))
                       (seq 0 (n * m)))) in *.
  set (S2 := Rsum (map (λ i, Rsum (map (λ j, off i j * ((X i - X j) * (X i - X j)) / 2)
                                       (seq 0 (n * m)))) (seq 0 (n * m)))) in *.
  assert (Hterm1 : ∀ i, i ∈ seq 0 (n * m) →
            0 <= X i * X i * (bcoo_get A i i - Rsum (map (off i) (seq 0 (n * m))))).
  { intros i [_ Hi]%elem_of_seq.
    assert (i = (i / n * n + i mod n)%nat) as Ei by (pose proof (Nat.div_mod_eq i n); lia).
    assert (i mod n < n)%nat as Ha by (apply Nat.mod_upper_bound; lia).
    assert (i / n < m)%nat as Hb by (apply Nat.Div0.div_lt_upper_bound; lia).
    pose proof (Hrow _ _ Ha Hb) as Hr. rewrite <- Ei in Hr.
    rewrite Hg, laplacian_2d_diag by (done || lia).
    apply Rmult_le_pos; [apply square_nonneg|]. case_decide; lra. }
  assert (Hterm2 : ∀ i, i ∈ seq 0 (n * m) →
            0 <= Rsum (map (λ j, off i j * ((X i - X j) * (X i - X j)) / 2) (seq 0 (n * m)))).
  { intros i [_ Hi]%elem_of_seq. apply Rsum_nonneg. intros j [_ Hj]%elem_of_seq.
    pose proof (Hoffpos i j ltac:(lia) ltac:(lia)).
    assert (0 <= off i j * ((X i - X j) * (X i - X j)))
      by (apply Rmult_le_pos; [done | apply square_nonneg]).
    lra. }
  assert (0 <= S1) as HS1 by (by apply Rsum_nonneg).
  assert (0 <= S2) as HS2 by (by apply Rsum_nonneg).
  assert (S1 = 0) as HS1z by lra. assert (S2 = 0) as HS2z by lra.
  pose proof (Rsum_zero_terms _ _ _ Hterm1 HS1z) as Hz1.
  pose proof (Rsum_zero_terms _ _ _ Hterm2 HS2z) as Hz2.
  (* the values vanish along every grid row, from its left end *)
  assert (Hgrid : ∀ a b, (a < n)%nat → (b < m)%nat → X (b * n + a)%nat = 0).
  { induction a as [|a IH]; intros b Ha Hb.
    - pose proof (Hz1 (b * n + 0)%nat ltac:(apply elem_of_seq; specialize (Hidx 0%nat b); lia)) as H1.
      pose proof (Hrow 0%nat b Ha Hb) as Hr. rewrite decide_False in Hr by lia.
      cbv beta in H1.
      rewrite Hg, laplacian_2d_diag in H1 by (done || apply Hidx; lia).
      apply Rmult_integral in H1 as [H1|H1]; [|lra].
      by apply Rmult_integral in H1 as [H1|H1].
    - assert (a < n)%nat as Ha' by lia.
      pose proof (Hidx a b Ha' Hb) as Hi. pose proof (Hidx (S a) b Ha Hb) as Hi'.
      pose proof (Hz2 (b * n + a)%nat ltac:(apply elem_of_seq; lia)) as H2.
      assert (Hpos : ∀ j, j ∈ seq 0 (n * m) →
                0 <= off (b * n + a)%nat j
                     * ((X (b * n + a)%nat - X j) * (X (b * n + a)%nat - X j)) / 2).
      { intros j [_ Hj]%elem_of_seq.
        pose proof (Hoffpos (b * n + a)%nat j Hi ltac:(lia)).
        assert (0 <= off (b * n + a)%nat j
                     * ((X (b * n + a)%nat - X j) * (X (b * n + a)%nat - X j)))
          by (apply Rmult_le_pos; [done | apply square_nonneg]).
        lra. }
      cbv beta in H2.
      pose proof (Rsum_zero_terms _ _ _ Hpos H2 (b * n + S a)%nat
                    ltac:(apply elem_of_seq; lia)) as H3.
      cbv beta in H3.
      assert (off (b * n + a)%nat (b * n + S a)%nat = 1) as Hone.
      { rewrite Hoffeq. rewrite decide_False by lia.
        rewrite (laplacian_2d_five_point n m) by done.
        unfold five_point, adjacent. rewrite decide_False by lia.
        rewrite decide_True by lia. lra. }
      rewrite Hone, (IH b Ha' Hb) in H3.
      assert ((0 - X (b * n + S a)%nat) * (0 - X (b * n + S a)%nat) = 0) as H4 by lra.
      apply Rmult_integral in H4. lra. }
  apply list_eq_same_length with (n * m)%nat; [by rewrite length_jnp_zeros | done |].
  intros i u v Hi Hu Hv. rewrite lookup_jnp_zeros in Hv by done. injection Hv as <-.
  assert (i = (i / n * n + i mod n)%nat) as Ei by (pose proof (Nat.div_mod_eq i n); lia).
  assert (i mod n < n)%nat as Ha by (apply Nat.mod_upper_bound; lia).
  assert (i / n < m)%nat as Hb by (apply Nat.Div0.div_lt_upper_bound; lia).
  pose proof (Hgrid _ _ Ha Hb) as H0. rewrite <- Ei in H0. unfold X in H0.
  by rewrite Hu in H0.
Qed.

(** X17. The Poisson operator is positive definite:
    [x . (A @ x) > 0] for every conforming [x] other than the zero
    vector. *)
Theorem poisson_positive_definite (n m : nat) (A : BCOO) (x : Vector) :
  (0 < n)%nat → (0 < m)%nat → poisson n m = Some A → length x = (n * m)%nat →
  x ≠ jnp_zeros (n * m) → 0 < dot x (bcoo_matvec A x).
Proof.
  intros Hn Hm HA Hx Hne.
  destruct (Rlt_dec 0 (dot x (bcoo_matvec A x))) as [|Hle]; [done|].
  exfalso. apply Hne. apply (poisson_kernel_trivial n m A); try done. lra.
Qed.

Lemma poisson_positive_definite_witness :
  ∃ A, poisson 2 1 = Some A ∧ 0 < dot [1; 1] (bcoo_matvec A [1; 1]).
Proof.
  eexists. split; [reflexivity|].
  apply (poisson_positive_definite 2 1); [lia | lia | reflexivity | reflexivity |].
  intros [= H]. lra.
Defined.
